(** * gopi-frame/collection: the queue package, embedded and verified

    A shallow embedding of the queue family of the collection library
    (BlockingQueue, LinkedBlockingQueue, LinkedQueue, PriorityQueue,
    PriorityBlockingQueue, and the LinkedList they build on), followed by
    the properties of the design document stated over that embedding.

    The embedding is sequential: one goroutine runs one method to the end.
    The mutex and the two condition variables of a queue carry no data, so
    they are left out of the state; a [Wait] on a condition variable that
    no other goroutine can signal is the outcome [Blocks]. *)

From Stdlib Require Import ZArith Lia Sorted.
From Stdlib.Strings Require Import Byte.
From stdpp Require Import base list.

Local Open Scope Z_scope.

(** ** Machine integers

    [int64] (and [int] on a 64-bit target) as [Z] with the wrap-around of
    the Go specification written out. Division truncates toward zero. *)

Module Int64.
Definition modulus : Z := 2 ^ 64.
Definition min_int : Z := - 2 ^ 63.
Definition max_int : Z := 2 ^ 63 - 1.

Definition wrap (z : Z) : Z := (z + 2 ^ 63) mod modulus - 2 ^ 63.

Definition add (a b : Z) : Z := wrap (a + b).
Definition sub (a b : Z) : Z := wrap (a - b).
Definition mul (a b : Z) : Z := wrap (a * b).
Definition div (a b : Z) : Z := wrap (Z.quot a b).

(** [int64(len(s))]: a slice length always fits. *)
Definition of_len {A} (s : list A) : Z := wrap (Z.of_nat (length s)).

Definition in_range (z : Z) : Prop := min_int <= z <= max_int.
End Int64.

(** ** Outcomes of a method call *)

Inductive outcome (A : Type) : Type :=
| Done (a : A)      (* the call returns *)
| Panics            (* a run-time panic: a bound out of range, a failed type assertion *)
| Blocks            (* parked on a condition variable nobody can signal *)
| Diverges.         (* a loop that never exits *)

Arguments Done {A} a.
Arguments Panics {A}.
Arguments Blocks {A}.
Arguments Diverges {A}.

(** Sequencing, through stdpp's monad notation [x ← m; k]. *)
#[export] Instance outcome_bind : MBind outcome := fun A B k m =>
  match m with
  | Done a => k a
  | Panics => Panics
  | Blocks => Blocks
  | Diverges => Diverges
  end.

#[export] Instance outcome_ret : MRet outcome := fun A a => Done a.

(** The zero value [*new(E)] of an element type. *)
Class GoZero (E : Type) := zero : E.

#[export] Instance Z_zero : GoZero Z := 0.

(** ** Type assertions

    [container/list] keeps a value as an [any], and the methods of
    LinkedList read it back with [e.Value.(E)]. The assertion holds for
    everything that was stored as an [E] but one value: the nil of an
    interface type [E], which is stored as a nil [any] and on which the
    assertion panics. [is_nil] tells that value; a type that is not an
    interface type has none. *)
Class GoNil (E : Type) := is_nil : E -> bool.

#[export] Instance Z_nil : GoNil Z := fun _ => false.

Definition type_assert {E} `{GoNil E} (v : E) : outcome E :=
  if is_nil v then Panics else Done v.

(** ** Slices

    A slice is the list of its elements. [index s i] is [s[i]]; [slice_to]
    is [s[:n]]; [slice_from] is [s[n:]]. Go panics out of range. The spare
    capacity of the backing array is not part of the state: a bound beyond
    the length counts as out of range. *)

Section Slices.
Context {E : Type}.

Definition in_bounds (s : list E) (i : Z) : bool :=
  (0 <=? i) && (i <? Z.of_nat (length s)).

Definition index (s : list E) (i : Z) : outcome E :=
  if in_bounds s i then
    match s !! Z.to_nat i with
    | Some x => Done x
    | None => Panics
    end
  else Panics.

Definition slice_to (s : list E) (n : Z) : outcome (list E) :=
  if (0 <=? n) && (n <=? Z.of_nat (length s))
  then Done (take (Z.to_nat n) s) else Panics.

Definition slice_from (s : list E) (n : Z) : outcome (list E) :=
  if (0 <=? n) && (n <=? Z.of_nat (length s))
  then Done (drop (Z.to_nat n) s) else Panics.

(** [append(s, v)]: the runtime refuses a length beyond the largest
    [int] ("growslice: len out of range"). *)
Definition append (s : list E) (v : E) : outcome (list E) :=
  if Z.of_nat (length s) <? Int64.max_int then Done (s ++ [v]) else Panics.

(** [for _, item := range src { if !callback(item) { items = append(items, item) } }]
    The copy is never longer than [src], so this [append] cannot fail. *)
Fixpoint keep_unless (callback : E -> bool) (src items : list E) : list E :=
  match src with
  | [] => items
  | item :: rest =>
      keep_unless callback rest
        (if callback item then items else items ++ [item])
  end.
End Slices.

(** ** encoding/json

    The codec is the standard library's, not this repository's: it enters
    as a pair of functions. [Unmarshal data] is [json.Unmarshal(data,
    &values)] for a slice [values]: the decoded elements, or an error. *)

Inductive error : Type := JSONError (msg : nat).

Record Codec (E : Type) : Type := MkCodec {
  Marshal : list E -> error + list Byte.byte;
  Unmarshal : list Byte.byte -> error + list E;
}.
Arguments Marshal {E} _ _.
Arguments Unmarshal {E} _ _.

(** ** BlockingQueue (array-backed) *)

Module BlockingQueue.
Section Defs.
Context {E : Type} `{GoZero E}.

Record t : Type := Mk { items : list E; size : Z; cap : Z }.

Definition NewBlockingQueue (cap : Z) : t :=
  {| items := []; size := 0; cap := cap |}.

Definition Count (q : t) : Z := size q.
Definition IsEmpty (q : t) : bool := Count q =? 0.
Definition IsNotEmpty (q : t) : bool := negb (IsEmpty q).

Definition Clear (q : t) : t :=
  {| items := []; size := 0; cap := cap q |}.

Definition Peek (q : t) : outcome (E * bool) :=
  if size q =? 0 then Done (zero, false)
  else x ← index (items q) 0; Done (x, true).

(** The body shared by the enqueue paths once there is room. *)
Definition put (q : t) (value : E) : outcome (t * bool) :=
  items' ← append (items q) value;
  Done ({| items := items'; size := Int64.add (size q) 1; cap := cap q |},
        true).

Definition TryEnqueue (q : t) (value : E) : outcome (t * bool) :=
  if cap q =? size q then Done (q, false)
  else put q value.

(** The body shared by the dequeue paths once there is an element. *)
Definition take_head (q : t) : outcome (t * (E * bool)) :=
  value ← index (items q) 0;
  rest ← slice_from (items q) 1;
  Done ({| items := rest; size := Int64.sub (size q) 1; cap := cap q |},
        (value, true)).

Definition TryDequeue (q : t) : outcome (t * (E * bool)) :=
  if size q =? 0 then Done (q, (zero, false))
  else take_head q.

(** [for q.cap == q.size { q.putLock.Wait() }]: nothing changes the
    queue while the only goroutine waits. *)
Definition Enqueue (q : t) (value : E) : outcome (t * bool) :=
  if cap q =? size q then Blocks
  else put q value.

Definition Dequeue (q : t) : outcome (t * (E * bool)) :=
  if size q =? 0 then Blocks
  else take_head q.

Definition RemoveWhere (q : t) (callback : E -> bool) : t :=
  let items' := keep_unless callback (items q) [] in
  {| items := items'; size := Int64.of_len items'; cap := cap q |}.

Definition Remove (DeepEqual : E -> E -> bool) (q : t) (value : E) : t :=
  let items' := keep_unless (fun item => DeepEqual item value) (items q) [] in
  {| items := items'; size := Int64.of_len items'; cap := cap q |}.

Definition ToArray (q : t) : list E := items q.

Definition ToJSON (c : Codec E) (q : t) : error + list Byte.byte :=
  Marshal c (ToArray q).

Definition MarshalJSON (c : Codec E) (q : t) := ToJSON c q.

(** The loop of [UnmarshalJSON] over the decoded values. *)
Fixpoint put_all (q : t) (values : list E) : outcome t :=
  match values with
  | [] => Done q
  | value :: rest =>
      if size q =? cap q then Blocks
      else r ← put q value; put_all r.1 rest
  end.

(** The result is the queue afterwards and the returned error
    ([None] is [nil]). *)
Definition UnmarshalJSON (c : Codec E) (q : t) (data : list Byte.byte)
  : outcome (t * option error) :=
  match Unmarshal c data with
  | inl err => Done (q, Some err)
  | inr values => q' ← put_all q values; Done (q', None)
  end.
End Defs.
Arguments t E : clear implicits.
End BlockingQueue.

(** ** LinkedList (package list), over container/list

    [l.list] is a doubly linked list of the standard library, created by
    [init] on first use; through the methods a nil list and an empty one
    behave alike, so the state is the sequence of values front to back. *)

Module LinkedList.
Section Defs.
Context {E : Type} `{GoZero E} `{GoNil E}.

Definition t : Type := list E.

Definition Count (l : t) : Z := Int64.of_len l.
Definition IsEmpty (l : t) : bool := Count l =? 0.
Definition IsNotEmpty (l : t) : bool := negb (IsEmpty l).

(** [for _, value := range values { l.list.PushBack(value) }] *)
Fixpoint Push (l : t) (values : list E) : t :=
  match values with
  | [] => l
  | value :: rest => Push (l ++ [value]) rest
  end.

Definition NewLinkedList (values : list E) : t := Push [] values.

(** The walk from [Front] that unlinks every element the callback
    accepts; the callback gets [e.Value.(E)]. *)
Fixpoint RemoveWhere (l : t) (callback : E -> bool) : outcome t :=
  match l with
  | [] => Done []
  | e :: next =>
      v ← type_assert e;
      rest ← RemoveWhere next callback;
      Done (if callback v then rest else e :: rest)
  end.

Definition Remove (DeepEqual : E -> E -> bool) (l : t) (value : E)
  : outcome t :=
  RemoveWhere l (fun item => DeepEqual item value).

Definition Clear (l : t) : t := [].

Definition First (l : t) : outcome (E * bool) :=
  match l with
  | [] => Done (zero, false)
  | front :: _ => v ← type_assert front; Done (v, true)
  end.

(** The front is unlinked before its value is asserted. *)
Definition Shift (l : t) : outcome (t * (E * bool)) :=
  match l with
  | [] => Done (l, (zero, false))
  | item :: rest => v ← type_assert item; Done (rest, (v, true))
  end.

(** [for e := l.list.Front(); e != nil; e = e.Next() { items = append(items, e.Value.(E)) }]
    The copy is never longer than the list, so this [append] cannot fail. *)
Fixpoint to_array_loop (l : t) (items : list E) : outcome (list E) :=
  match l with
  | [] => Done items
  | e :: next => v ← type_assert e; to_array_loop next (items ++ [v])
  end.

Definition ToArray (l : t) : outcome (list E) := to_array_loop l [].

Definition ToJSON (c : Codec E) (l : t) : outcome (error + list Byte.byte) :=
  items ← ToArray l; Done (Marshal c items).

Definition MarshalJSON (c : Codec E) (l : t) := ToJSON c l.

Definition UnmarshalJSON (c : Codec E) (l : t) (data : list Byte.byte)
  : t * option error :=
  match Unmarshal c data with
  | inl err => (l, Some err)
  | inr items => (Push l items, None)
  end.
(** The other methods of the list. An index is an [int]; the loops count
    with it as the code does. *)

Fixpoint ContainsWhere (l : t) (callback : E -> bool) : outcome bool :=
  match l with
  | [] => Done false
  | e :: next =>
      v ← type_assert e;
      if callback v then Done true else ContainsWhere next callback
  end.

Definition Contains (DeepEqual : E -> E -> bool) (l : t) (value : E)
  : outcome bool :=
  ContainsWhere l (fun item => DeepEqual item value).

(** [for e, i := l.list.Front(), 0; e != nil; e, i = next, i+1]:
    the element at [index] is unlinked and the walk stops. *)
Fixpoint remove_at_loop (l : t) (i index : Z) : t :=
  match l with
  | [] => []
  | e :: next =>
      if i =? index then next
      else e :: remove_at_loop next (Int64.add i 1) index
  end.

Definition RemoveAt (l : t) (index : Z) : t := remove_at_loop l 0 index.

Fixpoint get_loop (l : t) (i index : Z) : outcome E :=
  match l with
  | [] => Done zero
  | e :: next =>
      if i =? index then type_assert e
      else get_loop next (Int64.add i 1) index
  end.

(** [Get] panics with a RangeException outside [0, Len()). *)
Definition Get (l : t) (index : Z) : outcome E :=
  if (index <? 0) || (index >=? Int64.of_len l) then Panics
  else get_loop l 0 index.

(** [Set] ([Set_] here, [Set] being reserved) has no bounds check and
    walks the whole list. *)
Fixpoint set_loop (l : t) (i index : Z) (value : E) : t :=
  match l with
  | [] => []
  | e :: next =>
      (if i =? index then value else e)
        :: set_loop next (Int64.add i 1) index value
  end.

Definition Set_ (l : t) (index : Z) (value : E) : t := set_loop l 0 index value.

Definition FirstOr (l : t) (value : E) : outcome E :=
  match l with
  | [] => Done value
  | front :: _ => type_assert front
  end.

(** [if callback(e.Value.(E)) { return e.Value.(E), true }] *)
Fixpoint FirstWhere (l : t) (callback : E -> bool) : outcome (E * bool) :=
  match l with
  | [] => Done (zero, false)
  | e :: next =>
      v ← type_assert e;
      if callback v then (found ← type_assert e; Done (found, true))
      else FirstWhere next callback
  end.

Fixpoint FirstWhereOr (l : t) (callback : E -> bool) (value : E) : outcome E :=
  match l with
  | [] => Done value
  | e :: next =>
      v ← type_assert e;
      if callback v then type_assert e
      else FirstWhereOr next callback value
  end.

(** [Back()] is the front of the list read backwards. *)
Definition Last (l : t) : outcome (E * bool) :=
  match rev l with
  | [] => Done (zero, false)
  | back :: _ => v ← type_assert back; Done (v, true)
  end.

Definition LastOr (l : t) (value : E) : outcome E :=
  match rev l with
  | [] => Done value
  | back :: _ => type_assert back
  end.

(** [for e := l.list.Back(); e != nil; e = e.Prev()] *)
Definition LastWhere (l : t) (callback : E -> bool) : outcome (E * bool) :=
  FirstWhere (rev l) callback.

Definition LastWhereOr (l : t) (callback : E -> bool) (value : E) : outcome E :=
  '(v, ok) ← LastWhere l callback;
  Done (if ok : bool then v else value).

(** The back is unlinked before its value is asserted. *)
Definition Pop (l : t) : outcome (t * (E * bool)) :=
  match rev l with
  | [] => Done (l, (zero, false))
  | item :: before => v ← type_assert item; Done (rev before, (v, true))
  end.

(** [for _, value := range values { l.list.PushFront(value) }] *)
Fixpoint Unshift (l : t) (values : list E) : t :=
  match values with
  | [] => l
  | value :: rest => Unshift (value :: l) rest
  end.

Fixpoint index_of_loop (l : t) (i : Z) (callback : E -> bool) : outcome Z :=
  match l with
  | [] => Done (-1)
  | e :: next =>
      v ← type_assert e;
      if callback v then Done i
      else index_of_loop next (Int64.add i 1) callback
  end.

Definition IndexOfWhere (l : t) (callback : E -> bool) : outcome Z :=
  index_of_loop l 0 callback.

Definition IndexOf (DeepEqual : E -> E -> bool) (l : t) (value : E)
  : outcome Z :=
  IndexOfWhere l (fun item => DeepEqual item value).

(** The loop of [Sub]: skip below [from], copy below [to], then stop.
    Only a copied element is asserted. *)
Fixpoint sub_loop (l : t) (i from to : Z) (linked : t) : outcome t :=
  match l with
  | [] => Done linked
  | e :: next =>
      if i <? from then sub_loop next (Int64.add i 1) from to linked
      else if (i >=? from) && (i <? to)
      then v ← type_assert e;
           sub_loop next (Int64.add i 1) from to (Push linked [v])
      else Done linked
  end.

Definition Sub (l : t) (from to : Z) : outcome t :=
  sub_loop l 0 from to (NewLinkedList []).

(** [if callback(e.Value.(E)) { linked.Push(e.Value.(E)) }] *)
Fixpoint where_loop (l : t) (callback : E -> bool) (linked : t) : outcome t :=
  match l with
  | [] => Done linked
  | e :: next =>
      v ← type_assert e;
      if callback v
      then kept ← type_assert e; where_loop next callback (Push linked [kept])
      else where_loop next callback linked
  end.

Definition Where (l : t) (callback : E -> bool) : outcome t :=
  where_loop l callback [].

(** The loop of [Compact]: [prev] is [e.Prev().Value], the last element
    that stayed; [callback(e.Value.(E), e.Prev().Value.(E))]. *)
Fixpoint compact_loop (prev : E) (l : t) (callback : E -> E -> bool)
  : outcome t :=
  match l with
  | [] => Done []
  | e :: next =>
      a ← type_assert e;
      b ← type_assert prev;
      if callback a b then compact_loop prev next callback
      else rest ← compact_loop e next callback; Done (e :: rest)
  end.

(** A nil callback stands for [reflect.DeepEqual]; a list of fewer than
    two elements is returned at once. *)
Definition Compact (DeepEqual : E -> E -> bool) (l : t)
    (callback : option (E -> E -> bool)) : outcome t :=
  match l with
  | front :: (_ :: _) as rest =>
      kept ← compact_loop front rest
                (match callback with Some f => f | None => DeepEqual end);
      Done (front :: kept)
  | _ => Done l
  end.

(** [slices.MinFunc] and [slices.MaxFunc] of the standard library: the
    first minimal (maximal) element; a panic on an empty slice. *)
Fixpoint min_loop (m : E) (x : list E) (cmp : E -> E -> Z) : E :=
  match x with
  | [] => m
  | xi :: rest => min_loop (if cmp xi m <? 0 then xi else m) rest cmp
  end.

Fixpoint max_loop (m : E) (x : list E) (cmp : E -> E -> Z) : E :=
  match x with
  | [] => m
  | xi :: rest => max_loop (if cmp xi m >? 0 then xi else m) rest cmp
  end.

Definition Min (l : t) (callback : E -> E -> Z) : outcome E :=
  items ← ToArray l;
  match items with
  | [] => Panics
  | x0 :: rest => Done (min_loop x0 rest callback)
  end.

Definition Max (l : t) (callback : E -> E -> Z) : outcome E :=
  items ← ToArray l;
  match items with
  | [] => Panics
  | x0 :: rest => Done (max_loop x0 rest callback)
  end.

(** The inner loop of [Sort]: before the first node the value sorts
    before, or at the back; [callback(e.Value.(E), node.Value.(E))] for
    each node met, none for an empty new list. *)
Fixpoint sort_insert (callback : E -> E -> Z) (value : E) (newList : list E)
  : outcome (list E) :=
  match newList with
  | [] => Done [value]
  | node :: rest =>
      a ← type_assert value;
      b ← type_assert node;
      if callback a b <? 0 then Done (value :: node :: rest)
      else placed ← sort_insert callback value rest; Done (node :: placed)
  end.

Fixpoint sort_loop (l : t) (callback : E -> E -> Z) (newList : list E)
  : outcome (list E) :=
  match l with
  | [] => Done newList
  | e :: next =>
      placed ← sort_insert callback e newList;
      sort_loop next callback placed
  end.

Definition Sort (l : t) (callback : E -> E -> Z) : outcome t :=
  sort_loop l callback [].

(** The loop of [Chunk]; the last chunk is pushed after it. An element
    that goes into a chunk with room is asserted, one that starts a new
    chunk ([NewLinkedList(e.Value)]) is not. *)
Fixpoint chunk_loop (l : t) (size : Z) (chunks : list (list E)) (chunk : list E)
  : outcome (list (list E)) :=
  match l with
  | [] => Done (chunks ++ [chunk])
  | e :: next =>
      if Int64.of_len chunk <? size
      then v ← type_assert e; chunk_loop next size chunks (Push chunk [v])
      else chunk_loop next size (chunks ++ [chunk]) [e]
  end.

Definition Chunk (l : t) (size : Z) : outcome (list (list E)) :=
  chunk_loop l size [] [].

(** [Each]: the callback may read and change state of its own ([S]) and
    stops the walk by returning false. *)
Fixpoint each_loop {S : Type} (l : t) (i : Z)
    (callback : Z -> E -> S -> S * bool) (s : S) : outcome S :=
  match l with
  | [] => Done s
  | e :: next =>
      v ← type_assert e;
      let '(s', continue) := callback i v s in
      if continue : bool then each_loop next (Int64.add i 1) callback s'
      else Done s'
  end.

Definition Each {S : Type} (l : t) (callback : Z -> E -> S -> S * bool) (s : S)
  : outcome S := each_loop l 0 callback s.

(** The loop of [Reverse]: each element in turn is pushed to the front
    and unlinked; [front] is what has been pushed so far. *)
Fixpoint reverse_loop (front l : list E) : list E :=
  match l with
  | [] => front
  | e :: next => reverse_loop (e :: front) next
  end.

Definition Reverse (l : t) : t := reverse_loop [] l.

Fixpoint clone_loop (l : t) (linked : t) : outcome t :=
  match l with
  | [] => Done linked
  | e :: next => v ← type_assert e; clone_loop next (Push linked [v])
  end.

Definition Clone (l : t) : outcome t := clone_loop l [].

End Defs.
Arguments t E : clear implicits.
End LinkedList.

(** ** LinkedQueue *)

Module LinkedQueue.
Section Defs.
Context {E : Type} `{GoZero E} `{GoNil E}.

Record t : Type := Mk { items : LinkedList.t E }.

Definition NewLinkedQueue (values : list E) : t :=
  {| items := LinkedList.NewLinkedList values |}.

Definition Count (q : t) : Z := LinkedList.Count (items q).
Definition IsEmpty (q : t) : bool := LinkedList.IsEmpty (items q).
Definition Clear (q : t) : t := {| items := LinkedList.Clear (items q) |}.
Definition Peek (q : t) : outcome (E * bool) := LinkedList.First (items q).

Definition Enqueue (q : t) (value : E) : t * bool :=
  ({| items := LinkedList.Push (items q) [value] |}, true).

Definition Dequeue (q : t) : outcome (t * (E * bool)) :=
  if LinkedList.IsEmpty (items q) then Done (q, (zero, false))
  else r ← LinkedList.Shift (items q); Done ({| items := r.1 |}, r.2).

Definition Remove (DeepEqual : E -> E -> bool) (q : t) (value : E)
  : outcome t :=
  l ← LinkedList.Remove DeepEqual (items q) value; Done {| items := l |}.

Definition RemoveWhere (q : t) (callback : E -> bool) : outcome t :=
  l ← LinkedList.RemoveWhere (items q) callback; Done {| items := l |}.

Definition ToArray (q : t) : outcome (list E) := LinkedList.ToArray (items q).

Definition ToJSON (c : Codec E) (q : t) := LinkedList.MarshalJSON c (items q).

Definition UnmarshalJSON (c : Codec E) (q : t) (data : list Byte.byte)
  : t * option error :=
  let '(l, err) := LinkedList.UnmarshalJSON c (items q) data in
  ({| items := l |}, err).
End Defs.
Arguments t E : clear implicits.
End LinkedQueue.

(** ** LinkedBlockingQueue *)

Module LinkedBlockingQueue.
Section Defs.
Context {E : Type} `{GoZero E} `{GoNil E}.

Record t : Type := Mk { items : LinkedList.t E; cap : Z }.

Definition NewLinkedBlockingQueue (cap : Z) : t :=
  {| items := LinkedList.NewLinkedList []; cap := cap |}.

Definition Count (q : t) : Z := LinkedList.Count (items q).
Definition IsEmpty (q : t) : bool := LinkedList.IsEmpty (items q).
Definition IsNotEmpty (q : t) : bool := LinkedList.IsNotEmpty (items q).

Definition Clear (q : t) : t :=
  {| items := LinkedList.Clear (items q); cap := cap q |}.

Definition Peek (q : t) : outcome (E * bool) :=
  if LinkedList.IsEmpty (items q) then Done (zero, false)
  else LinkedList.First (items q).

Definition put (q : t) (value : E) : t :=
  {| items := LinkedList.Push (items q) [value]; cap := cap q |}.

Definition TryEnqueue (q : t) (value : E) : t * bool :=
  if cap q =? LinkedList.Count (items q) then (q, false)
  else (put q value, true).

Definition take_head (q : t) : outcome (t * (E * bool)) :=
  r ← LinkedList.Shift (items q);
  Done ({| items := r.1; cap := cap q |}, r.2).

Definition TryDequeue (q : t) : outcome (t * (E * bool)) :=
  if LinkedList.IsEmpty (items q) then Done (q, (zero, false))
  else take_head q.

Definition Enqueue (q : t) (value : E) : outcome (t * bool) :=
  if cap q =? LinkedList.Count (items q) then Blocks
  else Done (put q value, true).

Definition Dequeue (q : t) : outcome (t * (E * bool)) :=
  if LinkedList.IsEmpty (items q) then Blocks
  else take_head q.

Definition Remove (DeepEqual : E -> E -> bool) (q : t) (value : E)
  : outcome t :=
  l ← LinkedList.Remove DeepEqual (items q) value;
  Done {| items := l; cap := cap q |}.

Definition RemoveWhere (q : t) (callback : E -> bool) : outcome t :=
  l ← LinkedList.RemoveWhere (items q) callback;
  Done {| items := l; cap := cap q |}.

Definition ToArray (q : t) : outcome (list E) := LinkedList.ToArray (items q).

Definition ToJSON (c : Codec E) (q : t) := LinkedList.MarshalJSON c (items q).

Fixpoint put_all (q : t) (values : list E) : outcome t :=
  match values with
  | [] => Done q
  | value :: rest =>
      if LinkedList.Count (items q) =? cap q then Blocks
      else put_all (put q value) rest
  end.

Definition UnmarshalJSON (c : Codec E) (q : t) (data : list Byte.byte)
  : outcome (t * option error) :=
  match Unmarshal c data with
  | inl err => Done (q, Some err)
  | inr values => q' ← put_all q values; Done (q', None)
  end.
End Defs.
Arguments t E : clear implicits.
End LinkedBlockingQueue.

(** ** PriorityQueue: a binary min-heap in a slice *)

Module PriorityQueue.
Section Defs.
Context {E : Type} `{GoZero E}.

Record t : Type := Mk {
  size : Z;
  items : list E;
  comparator : E -> E -> Z;   (* contract.Comparator[E].Compare *)
}.

Definition Compare (q : t) : E -> E -> Z := comparator q.

(** [less] and [swap] on the slice, for a given comparator. *)
Definition less (cmp : E -> E -> Z) (items : list E) (i j : Z) : outcome bool :=
  a ← index items i; b ← index items j; Done (cmp a b <? 0).

(** [items[i], items[j] = items[j], items[i]] *)
Definition swap (items : list E) (i j : Z) : outcome (list E) :=
  b ← index items j; a ← index items i;
  Done (<[Z.to_nat j := a]> (<[Z.to_nat i := b]> items)).

Definition Count (q : t) : Z := size q.
Definition IsEmpty (q : t) : bool := Count q =? 0.
Definition IsNotEmpty (q : t) : bool := negb (IsEmpty q).

Definition Clear (q : t) : t :=
  {| size := 0; items := []; comparator := comparator q |}.

Definition Peek (q : t) : outcome (E * bool) :=
  if size q =? 0 then Done (zero, false)
  else x ← index (items q) 0; Done (x, true).

(** The loop of [Enqueue]:
    [for index := q.size - 1; q.less(index, (index-1)/2); index = (index-1)/2]. *)
Fixpoint sift_up (fuel : nat) (cmp : E -> E -> Z) (items : list E) (index : Z)
  : outcome (list E) :=
  match fuel with
  | O => Diverges
  | S fuel' =>
      let parent := Int64.div (Int64.sub index 1) 2 in
      c ← less cmp items index parent;
      if c : bool then
        items' ← swap items index parent;
        sift_up fuel' cmp items' parent
      else Done items
  end.

Definition Enqueue (q : t) (value : E) : outcome (t * bool) :=
  items1 ← append (items q) value;
  let size1 := Int64.add (size q) 1 in
  items2 ← sift_up (S (length items1)) (comparator q) items1 (Int64.sub size1 1);
  Done ({| size := size1; items := items2; comparator := comparator q |}, true).

(** The loop of [Dequeue]. *)
Fixpoint sift_down (fuel : nat) (cmp : E -> E -> Z) (items : list E)
    (index lastIndex : Z) : outcome (list E) :=
  match fuel with
  | O => Diverges
  | S fuel' =>
      let leftIndex := Int64.add (Int64.mul index 2) 1 in
      if (leftIndex >? lastIndex) || (leftIndex <? 0) then Done items
      else
        let rightIndex := Int64.add leftIndex 1 in
        r ← (if rightIndex <=? lastIndex
             then less cmp items rightIndex leftIndex
             else Done false);
        let swapIndex := if r : bool then rightIndex else leftIndex in
        c ← less cmp items swapIndex index;
        if negb c then Done items
        else
          items' ← swap items swapIndex index;
          sift_down fuel' cmp items' swapIndex lastIndex
  end.

Definition Dequeue (q : t) : outcome (t * (E * bool)) :=
  if size q =? 0 then Done (q, (zero, false))
  else
    value ← index (items q) 0;
    items1 ← swap (items q) 0 (Int64.sub (size q) 1);
    items2 ← slice_to items1 (Int64.sub (size q) 1);
    let size1 := Int64.sub (size q) 1 in
    let lastIndex := Int64.sub size1 1 in
    items3 ← sift_down (S (length items2)) (comparator q) items2 0 lastIndex;
    Done ({| size := size1; items := items3; comparator := comparator q |},
          (value, true)).

(** [slices.DeleteFunc] of the standard library: the elements the
    callback rejects, in their order. *)
Fixpoint DeleteFunc (s : list E) (del : E -> bool) : list E :=
  match s with
  | [] => []
  | x :: rest => if del x then DeleteFunc rest del else x :: DeleteFunc rest del
  end.

Definition RemoveWhere (q : t) (callback : E -> bool) : t :=
  let items' := DeleteFunc (items q) callback in
  {| size := Int64.of_len items'; items := items'; comparator := comparator q |}.

Definition Remove (DeepEqual : E -> E -> bool) (q : t) (value : E) : t :=
  RemoveWhere q (fun e => DeepEqual e value).

Definition ToArray (q : t) : list E := items q.

Definition ToJSON (c : Codec E) (q : t) : error + list Byte.byte :=
  Marshal c (ToArray q).

Definition MarshalJSON (c : Codec E) (q : t) := ToJSON c q.

(** [for _, value := range values { queue.Enqueue(value) }] *)
Fixpoint enqueue_all (q : t) (values : list E) : outcome t :=
  match values with
  | [] => Done q
  | value :: rest => r ← Enqueue q value; enqueue_all r.1 rest
  end.

Definition NewPriorityQueue (comparator : E -> E -> Z) (values : list E)
  : outcome t :=
  enqueue_all {| size := 0; items := []; comparator := comparator |} values.

(** On a decoding error the method returns [nil]. *)
Definition UnmarshalJSON (c : Codec E) (q : t) (data : list Byte.byte)
  : outcome (t * option error) :=
  match Unmarshal c data with
  | inl err => Done (q, None)
  | inr items => q' ← enqueue_all (Clear q) items; Done (q', None)
  end.
End Defs.
Arguments t E : clear implicits.
End PriorityQueue.

(** ** PriorityBlockingQueue *)

Module PriorityBlockingQueue.
Section Defs.
Context {E : Type} `{GoZero E}.

Record t : Type := Mk { items : PriorityQueue.t E; cap : Z }.

Definition NewPriorityBlockingQueue (comparator : E -> E -> Z) (cap : Z)
  : outcome t :=
  pq ← PriorityQueue.NewPriorityQueue comparator [];
  Done {| items := pq; cap := cap |}.

Definition Count (q : t) : Z := PriorityQueue.Count (items q).
Definition IsEmpty (q : t) : bool := PriorityQueue.IsEmpty (items q).

Definition Clear (q : t) : t :=
  {| items := PriorityQueue.Clear (items q); cap := cap q |}.

Definition Peek (q : t) : outcome (E * bool) := PriorityQueue.Peek (items q).

Definition put (q : t) (value : E) : outcome (t * bool) :=
  r ← PriorityQueue.Enqueue (items q) value;
  Done ({| items := r.1; cap := cap q |}, r.2).

Definition TryEnqueue (q : t) (value : E) : outcome (t * bool) :=
  if cap q =? PriorityQueue.Count (items q) then Done (q, false)
  else put q value.

Definition take_root (q : t) : outcome (t * (E * bool)) :=
  r ← PriorityQueue.Dequeue (items q);
  Done ({| items := r.1; cap := cap q |}, r.2).

Definition TryDequeue (q : t) : outcome (t * (E * bool)) :=
  if PriorityQueue.Count (items q) =? 0 then Done (q, (zero, false))
  else take_root q.

Definition Enqueue (q : t) (value : E) : outcome (t * bool) :=
  if cap q =? PriorityQueue.Count (items q) then Blocks
  else put q value.

Definition Dequeue (q : t) : outcome (t * (E * bool)) :=
  if PriorityQueue.IsEmpty (items q) then Blocks
  else take_root q.

Definition Remove (DeepEqual : E -> E -> bool) (q : t) (value : E) : t :=
  {| items := PriorityQueue.Remove DeepEqual (items q) value; cap := cap q |}.

Definition RemoveWhere (q : t) (callback : E -> bool) : t :=
  {| items := PriorityQueue.RemoveWhere (items q) callback; cap := cap q |}.

Definition ToArray (q : t) : list E := PriorityQueue.ToArray (items q).

Definition ToJSON (c : Codec E) (q : t) := PriorityQueue.ToJSON c (items q).

Fixpoint put_all (q : t) (values : list E) : outcome t :=
  match values with
  | [] => Done q
  | value :: rest =>
      if cap q =? PriorityQueue.Count (items q) then Blocks
      else r ← put q value; put_all r.1 rest
  end.

Definition UnmarshalJSON (c : Codec E) (q : t) (data : list Byte.byte)
  : outcome (t * option error) :=
  match Unmarshal c data with
  | inl err => Done (q, Some err)
  | inr values => q' ← put_all (Clear q) values; Done (q', None)
  end.
End Defs.
Arguments t E : clear implicits.
End PriorityBlockingQueue.

(** * Specification vocabulary *)

(** The stored size of an array-backed queue is the length of its slice,
    and that length is an [int]. *)
Definition bq_inv {E} (q : BlockingQueue.t E) : Prop :=
  BlockingQueue.size q = Z.of_nat (length (BlockingQueue.items q))
  ∧ Z.of_nat (length (BlockingQueue.items q)) <= Int64.max_int.

(** The length of a linked list is an [int]. *)
Definition ll_inv {E} (l : LinkedList.t E) : Prop :=
  Z.of_nat (length l) <= Int64.max_int.

(** The list holds the nil of an interface element type. *)
Definition holds_nil {E} `{GoNil E} (l : list E) : bool := existsb is_nil l.

(** The same for the heap's slice. *)
Definition pq_inv {E} (q : PriorityQueue.t E) : Prop :=
  PriorityQueue.size q = Z.of_nat (length (PriorityQueue.items q))
  ∧ Z.of_nat (length (PriorityQueue.items q)) <= Int64.max_int.

(** *** Orderings and heaps *)

(** The numeric ascending comparator of the tests and the README. *)
Definition numeric_ascending (a b : Z) : Z :=
  if a <? b then -1 else if a >? b then 1 else 0.

Section HeapVocabulary.
Context {E : Type} (cmp : E → E → Z).

(** [a] is not after [b]: the comparator does not put [b] before [a]. *)
Definition not_after (a b : E) : Prop := ¬ cmp b a < 0.

(** What a three-way comparator of an ordering satisfies: "sorts
    before" is a strict weak order. *)
Class Ordering : Prop := {
  cmp_irrefl : ∀ a, ¬ cmp a a < 0;
  cmp_trans : ∀ a b c, cmp a b < 0 → cmp b c < 0 → cmp a c < 0;
  cmp_neg_trans : ∀ a b c, ¬ cmp a b < 0 → ¬ cmp b c < 0 → ¬ cmp a c < 0;
}.

(** [c] is a child of [p] in the implicit tree of the slice. *)
Definition child (p c : nat) : Prop := (c = 2 * p + 1 ∨ c = 2 * p + 2)%nat.

(** No element sorts before its parent. *)
Definition heap_ordered (s : list E) : Prop :=
  ∀ p c x y, child p c → s !! p = Some x → s !! c = Some y → not_after x y.

(** Heap order except that [s[k]] may sort before its parent; the
    children of [k] already respect the parent of [k]. *)
Definition up_inv (s : list E) (k : nat) : Prop :=
  (∀ p c x y, child p c → c ≠ k →
     s !! p = Some x → s !! c = Some y → not_after x y)
  ∧ (∀ g c x y, child g k → child k c →
     s !! g = Some x → s !! c = Some y → not_after x y).

(** Heap order except that the children of [k] may sort before
    [s[k]]; they already respect the parent of [k]. *)
Definition down_inv (s : list E) (k : nat) : Prop :=
  (∀ p c x y, child p c → p ≠ k →
     s !! p = Some x → s !! c = Some y → not_after x y)
  ∧ (∀ g c x y, child g k → child k c →
     s !! g = Some x → s !! c = Some y → not_after x y).

(** [x] is minimal among the elements of [s]. *)
Definition minimal_in (x : E) (s : list E) : Prop :=
  x ∈ s ∧ ∀ y, y ∈ s → not_after x y.
End HeapVocabulary.

(** A client that calls [Dequeue] [n] times and collects the values. *)
Fixpoint dequeue_n {E} `{GoZero E} (n : nat) (q : PriorityQueue.t E)
  : outcome (PriorityQueue.t E * list E) :=
  match n with
  | O => Done (q, [])
  | S n' =>
      r ← PriorityQueue.Dequeue q;
      rest ← dequeue_n n' r.1;
      Done (rest.1, r.2.1 :: rest.2)
  end.

(** *** Clients of the FIFO queues

    One goroutine that calls [Enqueue] for each value in turn, and one
    that calls [Dequeue] [n] times and collects what it gets. *)

Module Fifo.
Section Clients.
Context {E : Type} `{GoZero E} `{GoNil E}.

Fixpoint array_enqueue_all (q : BlockingQueue.t E) (values : list E)
  : outcome (BlockingQueue.t E) :=
  match values with
  | [] => Done q
  | v :: rest => r ← BlockingQueue.Enqueue q v; array_enqueue_all r.1 rest
  end.

Fixpoint array_dequeue_n (n : nat) (q : BlockingQueue.t E)
  : outcome (BlockingQueue.t E * list E) :=
  match n with
  | O => Done (q, [])
  | S n' =>
      r ← BlockingQueue.Dequeue q;
      rest ← array_dequeue_n n' r.1;
      Done (rest.1, r.2.1 :: rest.2)
  end.

Fixpoint linked_enqueue_all (q : LinkedBlockingQueue.t E) (values : list E)
  : outcome (LinkedBlockingQueue.t E) :=
  match values with
  | [] => Done q
  | v :: rest =>
      r ← LinkedBlockingQueue.Enqueue q v; linked_enqueue_all r.1 rest
  end.

Fixpoint linked_dequeue_n (n : nat) (q : LinkedBlockingQueue.t E)
  : outcome (LinkedBlockingQueue.t E * list E) :=
  match n with
  | O => Done (q, [])
  | S n' =>
      r ← LinkedBlockingQueue.Dequeue q;
      rest ← linked_dequeue_n n' r.1;
      Done (rest.1, r.2.1 :: rest.2)
  end.

Fixpoint plain_enqueue_all (q : LinkedQueue.t E) (values : list E)
  : LinkedQueue.t E :=
  match values with
  | [] => q
  | v :: rest => plain_enqueue_all (LinkedQueue.Enqueue q v).1 rest
  end.

(** The results of the dequeues, each with its flag. *)
Fixpoint plain_dequeue_n (n : nat) (q : LinkedQueue.t E)
  : outcome (LinkedQueue.t E * list (E * bool)) :=
  match n with
  | O => Done (q, [])
  | S n' =>
      r ← LinkedQueue.Dequeue q;
      rest ← plain_dequeue_n n' r.1;
      Done (rest.1, r.2 :: rest.2)
  end.
End Clients.
End Fifo.

(** *** Removal, in the words of the specification

    "Removes the first matching element": the first element equal to
    [value] goes, later ones stay. *)
Fixpoint remove_first {E} (DeepEqual : E → E → bool) (value : E) (s : list E)
  : list E :=
  match s with
  | [] => []
  | x :: rest =>
      if DeepEqual x value then rest
      else x :: remove_first DeepEqual value rest
  end.

(** *** A codec to run the JSON methods on

    Arrays of one-digit numbers, written as JSON writes them:
    [[1,2,3]]. A number outside 0..9 does not serialize. *)
Module Digits.
Definition digit_byte (z : Z) : option Byte.byte :=
  if (0 <=? z) && (z <=? 9) then Byte.of_N (Z.to_N (48 + z)) else None.

Definition byte_digit (b : Byte.byte) : option Z :=
  let n := Z.of_N (Byte.to_N b) in
  if (48 <=? n) && (n <=? 57) then Some (n - 48) else None.

Definition open_bracket : Byte.byte := Byte.x5b.
Definition close_bracket : Byte.byte := Byte.x5d.
Definition comma : Byte.byte := Byte.x2c.

Fixpoint encode_elems (xs : list Z) : option (list Byte.byte) :=
  match xs with
  | [] => Some [close_bracket]
  | x :: rest =>
      d ← digit_byte x;
      t ← encode_elems rest;
      Some (match rest with
            | [] => d :: t
            | _ :: _ => d :: comma :: t
            end)
  end.

Definition marshal (xs : list Z) : error + list Byte.byte :=
  match encode_elems xs with
  | Some t => inr (open_bracket :: t)
  | None => inl (JSONError 0)
  end.

(** The elements after the opening bracket or a comma. *)
Fixpoint decode_elems (bs : list Byte.byte) : option (list Z) :=
  match bs with
  | d :: sep :: rest =>
      x ← byte_digit d;
      if Byte.eqb sep close_bracket then
        match rest with [] => Some [x] | _ :: _ => None end
      else if Byte.eqb sep comma then
        xs ← decode_elems rest; Some (x :: xs)
      else None
  | _ => None
  end.

Definition unmarshal (bs : list Byte.byte) : error + list Z :=
  match bs with
  | b :: rest =>
      if Byte.eqb b open_bracket then
        match rest with
        | [c] => if Byte.eqb c close_bracket then inr []
                 else inl (JSONError 1)
        | _ =>
            match decode_elems rest with
            | Some xs => inr xs
            | None => inl (JSONError 1)
            end
        end
      else inl (JSONError 1)
  | [] => inl (JSONError 1)
  end.

Definition codec : Codec Z := MkCodec Z marshal unmarshal.

(** Some inputs: [[1,2]], and the cut-off [[1,]. *)
Definition one_two : list Byte.byte :=
  [Byte.x5b; Byte.x31; Byte.x2c; Byte.x32; Byte.x5d].
Definition cut_off : list Byte.byte := [Byte.x5b; Byte.x31; Byte.x2c].
End Digits.

(** What decodes is what was encoded. *)
Definition lossless {E} (c : Codec E) : Prop :=
  ∀ xs data, Marshal c xs = inr data → Unmarshal c data = inr xs.

(** The same of one slice: [json.Unmarshal] gives back the slice [xs]
    that [json.Marshal] wrote. *)
Definition decodes_back {E} (c : Codec E) (xs : list E) : Prop :=
  ∀ data, Marshal c xs = inr data → Unmarshal c data = inr xs.

(** *** encoding/json on a slice of [any]

    The element type [any], with the values a JSON array of one-digit
    numbers and nulls comes from and goes to: nil, an [int], and a
    [float64] with a whole value. [json.Marshal] writes nil as [null],
    and an int and a float64 of the same value alike; [json.Unmarshal]
    into a [[]any] gives nil for [null] and a float64 for every number.
    A number outside 0..9 does not serialize. *)
Module AnyJSON.
Inductive any : Type :=
| Nil
| Int (n : Z)
| Float64 (n : Z).

#[global] Instance any_zero : GoZero any := Nil.

#[global] Instance any_nil : GoNil any := fun v =>
  match v with
  | Nil => true
  | _ => false
  end.

Definition null : list Byte.byte := [Byte.x6e; Byte.x75; Byte.x6c; Byte.x6c].

Definition encode_value (v : any) : option (list Byte.byte) :=
  match v with
  | Nil => Some null
  | Int n | Float64 n => d ← Digits.digit_byte n; Some [d]
  end.

Fixpoint encode_elems (xs : list any) : option (list Byte.byte) :=
  match xs with
  | [] => Some [Digits.close_bracket]
  | x :: rest =>
      e ← encode_value x;
      t ← encode_elems rest;
      Some (match rest with
            | [] => e ++ t
            | _ :: _ => e ++ Digits.comma :: t
            end)
  end.

Definition marshal (xs : list any) : error + list Byte.byte :=
  match encode_elems xs with
  | Some t => inr (Digits.open_bracket :: t)
  | None => inl (JSONError 0)
  end.

(** After a value: the closing bracket and nothing more, or a comma and
    the values [more] that follow it. *)
Definition after_value (v : any) (sep : Byte.byte) (rest : list Byte.byte)
    (more : option (list any)) : option (list any) :=
  if Byte.eqb sep Digits.close_bracket then
    match rest with [] => Some [v] | _ :: _ => None end
  else if Byte.eqb sep Digits.comma then
    xs ← more; Some (v :: xs)
  else None.

Fixpoint decode_elems (bs : list Byte.byte) : option (list any) :=
  match bs with
  | b :: tail =>
      if Byte.eqb b Byte.x6e then
        match tail with
        | u :: l1 :: l2 :: sep :: rest =>
            if Byte.eqb u Byte.x75 && Byte.eqb l1 Byte.x6c && Byte.eqb l2 Byte.x6c
            then after_value Nil sep rest (decode_elems rest)
            else None
        | _ => None
        end
      else
        match tail with
        | sep :: rest =>
            x ← Digits.byte_digit b;
            after_value (Float64 x) sep rest (decode_elems rest)
        | [] => None
        end
  | [] => None
  end.

Definition unmarshal (bs : list Byte.byte) : error + list any :=
  match bs with
  | b :: rest =>
      if Byte.eqb b Digits.open_bracket then
        match rest with
        | [c] => if Byte.eqb c Digits.close_bracket then inr []
                 else inl (JSONError 1)
        | _ =>
            match decode_elems rest with
            | Some xs => inr xs
            | None => inl (JSONError 1)
            end
        end
      else inl (JSONError 1)
  | [] => inl (JSONError 1)
  end.

Definition codec : Codec any := MkCodec any marshal unmarshal.

(** The array [[1]]. *)
Definition one : list Byte.byte := [Byte.x5b; Byte.x31; Byte.x5d].
End AnyJSON.

(** *** Histories of calls

    The mutating methods as data, to speak about every sequence of
    calls on a queue; what a call returns besides the queue is dropped. *)
Module ArrayHistory.
Section Ops.
Context {E : Type} `{GoZero E}.

Inductive op : Type :=
| TryEnqueue (v : E)
| TryDequeue
| Enqueue (v : E)
| Dequeue
| Remove (v : E)
| RemoveWhere (callback : E → bool)
| Clear
| UnmarshalJSON (data : list Byte.byte).

Definition call (DeepEqual : E → E → bool) (c : Codec E)
    (q : BlockingQueue.t E) (o : op) : outcome (BlockingQueue.t E) :=
  match o with
  | TryEnqueue v => r ← BlockingQueue.TryEnqueue q v; Done r.1
  | TryDequeue => r ← BlockingQueue.TryDequeue q; Done r.1
  | Enqueue v => r ← BlockingQueue.Enqueue q v; Done r.1
  | Dequeue => r ← BlockingQueue.Dequeue q; Done r.1
  | Remove v => Done (BlockingQueue.Remove DeepEqual q v)
  | RemoveWhere f => Done (BlockingQueue.RemoveWhere q f)
  | Clear => Done (BlockingQueue.Clear q)
  | UnmarshalJSON data => r ← BlockingQueue.UnmarshalJSON c q data; Done r.1
  end.

Fixpoint run (DeepEqual : E → E → bool) (c : Codec E)
    (q : BlockingQueue.t E) (ops : list op) : outcome (BlockingQueue.t E) :=
  match ops with
  | [] => Done q
  | o :: rest => q' ← call DeepEqual c q o; run DeepEqual c q' rest
  end.
End Ops.
Arguments op E : clear implicits.
End ArrayHistory.

(** PriorityQueue has no Try methods. *)
Module HeapHistory.
Section Ops.
Context {E : Type} `{GoZero E}.

Inductive op : Type :=
| Enqueue (v : E)
| Dequeue
| Remove (v : E)
| RemoveWhere (callback : E → bool)
| Clear
| UnmarshalJSON (data : list Byte.byte).

Definition call (DeepEqual : E → E → bool) (c : Codec E)
    (q : PriorityQueue.t E) (o : op) : outcome (PriorityQueue.t E) :=
  match o with
  | Enqueue v => r ← PriorityQueue.Enqueue q v; Done r.1
  | Dequeue => r ← PriorityQueue.Dequeue q; Done r.1
  | Remove v => Done (PriorityQueue.Remove DeepEqual q v)
  | RemoveWhere f => Done (PriorityQueue.RemoveWhere q f)
  | Clear => Done (PriorityQueue.Clear q)
  | UnmarshalJSON data => r ← PriorityQueue.UnmarshalJSON c q data; Done r.1
  end.

Fixpoint run (DeepEqual : E → E → bool) (c : Codec E)
    (q : PriorityQueue.t E) (ops : list op) : outcome (PriorityQueue.t E) :=
  match ops with
  | [] => Done q
  | o :: rest => q' ← call DeepEqual c q o; run DeepEqual c q' rest
  end.
End Ops.
Arguments op E : clear implicits.
End HeapHistory.

(** *** Sizes within the capacity

    "0 ≤ size ≤ capacity": the state of a bounded queue between calls. *)
Definition array_bounded {E} (q : BlockingQueue.t E) : Prop :=
  bq_inv q ∧ BlockingQueue.size q <= BlockingQueue.cap q <= Int64.max_int.

Definition linked_bounded {E} (q : LinkedBlockingQueue.t E) : Prop :=
  Z.of_nat (length (LinkedBlockingQueue.items q)) <= LinkedBlockingQueue.cap q
  ∧ LinkedBlockingQueue.cap q <= Int64.max_int.

Definition heap_bounded {E} (q : PriorityBlockingQueue.t E) : Prop :=
  pq_inv (PriorityBlockingQueue.items q)
  ∧ PriorityQueue.size (PriorityBlockingQueue.items q)
    <= PriorityBlockingQueue.cap q <= Int64.max_int.

(** The comparator never puts an element before itself. *)
Definition irreflexive {E} (cmp : E → E → Z) : Prop := ∀ a, ¬ cmp a a < 0.

(** *** Histories that leave the inside of the heap alone *)
Definition keeps_heap {E} (o : HeapHistory.op E) : bool :=
  match o with
  | HeapHistory.Remove _ | HeapHistory.RemoveWhere _ => false
  | _ => true
  end.

(** *** Producers and consumers

    What the three bounded blocking queues have in common, and a run of
    insertions and removals that keeps a log of the values the queue
    accepted and of the values it handed out. *)
Module Transfer.
Class Queue (Q E : Type) : Type := {
  try_enqueue : Q → E → outcome (Q * bool);
  enqueue : Q → E → outcome (Q * bool);
  try_dequeue : Q → outcome (Q * (E * bool));
  dequeue : Q → outcome (Q * (E * bool));
  contents : Q → list E;
}.

#[global] Instance array_queue {E} `{GoZero E} : Queue (BlockingQueue.t E) E := {|
  try_enqueue := BlockingQueue.TryEnqueue;
  enqueue := BlockingQueue.Enqueue;
  try_dequeue := BlockingQueue.TryDequeue;
  dequeue := BlockingQueue.Dequeue;
  contents := BlockingQueue.items;
|}.

#[global] Instance linked_queue {E} `{GoZero E} `{GoNil E}
  : Queue (LinkedBlockingQueue.t E) E := {|
  try_enqueue q v := Done (LinkedBlockingQueue.TryEnqueue q v);
  enqueue := LinkedBlockingQueue.Enqueue;
  try_dequeue := LinkedBlockingQueue.TryDequeue;
  dequeue := LinkedBlockingQueue.Dequeue;
  contents := LinkedBlockingQueue.items;
|}.

#[global] Instance heap_queue {E} `{GoZero E}
  : Queue (PriorityBlockingQueue.t E) E := {|
  try_enqueue := PriorityBlockingQueue.TryEnqueue;
  enqueue := PriorityBlockingQueue.Enqueue;
  try_dequeue := PriorityBlockingQueue.TryDequeue;
  dequeue := PriorityBlockingQueue.Dequeue;
  contents q := PriorityQueue.items (PriorityBlockingQueue.items q);
|}.

Inductive op (E : Type) : Type :=
| TryPut (v : E)
| Put (v : E)
| TryTake
| Take.
Arguments TryPut {E} v.
Arguments Put {E} v.
Arguments TryTake {E}.
Arguments Take {E}.

Record log (E : Type) : Type := Log { accepted : list E; delivered : list E }.
Arguments Log {E} _ _.
Arguments accepted {E} _.
Arguments delivered {E} _.

Definition note_put {E} (l : log E) (v : E) (ok : bool) : log E :=
  if ok then Log (accepted l ++ [v]) (delivered l) else l.

Definition note_take {E} (l : log E) (r : E * bool) : log E :=
  if r.2 then Log (accepted l) (delivered l ++ [r.1]) else l.

Definition step {Q E} `{Queue Q E} (q : Q) (l : log E) (o : op E)
  : outcome (Q * log E) :=
  match o with
  | TryPut v => r ← try_enqueue q v; Done (r.1, note_put l v r.2)
  | Put v => r ← enqueue q v; Done (r.1, note_put l v r.2)
  | TryTake => r ← try_dequeue q; Done (r.1, note_take l r.2)
  | Take => r ← dequeue q; Done (r.1, note_take l r.2)
  end.

Fixpoint play {Q E} `{Queue Q E} (q : Q) (l : log E) (ops : list (op E))
  : outcome (Q * log E) :=
  match ops with
  | [] => Done (q, l)
  | o :: rest => r ← step q l o; play r.1 r.2 rest
  end.
End Transfer.

(** A heap under a given comparator, with its size in step. *)
Definition heap_state {E} (cmp : E → E → Z) (q : PriorityQueue.t E) : Prop :=
  pq_inv q
  ∧ PriorityQueue.comparator q = cmp
  ∧ heap_ordered cmp (PriorityQueue.items q).

(** A bounded array queue between calls: the size within the capacity
    it was made with. *)
Definition within {E} (cap0 : Z) (q : BlockingQueue.t E) : Prop :=
  bq_inv q ∧ BlockingQueue.size q <= BlockingQueue.cap q
  ∧ BlockingQueue.cap q = cap0.

(** * Properties *)

Ltac Zify.zify_post_hook ::= Z.to_euclidean_division_equations.

(** ** Machine integers and slices *)

Ltac int64 :=
  unfold Int64.add, Int64.sub, Int64.mul, Int64.div, Int64.of_len, Int64.wrap,
    Int64.modulus, Int64.in_range, Int64.min_int, Int64.max_int in *;
  lia.

Lemma of_len_fits {A} (s : list A) :
  Z.of_nat (length s) <= Int64.max_int → Int64.of_len s = Z.of_nat (length s).
Proof. intros. int64. Qed.

Lemma bind_Done {A B} (m : outcome A) (k : A → outcome B) b :
  (m ≫= k) = Done b ↔ ∃ a, m = Done a ∧ k a = Done b.
Proof.
  destruct m; simpl; split; try (intros [? [? ?]]); try discriminate; eauto.
  congruence.
Qed.

Lemma Done_bind {A B} (a : A) (k : A → outcome B) : (Done a ≫= k) = k a.
Proof. reflexivity. Qed.

Section SliceFacts.
Context {E : Type}.
Implicit Types (s : list E) (x : E).

Lemma index_lookup s i x :
  s !! i = Some x → index s (Z.of_nat i) = Done x.
Proof.
  intros Hx. pose proof (lookup_lt_Some _ _ _ Hx).
  unfold index, in_bounds.
  rewrite Nat2Z.id, Hx.
  destruct (0 <=? Z.of_nat i) eqn:?, (Z.of_nat i <? Z.of_nat (length s)) eqn:?;
    simpl; auto; lia.
Qed.

Lemma index_head x s : index (x :: s) 0 = Done x.
Proof. apply (index_lookup (x :: s) 0%nat). done. Qed.

Lemma slice_from_tail x s : slice_from (x :: s) 1 = Done s.
Proof.
  unfold slice_from.
  assert ((1 <=? Z.of_nat (length (x :: s))) = true) as Hle
    by (apply Z.leb_le; rewrite length_cons; lia).
  by rewrite Hle.
Qed.

Lemma append_fits s x :
  Z.of_nat (length s) < Int64.max_int → append s x = Done (s ++ [x]).
Proof. intros. unfold append. destruct (_ <? _) eqn:?; [done | lia]. Qed.

Lemma append_Done s x s' :
  append s x = Done s' → s' = s ++ [x] ∧ Z.of_nat (length s) < Int64.max_int.
Proof. unfold append. destruct (_ <? _) eqn:?; intros [=]. split; [done | lia]. Qed.

(** The filtering loop of Remove/RemoveWhere is [filter] on the negated
    callback, appended to what was kept so far. *)
Lemma keep_unless_filter (callback : E → bool) src items :
  keep_unless callback src items
  = items ++ filter (λ x, callback x = false) src.
Proof.
  revert items. induction src as [|a src IH]; intros items; simpl.
  - by rewrite app_nil_r.
  - rewrite IH, filter_cons. destruct (callback a) eqn:Ha.
    + rewrite decide_False by congruence. done.
    + rewrite decide_True by done. by rewrite <- app_assoc.
Qed.

Lemma length_keep_unless (callback : E → bool) src :
  (length (keep_unless callback src []) ≤ length src)%nat.
Proof. rewrite keep_unless_filter. simpl. apply length_filter. Qed.
End SliceFacts.

(** ** LinkedList *)

Section LinkedListFacts.
Context {E : Type} `{GoZero E} `{GoNil E}.
Implicit Types (l : LinkedList.t E).

Lemma Push_app l values : LinkedList.Push l values = l ++ values.
Proof.
  revert l. induction values as [|v values IH]; intros l; simpl.
  - by rewrite app_nil_r.
  - by rewrite IH, <- app_assoc.
Qed.

Lemma Count_length l : ll_inv l → LinkedList.Count l = Z.of_nat (length l).
Proof. apply of_len_fits. Qed.

Lemma IsEmpty_nil l : ll_inv l → LinkedList.IsEmpty l = true ↔ l = [].
Proof.
  intros Hl. unfold LinkedList.IsEmpty. rewrite (Count_length _ Hl).
  destruct l; simpl; split; try done; lia.
Qed.

(** The type assertion, by cases. *)
Lemma type_assert_ok (v : E) : is_nil v = false → type_assert v = Done v.
Proof. unfold type_assert. by intros ->. Qed.

Lemma type_assert_nil (v : E) : is_nil v = true → type_assert v = Panics.
Proof. unfold type_assert. by intros ->. Qed.

Lemma type_assert_Done (v w : E) :
  type_assert v = Done w ↔ is_nil v = false ∧ w = v.
Proof.
  unfold type_assert. destruct (is_nil v); split.
  - discriminate.
  - by intros [? _].
  - by intros [= ->].
  - by intros [_ ->].
Qed.

Lemma holds_nil_app (s1 s2 : list E) :
  holds_nil (s1 ++ s2) = holds_nil s1 || holds_nil s2.
Proof. apply existsb_app. Qed.

Lemma holds_nil_false (s : list E) :
  holds_nil s = false ↔ ∀ x, x ∈ s → is_nil x = false.
Proof.
  induction s as [|a s IH]; simpl.
  - split; [|done]. intros _ x Hx. by apply elem_of_nil in Hx.
  - rewrite orb_false_iff, IH. split.
    + intros [Ha Hs] x Hx. apply elem_of_cons in Hx as [->|Hx]; auto.
    + intros Hall. split; [apply Hall; by left|].
      intros x Hx. apply Hall. by right.
Qed.

Lemma holds_nil_true (s : list E) :
  holds_nil s = true ↔ ∃ x, x ∈ s ∧ is_nil x = true.
Proof.
  unfold holds_nil. rewrite existsb_exists. split.
  - intros (x & Hx & Hnil). exists x. split; [by apply list_elem_of_In | done].
  - intros (x & Hx & Hnil). exists x.
    split; [by apply list_elem_of_In in Hx | done].
Qed.

Lemma holds_nil_rev (s : list E) : holds_nil (rev s) = holds_nil s.
Proof.
  induction s as [|a s IH]; simpl; [done|].
  rewrite holds_nil_app, IH. simpl. rewrite orb_false_r. apply orb_comm.
Qed.

Lemma holds_nil_filter (P : E → Prop) `{∀ x, Decision (P x)} (s : list E) :
  holds_nil s = false → holds_nil (filter P s) = false.
Proof.
  rewrite !holds_nil_false. intros Hs x Hx.
  apply list_elem_of_filter in Hx as [_ Hx]. auto.
Qed.

Lemma First_cons x l :
  LinkedList.First (x :: l) = if is_nil x then Panics else Done (x, true).
Proof. simpl. unfold type_assert. by destruct (is_nil x). Qed.

Lemma Shift_cons x l :
  LinkedList.Shift (x :: l) = if is_nil x then Panics else Done (l, (x, true)).
Proof. simpl. unfold type_assert. by destruct (is_nil x). Qed.

Lemma to_array_loop_spec l : ∀ items,
  LinkedList.to_array_loop l items
  = if holds_nil l then Panics else Done (items ++ l).
Proof.
  induction l as [|e l IH]; intros items; simpl.
  - by rewrite app_nil_r.
  - unfold type_assert. destruct (is_nil e); simpl; [done|].
    rewrite IH, <- app_assoc. done.
Qed.

(** ToArray copies the list, unless an element fails the assertion. *)
Lemma ToArray_spec l :
  LinkedList.ToArray l = if holds_nil l then Panics else Done l.
Proof. unfold LinkedList.ToArray. by rewrite to_array_loop_spec. Qed.

Lemma RemoveWhere_filter l (callback : E → bool) :
  LinkedList.RemoveWhere l callback
  = if holds_nil l then Panics else Done (filter (λ x, callback x = false) l).
Proof.
  induction l as [|a l IH]; simpl; [done|].
  unfold type_assert. destruct (is_nil a); simpl; [done|].
  rewrite IH. destruct (holds_nil l); simpl; [done|].
  rewrite filter_cons. destruct (callback a) eqn:Ha.
  - by rewrite decide_False by congruence.
  - by rewrite decide_True by done.
Qed.
End LinkedListFacts.

(** ** Non-blocking insertion *)

(** C1. TryEnqueue on BlockingQueue and LinkedBlockingQueue, for any
    capacity (0 included): it returns false with the queue as it was
    exactly when the size equals the capacity; otherwise it appends the
    value at the tail, adds one to the size and returns true. *)
Theorem TryEnqueue_full_iff {E} `{GoZero E}
    (q : BlockingQueue.t E) (lq : LinkedBlockingQueue.t E) (v : E) :
  bq_inv q →
  ll_inv (LinkedBlockingQueue.items lq) →
  (* array-backed *)
  (∀ q', BlockingQueue.TryEnqueue q v = Done (q', false)
         ↔ BlockingQueue.size q = BlockingQueue.cap q ∧ q' = q)
  ∧ (BlockingQueue.size q ≠ BlockingQueue.cap q →
     Z.of_nat (length (BlockingQueue.items q)) < Int64.max_int →
     BlockingQueue.TryEnqueue q v
     = Done (BlockingQueue.Mk (BlockingQueue.items q ++ [v])
                              (BlockingQueue.size q + 1)
                              (BlockingQueue.cap q), true))
  (* linked *)
  ∧ (∀ lq', LinkedBlockingQueue.TryEnqueue lq v = (lq', false)
            ↔ LinkedBlockingQueue.Count lq = LinkedBlockingQueue.cap lq ∧ lq' = lq)
  ∧ (LinkedBlockingQueue.Count lq ≠ LinkedBlockingQueue.cap lq →
     LinkedBlockingQueue.TryEnqueue lq v
     = (LinkedBlockingQueue.Mk (LinkedBlockingQueue.items lq ++ [v])
                               (LinkedBlockingQueue.cap lq), true)
     ∧ (Z.of_nat (length (LinkedBlockingQueue.items lq)) < Int64.max_int →
        LinkedBlockingQueue.Count
          (LinkedBlockingQueue.TryEnqueue lq v).1
        = LinkedBlockingQueue.Count lq + 1)).
Proof.
  intros [Hsize Hlen] Hl. split; [|split; [|split]].
  - intros q'. unfold BlockingQueue.TryEnqueue, BlockingQueue.put.
    destruct (Z.eqb_spec (BlockingQueue.cap q) (BlockingQueue.size q)) as [Heq|Hne].
    + split; [intros [=]; done | intros [_ ->]; done].
    + split; [|intros [? _]; congruence].
      intros Hr. apply bind_Done in Hr as (? & _ & [=]).
  - intros Hne Hroom. unfold BlockingQueue.TryEnqueue, BlockingQueue.put.
    destruct (Z.eqb_spec (BlockingQueue.cap q) (BlockingQueue.size q)); [congruence|].
    rewrite append_fits by done. simpl. do 3 f_equal. int64.
  - intros lq'. unfold LinkedBlockingQueue.TryEnqueue, LinkedBlockingQueue.Count.
    destruct (Z.eqb_spec (LinkedBlockingQueue.cap lq)
                (LinkedList.Count (LinkedBlockingQueue.items lq))) as [Heq|Hne].
    + split; [intros [=]; done | intros [_ ->]; done].
    + split; [intros [=] | intros [? _]; congruence].
  - intros Hne.
    unfold LinkedBlockingQueue.TryEnqueue, LinkedBlockingQueue.Count in *.
    destruct (Z.eqb_spec (LinkedBlockingQueue.cap lq)
                (LinkedList.Count (LinkedBlockingQueue.items lq))); [congruence|].
    unfold LinkedBlockingQueue.put. rewrite Push_app. split; [done|].
    intros Hroom. simpl. unfold LinkedList.Count, ll_inv in *.
    rewrite !of_len_fits; rewrite ?length_app; simpl; int64.
Qed.

(** A queue of capacity 0 is full from the start: both variants refuse. *)
Lemma TryEnqueue_full_iff_witness :
  BlockingQueue.TryEnqueue (BlockingQueue.NewBlockingQueue 0) 7
  = Done (BlockingQueue.NewBlockingQueue 0, false)
  ∧ LinkedBlockingQueue.TryEnqueue (LinkedBlockingQueue.NewLinkedBlockingQueue 0) 7
    = (LinkedBlockingQueue.NewLinkedBlockingQueue 0, false).
Proof.
  assert (Hq : bq_inv (BlockingQueue.NewBlockingQueue (E:=Z) 0))
    by (split; [reflexivity | vm_compute; discriminate]).
  assert (Hl : ll_inv (LinkedBlockingQueue.items
                         (LinkedBlockingQueue.NewLinkedBlockingQueue (E:=Z) 0)))
    by (vm_compute; discriminate).
  destruct (TryEnqueue_full_iff _ _ 7 Hq Hl) as (Ha & _ & Hb & _).
  split; [apply Ha | apply Hb]; split; reflexivity.
Defined.

(** ** The heap of PriorityQueue *)

Section ExchangeFacts.
Context {E : Type}.
Implicit Types (s : list E).

(** What a swap of positions [i] and [j] leaves at position [n]. *)
Lemma lookup_exchange s i j a b n x :
  s !! i = Some a → s !! j = Some b →
  <[j:=a]> (<[i:=b]> s) !! n = Some x →
  (n = j ∧ x = a) ∨ (n = i ∧ n ≠ j ∧ x = b) ∨ (n ≠ i ∧ n ≠ j ∧ s !! n = Some x).
Proof.
  intros Hi Hj Hn.
  pose proof (lookup_lt_Some _ _ _ Hi). pose proof (lookup_lt_Some _ _ _ Hj).
  destruct (decide (n = j)) as [->|Hnj].
  - rewrite list_lookup_insert_eq in Hn by (rewrite length_insert; lia).
    left. split; congruence.
  - rewrite list_lookup_insert_ne in Hn by done.
    destruct (decide (n = i)) as [->|Hni].
    + rewrite list_lookup_insert_eq in Hn by lia. right; left. repeat split; congruence.
    + rewrite list_lookup_insert_ne in Hn by done. right; right. done.
Qed.

Lemma swap_lookup s i j a b :
  s !! i = Some a → s !! j = Some b →
  PriorityQueue.swap s (Z.of_nat i) (Z.of_nat j) = Done (<[j:=a]> (<[i:=b]> s)).
Proof.
  intros Hi Hj. unfold PriorityQueue.swap.
  rewrite (index_lookup _ _ _ Hj). simpl.
  rewrite (index_lookup _ _ _ Hi). simpl.
  by rewrite !Nat2Z.id.
Qed.

Lemma less_lookup (cmp : E → E → Z) s i j a b :
  s !! i = Some a → s !! j = Some b →
  PriorityQueue.less cmp s (Z.of_nat i) (Z.of_nat j) = Done (cmp a b <? 0).
Proof.
  intros Hi Hj. unfold PriorityQueue.less.
  rewrite (index_lookup _ _ _ Hi). simpl.
  by rewrite (index_lookup _ _ _ Hj).
Qed.
End ExchangeFacts.

(** Index arithmetic of the implicit tree, in [int64]. *)

Lemma parent_index (k : nat) :
  Z.of_nat k <= Int64.max_int →
  ∃ p : nat, Int64.div (Int64.sub (Z.of_nat k) 1) 2 = Z.of_nat p
             ∧ ((k = 0 ∧ p = 0)%nat ∨ child p k).
Proof.
  intros Hk. unfold Int64.max_int in Hk.
  exists (Z.to_nat (Z.quot (Z.of_nat k - 1) 2)).
  unfold child, Int64.div, Int64.sub, Int64.wrap, Int64.modulus.
  lia.
Qed.

Lemma parent_exists (i : nat) : (0 < i)%nat → ∃ p, child p i.
Proof.
  intros Hi. exists (Z.to_nat (Z.quot (Z.of_nat i - 1) 2)). unfold child. lia.
Qed.

(** The loop of [Dequeue] stops at a leaf, overflow of [index*2+1]
    included: that is what the test [leftIndex < 0] is for. *)
Lemma left_index_guard (k : nat) (last : Z) :
  Z.of_nat k <= Int64.max_int → -1 <= last < Int64.max_int →
  let leftIndex := Int64.add (Int64.mul (Z.of_nat k) 2) 1 in
  ((leftIndex >? last) || (leftIndex <? 0) = true ↔ last < 2 * Z.of_nat k + 1)
  ∧ (2 * Z.of_nat k + 1 <= last → leftIndex = Z.of_nat (2 * k + 1)
       ∧ Int64.add leftIndex 1 = Z.of_nat (2 * k + 2)).
Proof.
  intros Hk Hlast. simpl.
  unfold Int64.add, Int64.mul, Int64.wrap, Int64.modulus, Int64.max_int in *.
  rewrite orb_true_iff, Z.gtb_lt, Z.ltb_lt. lia.
Qed.

Section OrderFacts.
Context {E : Type} (cmp : E → E → Z) `{!Ordering cmp}.

Lemma not_after_refl a : not_after cmp a a.
Proof. exact (cmp_irrefl cmp a). Qed.

Lemma not_after_trans a b c :
  not_after cmp a b → not_after cmp b c → not_after cmp a c.
Proof. unfold not_after. intros Hab Hbc. by apply (cmp_neg_trans cmp c b a). Qed.

Lemma before_not_after a b : cmp a b < 0 → not_after cmp a b.
Proof.
  intros Hab Hba. apply (cmp_irrefl cmp a). by apply (cmp_trans cmp a b a).
Qed.

Lemma before_then_not_after a b y :
  cmp a b < 0 → not_after cmp b y → not_after cmp a y.
Proof. intros Hab Hby Hya. apply Hby. by apply (cmp_trans cmp y a b). Qed.
End OrderFacts.

Section SiftUp.
Context {E : Type} (cmp : E → E → Z).
Implicit Types (s : list E).

Lemma up_inv_done s k :
  up_inv cmp s k →
  (∀ p a b, child p k → s !! k = Some a → s !! p = Some b → ¬ cmp a b < 0) →
  heap_ordered cmp s.
Proof.
  intros [Hrest _] Hk p c x y Hc Hp Hy.
  destruct (decide (c = k)) as [->|Hne]; [|by eapply Hrest].
  unfold not_after. by eapply Hk.
Qed.

Lemma up_inv_step `{!Ordering cmp} s k p a b :
  up_inv cmp s k → child p k →
  s !! k = Some a → s !! p = Some b → cmp a b < 0 →
  up_inv cmp (<[p:=a]> (<[k:=b]> s)) p.
Proof.
  intros [Hrest Hgrand] Hpk Ha Hb Hlt. split.
  - intros p' c x y Hc Hcp Hx Hy.
    apply (lookup_exchange _ _ _ _ _ _ _ Ha Hb) in Hx as
      [[-> ->]|[(-> & _ & ->)|(? & ? & Hx)]];
    apply (lookup_exchange _ _ _ _ _ _ _ Ha Hb) in Hy as
      [[-> ->]|[(-> & _ & ->)|(? & ? & Hy)]];
    unfold child in *; try lia.
    + by apply before_not_after.
    + apply (before_then_not_after cmp a b y Hlt).
      eapply (Hrest p c); unfold child; eauto.
    + eapply (Hgrand p c); unfold child; eauto.
    + eapply (Hrest p' c); unfold child; eauto.
  - intros g c x y Hg Hc Hx Hy.
    apply (lookup_exchange _ _ _ _ _ _ _ Ha Hb) in Hx as
      [[-> ->]|[(-> & _ & ->)|(? & ? & Hx)]];
    apply (lookup_exchange _ _ _ _ _ _ _ Ha Hb) in Hy as
      [[-> ->]|[(-> & _ & ->)|(? & ? & Hy)]];
    unfold child in *; try lia.
    + eapply (Hrest g p); unfold child; eauto. lia.
    + apply (not_after_trans cmp x b y).
      * eapply (Hrest g p); unfold child; eauto. lia.
      * eapply (Hrest p c); unfold child; eauto.
Qed.
End SiftUp.

Section SiftUpLoop.
Context {E : Type} (cmp : E → E → Z).
Implicit Types (s : list E).

(** The loop of [Enqueue] exits (the comparator never puts an element
    before itself), rearranges the slice, and restores heap order. *)
Lemma sift_up_spec fuel s k :
  (∀ a, ¬ cmp a a < 0) →
  (k < length s)%nat → Z.of_nat (length s) <= Int64.max_int → (k < fuel)%nat →
  ∃ s', PriorityQueue.sift_up fuel cmp s (Z.of_nat k) = Done s'
        ∧ s' ≡ₚ s
        ∧ (Ordering cmp → up_inv cmp s k → heap_ordered cmp s').
Proof.
  intros Hirr. revert s k.
  induction fuel as [|fuel IH]; intros s k Hk Hlen Hfuel; [lia|].
  simpl.
  destruct (parent_index k) as (p & -> & Hp); [lia|].
  destruct (lookup_lt_is_Some_2 s k Hk) as [a Ha].
  assert (p ≤ k)%nat as Hpk by (unfold child in Hp; lia).
  destruct (lookup_lt_is_Some_2 s p ltac:(lia)) as [b Hb].
  rewrite (less_lookup cmp s k p a b Ha Hb). simpl.
  destruct (Z.ltb_spec (cmp a b) 0) as [Hlt|Hge].
  - destruct Hp as [[-> ->]|Hp].
    { exfalso. apply (Hirr a). congruence. }
    rewrite (swap_lookup s k p a b Ha Hb). simpl.
    destruct (IH (<[p:=a]> (<[k:=b]> s)) p) as (s' & Hrun & Hperm & Hheap).
    + rewrite !length_insert. lia.
    + rewrite !length_insert. lia.
    + unfold child in Hp. lia.
    + exists s'. split; [done|]. split.
      * rewrite Hperm. by apply Permutation_insert_swap.
      * intros Hord Hinv. apply Hheap; [done|]. by apply up_inv_step.
  - exists s. split; [done|]. split; [done|].
    intros Hord Hinv. apply (up_inv_done cmp s k Hinv).
    intros p' a' b' Hp' Ha' Hb'.
    assert (p' = p) as -> by (destruct Hp as [[-> ->]|Hp]; unfold child in *; lia).
    replace a' with a by congruence. replace b' with b by congruence. lia.
Qed.

Lemma up_inv_snoc s v : heap_ordered cmp s → up_inv cmp (s ++ [v]) (length s).
Proof.
  intros Hheap. split.
  - intros p c x y Hc Hne Hx Hy.
    pose proof (lookup_lt_Some _ _ _ Hy) as Hlt. rewrite length_app in Hlt.
    simpl in Hlt. unfold child in Hc.
    rewrite lookup_app_l in Hx by lia. rewrite lookup_app_l in Hy by lia.
    by eapply (Hheap p c).
  - intros g c x y _ Hc _ Hy.
    pose proof (lookup_lt_Some _ _ _ Hy) as Hlt. rewrite length_app in Hlt.
    simpl in Hlt. unfold child in Hc. lia.
Qed.
End SiftUpLoop.

Section EnqueueFacts.
Context {E : Type} `{GoZero E}.
Implicit Types (q : PriorityQueue.t E).

(** [Enqueue] returns, keeps the size in step with the slice, holds
    the old elements and the new one, and keeps heap order. *)
Lemma Enqueue_spec q v :
  (∀ a, ¬ PriorityQueue.comparator q a a < 0) →
  pq_inv q →
  Z.of_nat (length (PriorityQueue.items q)) < Int64.max_int →
  ∃ q', PriorityQueue.Enqueue q v = Done (q', true)
        ∧ pq_inv q'
        ∧ PriorityQueue.comparator q' = PriorityQueue.comparator q
        ∧ PriorityQueue.items q' ≡ₚ v :: PriorityQueue.items q
        ∧ (Ordering (PriorityQueue.comparator q) →
           heap_ordered (PriorityQueue.comparator q) (PriorityQueue.items q) →
           heap_ordered (PriorityQueue.comparator q) (PriorityQueue.items q')).
Proof.
  intros Hirr [Hsize Hlen] Hroom. unfold PriorityQueue.Enqueue.
  rewrite append_fits by done. rewrite Done_bind. cbv beta zeta.
  assert (Int64.sub (Int64.add (PriorityQueue.size q) 1) 1
          = Z.of_nat (length (PriorityQueue.items q))) as -> by int64.
  destruct (sift_up_spec (PriorityQueue.comparator q)
              (S (length (PriorityQueue.items q ++ [v])))
              (PriorityQueue.items q ++ [v])
              (length (PriorityQueue.items q)) Hirr)
    as (s' & -> & Hperm & Hheap).
  { rewrite length_app. simpl. lia. }
  { rewrite length_app. simpl. unfold Int64.max_int in *. lia. }
  { rewrite length_app. simpl. lia. }
  rewrite Done_bind. eexists. split; [done|]. simpl.
  assert (length s' = S (length (PriorityQueue.items q))) as Hlen'.
  { rewrite (Permutation_length Hperm), length_app. simpl. lia. }
  repeat split.
  - simpl. rewrite Hlen'. int64.
  - simpl. rewrite Hlen'. unfold Int64.max_int in *. lia.
  - rewrite Hperm. by rewrite <- Permutation_cons_append.
  - intros Hord Hheap0. apply Hheap; [done|]. by apply up_inv_snoc.
Qed.
End EnqueueFacts.

Section SiftDown.
Context {E : Type} (cmp : E → E → Z).
Implicit Types (s : list E).

Lemma down_inv_done `{!Ordering cmp} s k a :
  down_inv cmp s k → s !! k = Some a →
  (∀ c y, child k c → s !! c = Some y → not_after cmp a y) →
  heap_ordered cmp s.
Proof.
  intros [Hrest _] Ha Hk p c x y Hc Hx Hy.
  destruct (decide (p = k)) as [->|Hne]; [|by eapply Hrest].
  replace x with a by congruence. by eapply Hk.
Qed.

Lemma down_inv_leaf s k :
  down_inv cmp s k → (length s ≤ 2 * k + 1)%nat → heap_ordered cmp s.
Proof.
  intros [Hrest _] Hleaf p c x y Hc Hx Hy.
  destruct (decide (p = k)) as [->|Hne]; [|by eapply Hrest].
  pose proof (lookup_lt_Some _ _ _ Hy). unfold child in Hc. lia.
Qed.

Lemma down_inv_step `{!Ordering cmp} s k m a b :
  down_inv cmp s k → child k m →
  s !! k = Some a → s !! m = Some b → cmp b a < 0 →
  (∀ c y, child k c → s !! c = Some y → not_after cmp b y) →
  down_inv cmp (<[k:=b]> (<[m:=a]> s)) m.
Proof.
  intros [Hrest Hgrand] Hkm Ha Hb Hlt Hmin. split.
  - intros p c x y Hc Hpm Hx Hy.
    apply (lookup_exchange _ _ _ _ _ _ _ Hb Ha) in Hx as
      [[-> ->]|[(-> & _ & ->)|(? & ? & Hx)]];
    apply (lookup_exchange _ _ _ _ _ _ _ Hb Ha) in Hy as
      [[-> ->]|[(-> & _ & ->)|(? & ? & Hy)]];
    unfold child in *; try lia.
    + by apply before_not_after.
    + eapply (Hmin c); unfold child; eauto.
    + eapply (Hgrand p m); unfold child; eauto.
    + eapply (Hrest p c); unfold child; eauto.
  - intros g c x y Hg Hc Hx Hy.
    apply (lookup_exchange _ _ _ _ _ _ _ Hb Ha) in Hx as
      [[-> ->]|[(-> & _ & ->)|(? & ? & Hx)]];
    apply (lookup_exchange _ _ _ _ _ _ _ Hb Ha) in Hy as
      [[-> ->]|[(-> & _ & ->)|(? & ? & Hy)]];
    unfold child in *; try lia.
    eapply (Hrest m c); unfold child; eauto. lia.
Qed.
End SiftDown.

Section SiftDownLoop.
Context {E : Type} (cmp : E → E → Z).
Implicit Types (s : list E).

(** The loop of [Dequeue] exits for every comparator, rearranges the
    slice, and restores heap order. *)
Lemma sift_down_spec fuel s k :
  (k ≤ length s)%nat → Z.of_nat (length s) <= Int64.max_int →
  (length s - k < fuel)%nat →
  ∃ s', PriorityQueue.sift_down fuel cmp s (Z.of_nat k)
          (Z.of_nat (length s) - 1) = Done s'
        ∧ s' ≡ₚ s
        ∧ (Ordering cmp → down_inv cmp s k → heap_ordered cmp s').
Proof.
  revert s k.
  induction fuel as [|fuel IH]; intros s k Hk Hlen Hfuel; [lia|].
  cbn [PriorityQueue.sift_down].
  destruct (left_index_guard k (Z.of_nat (length s) - 1)) as [Hstop Hgo];
    [lia | lia |].
  cbv zeta in Hstop, Hgo. cbv zeta.
  destruct (Z.lt_ge_cases (Z.of_nat (length s) - 1) (2 * Z.of_nat k + 1))
    as [Hleaf|Hin].
  { (* a leaf *)
    rewrite (proj2 Hstop Hleaf).
    exists s. split; [done|]. split; [done|].
    intros _ Hinv. apply (down_inv_leaf cmp s k Hinv). lia. }
  rewrite (not_true_is_false _ (λ Hg, Zlt_not_le _ _ (proj1 Hstop Hg) Hin)).
  destruct (Hgo Hin) as [-> ->]. clear Hstop Hgo.
  destruct (lookup_lt_is_Some_2 s k ltac:(lia)) as [a Ha].
  destruct (lookup_lt_is_Some_2 s (2 * k + 1) ltac:(lia)) as [l Hl].
  (* what follows the choice of the smaller child [m] *)
  assert (∀ m b, child k m → s !! m = Some b →
            (Ordering cmp → ∀ c y, child k c → s !! c = Some y →
               not_after cmp b y) →
            ∃ s', (c ← PriorityQueue.less cmp s (Z.of_nat m) (Z.of_nat k);
                   if negb c then Done s
                   else items' ← PriorityQueue.swap s (Z.of_nat m) (Z.of_nat k);
                        PriorityQueue.sift_down fuel cmp items' (Z.of_nat m)
                          (Z.of_nat (length s) - 1)) = Done s'
                  ∧ s' ≡ₚ s
                  ∧ (Ordering cmp → down_inv cmp s k → heap_ordered cmp s'))
    as Htail.
  { intros m b Hm Hb Hmin.
    rewrite (less_lookup cmp s m k b a Hb Ha), Done_bind.
    destruct (Z.ltb_spec (cmp b a) 0) as [Hlt|Hge]; cbn [negb].
    - rewrite (swap_lookup s m k b a Hb Ha), Done_bind.
      pose proof (lookup_lt_Some _ _ _ Hb) as Hmlen.
      destruct (IH (<[k:=b]> (<[m:=a]> s)) m) as (s' & Hrun & Hperm & Hheap).
      + rewrite !length_insert. lia.
      + rewrite !length_insert. lia.
      + rewrite !length_insert. unfold child in Hm. lia.
      + rewrite !length_insert in Hrun. exists s'. split; [done|]. split.
        * rewrite Hperm. by apply Permutation_insert_swap.
        * intros Hord Hinv. apply Hheap; [done|].
          exact (down_inv_step cmp s k m a b Hinv Hm Ha Hb Hlt (Hmin Hord)).
    - exists s. split; [done|]. split; [done|].
      intros Hord Hinv. apply (down_inv_done cmp s k a Hinv Ha).
      intros c y Hc Hy. apply (not_after_trans cmp a b y); [unfold not_after; lia|].
      by apply (Hmin Hord c). }
  destruct (Z.leb_spec (Z.of_nat (2 * k + 2)) (Z.of_nat (length s) - 1))
    as [Hright|Hright].
  - destruct (lookup_lt_is_Some_2 s (2 * k + 2) ltac:(lia)) as [r Hr].
    rewrite (less_lookup cmp s _ _ r l Hr Hl), Done_bind.
    destruct (Z.ltb_spec (cmp r l) 0) as [Hlt|Hge]; cbv beta iota zeta.
    + apply (Htail _ r); [unfold child; lia | done |].
      intros Hord c y Hc Hy.
      destruct Hc as [->| ->].
      * replace y with l by congruence. by apply before_not_after.
      * replace y with r by congruence. by apply not_after_refl.
    + apply (Htail _ l); [unfold child; lia | done |].
      intros Hord c y Hc Hy.
      destruct Hc as [->| ->].
      * replace y with l by congruence. by apply not_after_refl.
      * replace y with r by congruence. unfold not_after. lia.
  - rewrite Done_bind. cbv beta iota zeta.
    apply (Htail _ l); [unfold child; lia | done |].
    intros Hord c y Hc Hy.
    destruct Hc as [->| ->].
    + replace y with l by congruence. by apply not_after_refl.
    + apply lookup_lt_Some in Hy. lia.
Qed.
End SiftDownLoop.

Section DequeueFacts.
Context {E : Type} `{GoZero E}.
Implicit Types (q : PriorityQueue.t E).

(** Moving the last element to the root and cutting the old root off
    leaves a heap except at the root. *)
Lemma down_inv_root (cmp : E → E → Z) (s : list E) x z n :
  heap_ordered cmp s → s !! 0%nat = Some x → s !! n = Some z →
  down_inv cmp (take n (<[n:=x]> (<[0%nat:=z]> s))) 0.
Proof.
  intros Hheap Hx Hz. split.
  - intros p c x' y' Hc Hp [Hx' Hpn]%lookup_take_Some [Hy' Hcn]%lookup_take_Some.
    apply (lookup_exchange _ _ _ _ _ _ _ Hx Hz) in Hx' as
      [[-> ->]|[(-> & _ & ->)|(? & ? & Hx')]];
    apply (lookup_exchange _ _ _ _ _ _ _ Hx Hz) in Hy' as
      [[-> ->]|[(-> & _ & ->)|(? & ? & Hy')]];
    unfold child in *; try lia.
    eapply (Hheap p c); unfold child; eauto.
  - intros g c x' y' Hg. unfold child in Hg. lia.
Qed.

(** On a non-empty queue [Dequeue] returns the root with [true],
    holds the other elements, keeps the size in step with the slice,
    and keeps heap order. *)
Lemma Dequeue_spec q x rest :
  pq_inv q → PriorityQueue.items q = x :: rest →
  ∃ q', PriorityQueue.Dequeue q = Done (q', (x, true))
        ∧ pq_inv q'
        ∧ PriorityQueue.comparator q' = PriorityQueue.comparator q
        ∧ PriorityQueue.size q' = PriorityQueue.size q - 1
        ∧ PriorityQueue.items q' ≡ₚ rest
        ∧ (Ordering (PriorityQueue.comparator q) →
           heap_ordered (PriorityQueue.comparator q) (PriorityQueue.items q) →
           heap_ordered (PriorityQueue.comparator q) (PriorityQueue.items q')).
Proof.
  intros [Hsize Hlen] Hitems. unfold PriorityQueue.Dequeue.
  rewrite Hitems in *. rewrite length_cons in Hsize, Hlen.
  set (n := length rest) in *.
  destruct (Z.eqb_spec (PriorityQueue.size q) 0) as [Hz|_]; [lia|].
  rewrite index_head, Done_bind.
  assert (Int64.sub (PriorityQueue.size q) 1 = Z.of_nat n) as -> by int64.
  destruct (lookup_lt_is_Some_2 (x :: rest) n) as [z Hz];
    [rewrite length_cons; lia|].
  assert (Hx : (x :: rest) !! 0%nat = Some x) by done.
  pose proof (swap_lookup (x :: rest) 0 n x z Hx Hz) as Hswap.
  change (Z.of_nat 0) with 0 in Hswap. rewrite Hswap, Done_bind. clear Hswap.
  set (s1 := <[n:=x]> (<[0%nat:=z]> (x :: rest))).
  assert (length s1 = S n) as Hlen1
    by (unfold s1; rewrite !length_insert, length_cons; done).
  assert (s1 !! n = Some x) as Hlast.
  { unfold s1. apply list_lookup_insert_eq. rewrite length_insert, length_cons. lia. }
  unfold slice_to.
  assert ((0 <=? Z.of_nat n) && (Z.of_nat n <=? Z.of_nat (length s1)) = true)
    as -> by (apply andb_true_intro; split; apply Z.leb_le; lia).
  rewrite Done_bind. cbv zeta.
  assert (length (take n s1) = n) as Hlen2 by (rewrite length_take; lia).
  assert (Int64.sub (Z.of_nat n) 1 = Z.of_nat (length (take n s1)) - 1) as ->
    by (rewrite Hlen2; int64).
  rewrite Nat2Z.id.
  destruct (sift_down_spec (PriorityQueue.comparator q)
              (S (length (take n s1))) (take n s1) 0)
    as (s' & Hrun & Hperm & Hheap); [lia | lia | lia |].
  change (Z.of_nat 0) with 0 in Hrun. rewrite Hrun, Done_bind. clear Hrun.
  eexists. split; [done|].
  assert (s' ≡ₚ rest) as Hrest.
  { rewrite Hperm. apply (Permutation.Permutation_cons_inv (a:=x)).
    rewrite Permutation_cons_append, <- (take_S_r _ _ _ Hlast).
    rewrite take_ge by lia. unfold s1.
    by apply Permutation_insert_swap. }
  assert (length s' = n) as Hlen' by (by rewrite (Permutation_length Hrest)).
  split; [|split; [done|split; [|split; [done|]]]].
  - split; simpl; rewrite Hlen'; [done | lia].
  - simpl. lia.
  - simpl. intros Hord Hheap0. apply Hheap; [done|].
    by apply down_inv_root.
Qed.

(** On an empty queue [Dequeue] returns the zero value and [false]. *)
Lemma Dequeue_empty q :
  PriorityQueue.size q = 0 → PriorityQueue.Dequeue q = Done (q, (zero, false)).
Proof. intros Hz. unfold PriorityQueue.Dequeue. by rewrite Hz. Qed.
End DequeueFacts.

Section HeapOrder.
Context {E : Type} `{GoZero E} (cmp : E → E → Z) `{!Ordering cmp}.
Implicit Types (q : PriorityQueue.t E) (s : list E).

(** In a heap nothing sorts before the root. *)
Lemma root_minimal s r :
  heap_ordered cmp s → s !! 0%nat = Some r →
  ∀ i y, s !! i = Some y → not_after cmp r y.
Proof.
  intros Hheap Hr i.
  induction i as [i IH] using (well_founded_induction Wf_nat.lt_wf).
  intros y Hy. destruct (decide (i = 0%nat)) as [->|Hi].
  - replace y with r by congruence. apply not_after_refl; done.
  - destruct (parent_exists i) as [p Hp]; [lia|].
    pose proof (lookup_lt_Some _ _ _ Hy) as Hlt.
    destruct (lookup_lt_is_Some_2 s p) as [z Hz];
      [unfold child in Hp; lia|].
    apply (not_after_trans cmp r z y).
    + apply (IH p); [unfold child in Hp; lia | done].
    + by apply (Hheap p i).
Qed.
End HeapOrder.

Section HeapRuns.
Context {E : Type} `{GoZero E}.
Implicit Types (q : PriorityQueue.t E) (s : list E).

(** Enqueuing a sequence returns and keeps invariant, elements and
    heap order. *)
Lemma enqueue_all_spec values : ∀ q,
  (∀ a, ¬ PriorityQueue.comparator q a a < 0) →
  pq_inv q →
  Z.of_nat (length (PriorityQueue.items q)) + Z.of_nat (length values)
    <= Int64.max_int →
  ∃ q', PriorityQueue.enqueue_all q values = Done q'
        ∧ pq_inv q'
        ∧ PriorityQueue.comparator q' = PriorityQueue.comparator q
        ∧ PriorityQueue.items q' ≡ₚ PriorityQueue.items q ++ values
        ∧ (Ordering (PriorityQueue.comparator q) →
           heap_ordered (PriorityQueue.comparator q) (PriorityQueue.items q) →
           heap_ordered (PriorityQueue.comparator q) (PriorityQueue.items q')).
Proof.
  induction values as [|v values IH]; intros q Hirr Hinv Hroom.
  - exists q. simpl. rewrite app_nil_r. done.
  - rewrite length_cons in Hroom.
    destruct (Enqueue_spec q v Hirr Hinv) as (q1 & Hrun & Hinv1 & Hcmp1 & Hperm1 & Hheap1);
      [lia|].
    cbn [PriorityQueue.enqueue_all]. rewrite Hrun, Done_bind. cbn [fst].
    destruct (IH q1) as (q' & Hrun' & Hinv' & Hcmp' & Hperm' & Hheap').
    + by rewrite Hcmp1.
    + done.
    + rewrite (Permutation_length Hperm1), length_cons. lia.
    + exists q'. split; [done|]. split; [done|]. split; [congruence|]. split.
      * rewrite Hperm', Hperm1. by rewrite <- Permutation_middle.
      * rewrite Hcmp1 in Hheap'. auto.
Qed.

(** Dequeuing everything from a heap returns, empties it, and yields
    its elements in non-decreasing order. *)
Lemma dequeue_n_spec n : ∀ q,
  Ordering (PriorityQueue.comparator q) →
  pq_inv q →
  heap_ordered (PriorityQueue.comparator q) (PriorityQueue.items q) →
  length (PriorityQueue.items q) = n →
  ∃ q' out, dequeue_n n q = Done (q', out)
            ∧ out ≡ₚ PriorityQueue.items q
            ∧ StronglySorted (not_after (PriorityQueue.comparator q)) out
            ∧ PriorityQueue.items q' = []
            ∧ pq_inv q'.
Proof.
  induction n as [|n IH]; intros q Hord Hinv Hheap Hn.
  - exists q, []. apply nil_length_inv in Hn. rewrite Hn.
    repeat split; try done; try constructor; by destruct Hinv.
  - destruct (PriorityQueue.items q) as [|x rest] eqn:Hitems; [done|].
    destruct (Dequeue_spec q x rest Hinv Hitems)
      as (q1 & Hrun & Hinv1 & Hcmp1 & _ & Hperm1 & Hheap1).
    rewrite Hitems in Hheap1.
    cbn [dequeue_n]. rewrite Hrun, Done_bind. cbn [fst snd].
    destruct (IH q1) as (q' & out & Hrun' & Hperm' & Hsorted' & Hnil & Hinv').
    + by rewrite Hcmp1.
    + done.
    + rewrite Hcmp1. auto.
    + rewrite (Permutation_length Hperm1). simpl in Hn. lia.
    + rewrite Hrun', Done_bind. cbn [fst snd].
      exists q', (x :: out). split; [done|]. split; [|split; [|done]].
      * by rewrite Hperm', Hperm1.
      * rewrite Hcmp1 in Hsorted'. constructor; [done|].
        apply Forall_forall. intros y Hy.
        rewrite Hperm', Hperm1 in Hy.
        apply list_elem_of_lookup in Hy as [i Hi].
        apply (root_minimal (PriorityQueue.comparator q) (x :: rest) x Hheap
                 eq_refl (S i) y Hi).
Qed.
End HeapRuns.

(** ** Heap order of PriorityQueue *)

(** C3. After enqueuing 5, 1, 4, 2, 3 into an empty PriorityQueue with
    the numeric ascending comparator, Dequeue yields 1, 2, 3, 4, 5; and
    for every comparator that is an ordering, enqueuing any sequence and
    dequeuing it all yields its elements in non-decreasing order. *)
Theorem priority_dequeue_sorted :
  (q ← PriorityQueue.NewPriorityQueue numeric_ascending [5; 1; 4; 2; 3];
   r ← dequeue_n 5 q; Done r.2) = Done [1; 2; 3; 4; 5]
  ∧ ∀ (E : Type) (Z0 : GoZero E) (cmp : E → E → Z) (values : list E),
      Ordering cmp →
      Z.of_nat (length values) <= Int64.max_int →
      ∃ q q' out,
        PriorityQueue.NewPriorityQueue cmp values = Done q
        ∧ dequeue_n (length values) q = Done (q', out)
        ∧ out ≡ₚ values
        ∧ StronglySorted (not_after cmp) out
        ∧ PriorityQueue.items q' = [].
Proof.
  split; [vm_compute; reflexivity|].
  intros E Z0 cmp values Hord Hlen. unfold PriorityQueue.NewPriorityQueue.
  set (q0 := {| PriorityQueue.size := 0; PriorityQueue.items := [];
                PriorityQueue.comparator := cmp |}).
  assert (pq_inv q0) as Hinv0 by (split; [done | vm_compute; discriminate]).
  destruct (enqueue_all_spec values q0) as (q & Hrun & Hinv & Hcmp & Hperm & Hheap);
    [exact (cmp_irrefl cmp) | done | simpl; lia |].
  simpl in Hcmp, Hperm, Hheap.
  destruct (dequeue_n_spec (length values) q)
    as (q' & out & Hrun' & Hperm' & Hsorted & Hnil & _).
  - by rewrite Hcmp.
  - done.
  - rewrite Hcmp. apply Hheap; [done|]. intros p c x y _ Hx. done.
  - by rewrite (Permutation_length Hperm).
  - exists q, q', out. rewrite Hcmp in Hsorted.
    repeat split; try done. by rewrite Hperm', Hperm.
Qed.

#[export] Instance numeric_ascending_ordering : Ordering numeric_ascending.
Proof.
  split; unfold numeric_ascending; intros; repeat case_match; lia.
Qed.

(** The general statement of C3 at the sequence of the specification. *)
Lemma priority_dequeue_sorted_witness :
  ∃ q q' out,
    PriorityQueue.NewPriorityQueue numeric_ascending [5; 1; 4; 2; 3] = Done q
    ∧ dequeue_n 5 q = Done (q', out)
    ∧ out ≡ₚ [5; 1; 4; 2; 3]
    ∧ StronglySorted (not_after numeric_ascending) out
    ∧ PriorityQueue.items q' = [].
Proof.
  apply (proj2 priority_dequeue_sorted Z Z_zero numeric_ascending [5; 1; 4; 2; 3]).
  - exact numeric_ascending_ordering.
  - vm_compute. discriminate.
Defined.

(** With heap order in place, Peek returns a minimal element. *)
Lemma Peek_minimal {E} `{GoZero E} (q : PriorityQueue.t E) :
  Ordering (PriorityQueue.comparator q) →
  pq_inv q →
  heap_ordered (PriorityQueue.comparator q) (PriorityQueue.items q) →
  PriorityQueue.items q ≠ [] →
  ∃ x, PriorityQueue.Peek q = Done (x, true)
       ∧ minimal_in (PriorityQueue.comparator q) x (PriorityQueue.items q).
Proof.
  intros Hord [Hsize Hlen] Hheap Hne.
  destruct (PriorityQueue.items q) as [|x rest] eqn:Hitems; [done|].
  exists x. unfold PriorityQueue.Peek. rewrite Hitems, index_head.
  rewrite length_cons in Hsize.
  destruct (Z.eqb_spec (PriorityQueue.size q) 0); [lia|].
  split; [done|]. split; [apply list_elem_of_here|].
  intros y [i Hi]%list_elem_of_lookup.
  by apply (root_minimal _ (x :: rest) x Hheap eq_refl i y).
Qed.

(** C4. After Enqueue 1, 3, 2 and Remove(1) the slice is 3, 2: heap
    order is gone, and Peek and Dequeue return 3 although 2 is present
    and sorts before it. *)
Theorem Peek_after_Remove_not_minimal :
  ∃ q, PriorityQueue.NewPriorityQueue numeric_ascending [1; 3; 2] = Done q
       ∧ let q' := PriorityQueue.Remove Z.eqb q 1 in
         PriorityQueue.items q' = [3; 2]
         ∧ PriorityQueue.Peek q' = Done (3, true)
         ∧ (∃ q'', PriorityQueue.Dequeue q' = Done (q'', (3, true)))
         ∧ ¬ minimal_in numeric_ascending 3 (PriorityQueue.items q').
Proof.
  eexists. split; [vm_compute; reflexivity|].
  cbv zeta. split; [reflexivity|]. split; [reflexivity|].
  split; [eexists; vm_compute; reflexivity|].
  intros [_ Hmin]. apply (Hmin 2); [|reflexivity].
  apply list_elem_of_In. simpl. auto.
Qed.

(** ** Non-blocking removal *)




(** ** FIFO order *)

Section FifoFacts.
Context {E : Type} `{GoZero E} `{GoNil E}.

Lemma array_enqueue_all_spec values : ∀ q : BlockingQueue.t E,
  bq_inv q →
  BlockingQueue.size q + Z.of_nat (length values) <= BlockingQueue.cap q →
  BlockingQueue.cap q <= Int64.max_int →
  Fifo.array_enqueue_all q values
  = Done (BlockingQueue.Mk (BlockingQueue.items q ++ values)
            (BlockingQueue.size q + Z.of_nat (length values))
            (BlockingQueue.cap q)).
Proof.
  induction values as [|v values IH]; intros q [Hsize Hlen] Hroom Hcap.
  - simpl. rewrite app_nil_r, Z.add_0_r. by destruct q.
  - rewrite length_cons in Hroom. cbn [Fifo.array_enqueue_all].
    unfold BlockingQueue.Enqueue, BlockingQueue.put.
    destruct (Z.eqb_spec (BlockingQueue.cap q) (BlockingQueue.size q)); [lia|].
    rewrite append_fits by lia. rewrite !Done_bind. cbn [fst].
    rewrite IH; simpl.
    + rewrite <- app_assoc. simpl. do 2 f_equal. int64.
    + split; simpl; rewrite length_app; simpl; [int64 | lia].
    + assert (Int64.add (BlockingQueue.size q) 1 = BlockingQueue.size q + 1)
        as -> by int64. lia.
    + done.
Qed.

Lemma array_dequeue_n_spec n : ∀ q : BlockingQueue.t E,
  bq_inv q → (n ≤ length (BlockingQueue.items q))%nat →
  Fifo.array_dequeue_n n q
  = Done (BlockingQueue.Mk (drop n (BlockingQueue.items q))
            (BlockingQueue.size q - Z.of_nat n) (BlockingQueue.cap q),
          take n (BlockingQueue.items q)).
Proof.
  induction n as [|n IH]; intros q [Hsize Hlen] Hn.
  - simpl. rewrite Z.sub_0_r. by destruct q.
  - destruct (BlockingQueue.items q) as [|x rest] eqn:Hitems;
      [simpl in Hn; lia|].
    rewrite length_cons in Hsize, Hlen, Hn.
    cbn [Fifo.array_dequeue_n].
    unfold BlockingQueue.Dequeue, BlockingQueue.take_head.
    destruct (Z.eqb_spec (BlockingQueue.size q) 0); [lia|].
    rewrite Hitems, index_head, Done_bind, slice_from_tail, !Done_bind.
    cbn [fst snd]. rewrite IH; simpl.
    + do 3 f_equal. int64.
    + split; simpl; [int64 | lia].
    + lia.
Qed.

Lemma linked_enqueue_all_spec values : ∀ q : LinkedBlockingQueue.t E,
  Z.of_nat (length (LinkedBlockingQueue.items q)) + Z.of_nat (length values)
    <= LinkedBlockingQueue.cap q →
  LinkedBlockingQueue.cap q <= Int64.max_int →
  Fifo.linked_enqueue_all q values
  = Done (LinkedBlockingQueue.Mk (LinkedBlockingQueue.items q ++ values)
            (LinkedBlockingQueue.cap q)).
Proof.
  induction values as [|v values IH]; intros q Hroom Hcap.
  - simpl. rewrite app_nil_r. by destruct q.
  - rewrite length_cons in Hroom. cbn [Fifo.linked_enqueue_all].
    unfold LinkedBlockingQueue.Enqueue, LinkedBlockingQueue.put.
    rewrite Count_length by (unfold ll_inv; lia).
    destruct (Z.eqb_spec (LinkedBlockingQueue.cap q)
                (Z.of_nat (length (LinkedBlockingQueue.items q)))); [lia|].
    rewrite Done_bind. cbn [fst]. rewrite IH; simpl.
    + by rewrite <- app_assoc.
    + rewrite length_app. simpl. lia.
    + done.
Qed.

Lemma linked_dequeue_n_spec n : ∀ q : LinkedBlockingQueue.t E,
  ll_inv (LinkedBlockingQueue.items q) →
  (n ≤ length (LinkedBlockingQueue.items q))%nat →
  Fifo.linked_dequeue_n n q
  = if holds_nil (take n (LinkedBlockingQueue.items q)) then Panics
    else Done (LinkedBlockingQueue.Mk (drop n (LinkedBlockingQueue.items q))
                 (LinkedBlockingQueue.cap q),
               take n (LinkedBlockingQueue.items q)).
Proof.
  induction n as [|n IH]; intros q Hl Hn.
  - simpl. by destruct q.
  - destruct (LinkedBlockingQueue.items q) as [|x rest] eqn:Hitems;
      [simpl in Hn; lia|].
    cbn [Fifo.linked_dequeue_n]. unfold LinkedBlockingQueue.Dequeue.
    destruct (LinkedList.IsEmpty _) eqn:Hempty.
    { rewrite Hitems in Hempty. apply IsEmpty_nil in Hempty; done. }
    unfold LinkedBlockingQueue.take_head. rewrite Hitems, Shift_cons.
    rewrite firstn_cons, skipn_cons. simpl holds_nil.
    destruct (is_nil x); simpl; [done|].
    rewrite IH; simpl; [|unfold ll_inv in *; rewrite length_cons in Hl; lia
                        |rewrite length_cons in Hn; lia].
    by destruct (holds_nil (take n rest)).
Qed.

Lemma plain_enqueue_all_spec values : ∀ q : LinkedQueue.t E,
  Fifo.plain_enqueue_all q values
  = LinkedQueue.Mk (LinkedQueue.items q ++ values).
Proof.
  induction values as [|v values IH]; intros q.
  - simpl. rewrite app_nil_r. by destruct q.
  - cbn [Fifo.plain_enqueue_all]. rewrite IH. simpl.
    by rewrite <- app_assoc.
Qed.

Lemma plain_dequeue_n_spec n : ∀ q : LinkedQueue.t E,
  ll_inv (LinkedQueue.items q) →
  (n ≤ length (LinkedQueue.items q))%nat →
  Fifo.plain_dequeue_n n q
  = if holds_nil (take n (LinkedQueue.items q)) then Panics
    else Done (LinkedQueue.Mk (drop n (LinkedQueue.items q)),
               (λ v, (v, true)) <$> take n (LinkedQueue.items q)).
Proof.
  induction n as [|n IH]; intros q Hl Hn.
  - simpl. by destruct q.
  - destruct (LinkedQueue.items q) as [|x rest] eqn:Hitems;
      [simpl in Hn; lia|].
    cbn [Fifo.plain_dequeue_n]. unfold LinkedQueue.Dequeue.
    destruct (LinkedList.IsEmpty _) eqn:Hempty.
    { rewrite Hitems in Hempty. apply IsEmpty_nil in Hempty; done. }
    rewrite Hitems, Shift_cons.
    rewrite firstn_cons, skipn_cons. simpl holds_nil.
    destruct (is_nil x); simpl; [done|].
    rewrite IH; simpl; [|unfold ll_inv in *; rewrite length_cons in Hl; lia
                        |rewrite length_cons in Hn; lia].
    by destruct (holds_nil (take n rest)).
Qed.
End FifoFacts.




(** ** Removal *)

Lemma DeleteFunc_filter {E} (s : list E) (del : E → bool) :
  PriorityQueue.DeleteFunc s del = filter (λ x, del x = false) s.
Proof.
  induction s as [|a s IH]; simpl; [done|].
  rewrite filter_cons, IH. destruct (del a) eqn:Ha.
  - by rewrite decide_False by congruence.
  - by rewrite decide_True by done.
Qed.



(** ** The digit codec *)

Section DigitsFacts.
Import Digits.

Lemma digit_roundtrip x d : digit_byte x = Some d → byte_digit d = Some x.
Proof.
  unfold digit_byte.
  destruct ((0 <=? x) && (x <=? 9)) eqn:Hrange; [|discriminate].
  apply andb_prop in Hrange as [H0%Z.leb_le H9%Z.leb_le].
  assert (x = 0 ∨ x = 1 ∨ x = 2 ∨ x = 3 ∨ x = 4 ∨ x = 5 ∨ x = 6 ∨ x = 7
          ∨ x = 8 ∨ x = 9) as Hx by lia.
  repeat destruct Hx as [->|Hx]; try subst x;
    vm_compute; intros [= <-]; reflexivity.
Qed.

Lemma encode_decode xs : ∀ t,
  xs ≠ [] → encode_elems xs = Some t → decode_elems t = Some xs.
Proof.
  induction xs as [|x rest IH]; intros t Hne Henc; [done|].
  cbn [encode_elems] in Henc.
  destruct (digit_byte x) as [d|] eqn:Hd; [|discriminate].
  destruct (encode_elems rest) as [t0|] eqn:Hrest; [|discriminate].
  cbn in Henc. apply digit_roundtrip in Hd.
  destruct rest as [|y rest'].
  - injection Hrest as <-. injection Henc as <-.
    cbn [decode_elems]. rewrite Hd. reflexivity.
  - injection Henc as <-. cbn [decode_elems]. rewrite Hd.
    change (Byte.eqb comma close_bracket) with false.
    change (Byte.eqb comma comma) with true.
    cbn. rewrite (IH t0); [reflexivity | done | reflexivity].
Qed.

Lemma digits_lossless : lossless codec.
Proof.
  intros xs data. unfold codec, Marshal, Unmarshal, marshal.
  destruct (encode_elems xs) as [t|] eqn:Henc; [|discriminate].
  intros [= <-]. unfold unmarshal.
  change (Byte.eqb open_bracket open_bracket) with true. cbv iota.
  destruct xs as [|x rest].
  - injection Henc as <-. reflexivity.
  - rewrite (encode_decode (x :: rest) t); [|done|done].
    cbn [encode_elems] in Henc.
    destruct (digit_byte x); [|discriminate].
    destruct (encode_elems rest) as [t0|] eqn:Hrest; [|discriminate].
    cbn in Henc. destruct rest; injection Henc as <-; [|reflexivity].
    injection Hrest as <-. reflexivity.
Qed.
End DigitsFacts.

(** ** The size field *)

Section SizeFacts.
Context {E : Type} `{GoZero E}.

Lemma bq_inv_new cap : bq_inv (BlockingQueue.NewBlockingQueue (E:=E) cap).
Proof. split; [done | vm_compute; discriminate]. Qed.

Lemma bq_inv_put (q q' : BlockingQueue.t E) v b :
  bq_inv q → BlockingQueue.put q v = Done (q', b) → bq_inv q'.
Proof.
  intros [Hsize Hlen] Hrun. unfold BlockingQueue.put in Hrun.
  apply bind_Done in Hrun as (s & [-> Hroom]%append_Done & [= <- _]).
  split; simpl; rewrite length_app; simpl; [int64 | lia].
Qed.

Lemma bq_inv_take_head (q q' : BlockingQueue.t E) r :
  bq_inv q → BlockingQueue.take_head q = Done (q', r) → bq_inv q'.
Proof.
  intros [Hsize Hlen] Hrun. unfold BlockingQueue.take_head in Hrun.
  apply bind_Done in Hrun as (x & Hx & Hrun).
  apply bind_Done in Hrun as (rest & Hrest & [= <- _]).
  destruct (BlockingQueue.items q) as [|y s]; [discriminate|].
  rewrite slice_from_tail in Hrest. injection Hrest as <-.
  rewrite length_cons in Hsize, Hlen. split; simpl; [int64 | lia].
Qed.

Lemma bq_inv_keep (q : BlockingQueue.t E) (callback : E → bool) cap :
  bq_inv q →
  bq_inv (BlockingQueue.Mk (keep_unless callback (BlockingQueue.items q) [])
            (Int64.of_len (keep_unless callback (BlockingQueue.items q) []))
            cap).
Proof.
  intros [_ Hlen]. pose proof (length_keep_unless callback (BlockingQueue.items q)).
  split; simpl; [apply of_len_fits|]; lia.
Qed.

Lemma bq_inv_put_all values : ∀ q q' : BlockingQueue.t E,
  bq_inv q → BlockingQueue.put_all q values = Done q' → bq_inv q'.
Proof.
  induction values as [|v values IH]; intros q q' Hinv Hrun; simpl in Hrun.
  - by injection Hrun as <-.
  - destruct (BlockingQueue.size q =? BlockingQueue.cap q); [discriminate|].
    apply bind_Done in Hrun as ([q1 b] & Hput & Hrun).
    eapply IH; [|exact Hrun]. by eapply bq_inv_put.
Qed.

Lemma bq_inv_call DeepEqual c (q q' : BlockingQueue.t E) o :
  bq_inv q → ArrayHistory.call DeepEqual c q o = Done q' → bq_inv q'.
Proof.
  intros Hinv Hrun. destruct o; simpl in Hrun.
  - apply bind_Done in Hrun as ([q1 b] & Hrun & [= <-]).
    unfold BlockingQueue.TryEnqueue in Hrun.
    destruct (_ =? _); [by injection Hrun as <- | by eapply bq_inv_put].
  - apply bind_Done in Hrun as ([q1 b] & Hrun & [= <-]).
    unfold BlockingQueue.TryDequeue in Hrun.
    destruct (_ =? _); [by injection Hrun as <- | by eapply bq_inv_take_head].
  - apply bind_Done in Hrun as ([q1 b] & Hrun & [= <-]).
    unfold BlockingQueue.Enqueue in Hrun.
    destruct (_ =? _); [discriminate | by eapply bq_inv_put].
  - apply bind_Done in Hrun as ([q1 b] & Hrun & [= <-]).
    unfold BlockingQueue.Dequeue in Hrun.
    destruct (_ =? _); [discriminate | by eapply bq_inv_take_head].
  - injection Hrun as <-. by apply bq_inv_keep.
  - injection Hrun as <-. by apply bq_inv_keep.
  - injection Hrun as <-. split; [done | vm_compute; discriminate].
  - apply bind_Done in Hrun as ([q1 e] & Hrun & [= <-]).
    unfold BlockingQueue.UnmarshalJSON in Hrun.
    destruct (Unmarshal c data); [by injection Hrun as <-|].
    apply bind_Done in Hrun as (q2 & Hrun & [= <- _]).
    by eapply bq_inv_put_all.
Qed.

Lemma bq_inv_run DeepEqual c ops : ∀ q q' : BlockingQueue.t E,
  bq_inv q → ArrayHistory.run DeepEqual c q ops = Done q' → bq_inv q'.
Proof.
  induction ops as [|o ops IH]; intros q q' Hinv Hrun; simpl in Hrun.
  - by injection Hrun as <-.
  - apply bind_Done in Hrun as (q1 & Ho & Hrun).
    eapply IH; [|exact Hrun]. by eapply bq_inv_call.
Qed.

Lemma swap_length (s s' : list E) i j :
  PriorityQueue.swap s i j = Done s' → length s' = length s.
Proof.
  unfold PriorityQueue.swap. intros Hrun.
  apply bind_Done in Hrun as (b & _ & Hrun).
  apply bind_Done in Hrun as (a & _ & [= <-]).
  by rewrite !length_insert.
Qed.

(** Whatever the comparator, a sift-up that returns has only moved
    elements. *)
Lemma sift_up_length fuel cmp : ∀ (s s' : list E) i,
  PriorityQueue.sift_up fuel cmp s i = Done s' → length s' = length s.
Proof.
  induction fuel as [|fuel IH]; intros s s' i Hrun; [discriminate|].
  cbn [PriorityQueue.sift_up] in Hrun.
  apply bind_Done in Hrun as (c & _ & Hrun). destruct c.
  - apply bind_Done in Hrun as (s1 & Hswap & Hrun).
    rewrite (IH _ _ _ Hrun). by eapply swap_length.
  - by injection Hrun as <-.
Qed.

Lemma pq_inv_Enqueue (q q' : PriorityQueue.t E) v b :
  pq_inv q → PriorityQueue.Enqueue q v = Done (q', b) → pq_inv q'.
Proof.
  intros [Hsize Hlen] Hrun. unfold PriorityQueue.Enqueue in Hrun.
  apply bind_Done in Hrun as (s1 & [-> Hroom]%append_Done & Hrun).
  apply bind_Done in Hrun as (s2 & Hlen2%sift_up_length & [= <- _]).
  rewrite length_app in Hlen2. simpl in Hlen2.
  split; simpl; rewrite Hlen2; [int64 | lia].
Qed.

Lemma pq_inv_Dequeue (q q' : PriorityQueue.t E) r :
  pq_inv q → PriorityQueue.Dequeue q = Done (q', r) → pq_inv q'.
Proof.
  intros Hinv Hrun.
  destruct (PriorityQueue.items q) as [|x rest] eqn:Hitems.
  - destruct Hinv as [Hsize Hlen]. rewrite Hitems in Hsize. simpl in Hsize.
    rewrite (Dequeue_empty q Hsize) in Hrun. injection Hrun as <- _.
    split; rewrite Hitems; [done | vm_compute; discriminate].
  - destruct (Dequeue_spec q x rest Hinv Hitems) as (q1 & Hrun1 & Hinv1 & _).
    rewrite Hrun1 in Hrun. by injection Hrun as <- _.
Qed.

Lemma pq_inv_RemoveWhere (q : PriorityQueue.t E) callback :
  pq_inv q → pq_inv (PriorityQueue.RemoveWhere q callback).
Proof.
  intros [_ Hlen]. unfold PriorityQueue.RemoveWhere.
  assert (length (PriorityQueue.DeleteFunc (PriorityQueue.items q) callback)
          ≤ length (PriorityQueue.items q))%nat
    by (rewrite DeleteFunc_filter; apply length_filter).
  split; simpl; [apply of_len_fits|]; lia.
Qed.

Lemma pq_inv_enqueue_all values : ∀ q q' : PriorityQueue.t E,
  pq_inv q → PriorityQueue.enqueue_all q values = Done q' → pq_inv q'.
Proof.
  induction values as [|v values IH]; intros q q' Hinv Hrun; simpl in Hrun.
  - by injection Hrun as <-.
  - apply bind_Done in Hrun as ([q1 b] & Henq & Hrun).
    eapply IH; [|exact Hrun]. by eapply pq_inv_Enqueue.
Qed.

Lemma pq_inv_Clear (q : PriorityQueue.t E) : pq_inv (PriorityQueue.Clear q).
Proof. split; [done | vm_compute; discriminate]. Qed.

Lemma pq_inv_call DeepEqual c (q q' : PriorityQueue.t E) o :
  pq_inv q → HeapHistory.call DeepEqual c q o = Done q' → pq_inv q'.
Proof.
  intros Hinv Hrun. destruct o; simpl in Hrun.
  - apply bind_Done in Hrun as ([q1 b] & Hrun & [= <-]).
    by eapply pq_inv_Enqueue.
  - apply bind_Done in Hrun as ([q1 b] & Hrun & [= <-]).
    by eapply pq_inv_Dequeue.
  - injection Hrun as <-. by apply pq_inv_RemoveWhere.
  - injection Hrun as <-. by apply pq_inv_RemoveWhere.
  - injection Hrun as <-. apply pq_inv_Clear.
  - apply bind_Done in Hrun as ([q1 e] & Hrun & [= <-]).
    unfold PriorityQueue.UnmarshalJSON in Hrun.
    destruct (Unmarshal c data); [by injection Hrun as <-|].
    apply bind_Done in Hrun as (q2 & Hrun & [= <- _]).
    eapply pq_inv_enqueue_all; [|exact Hrun]. apply pq_inv_Clear.
Qed.

Lemma pq_inv_run DeepEqual c ops : ∀ q q' : PriorityQueue.t E,
  pq_inv q → HeapHistory.run DeepEqual c q ops = Done q' → pq_inv q'.
Proof.
  induction ops as [|o ops IH]; intros q q' Hinv Hrun; simpl in Hrun.
  - by injection Hrun as <-.
  - apply bind_Done in Hrun as (q1 & Ho & Hrun).
    eapply IH; [|exact Hrun]. by eapply pq_inv_call.
Qed.
End SizeFacts.

(** C10. In BlockingQueue and PriorityQueue the size field is the
    number of elements in the slice: after construction and after every
    sequence of TryEnqueue, TryDequeue, Enqueue, Dequeue, Remove,
    RemoveWhere, Clear and UnmarshalJSON calls that return. So Count and
    IsEmpty, and the full and empty tests, see the true count. *)
Theorem size_is_length {E} `{GoZero E} (DeepEqual : E → E → bool) (c : Codec E)
    (cap : Z) (cmp : E → E → Z) (values : list E)
    (array_ops : list (ArrayHistory.op E)) (heap_ops : list (HeapHistory.op E))
    (qa : BlockingQueue.t E) (q0 qh : PriorityQueue.t E) :
  ArrayHistory.run DeepEqual c (BlockingQueue.NewBlockingQueue cap) array_ops
  = Done qa →
  PriorityQueue.NewPriorityQueue cmp values = Done q0 →
  HeapHistory.run DeepEqual c q0 heap_ops = Done qh →
  (BlockingQueue.size qa = Z.of_nat (length (BlockingQueue.items qa))
   ∧ BlockingQueue.Count qa = Z.of_nat (length (BlockingQueue.items qa))
   ∧ (BlockingQueue.IsEmpty qa = true ↔ BlockingQueue.items qa = [])
   ∧ ((BlockingQueue.cap qa =? BlockingQueue.size qa) = true
      ↔ Z.of_nat (length (BlockingQueue.items qa)) = BlockingQueue.cap qa))
  ∧ (PriorityQueue.size qh = Z.of_nat (length (PriorityQueue.items qh))
     ∧ PriorityQueue.Count qh = Z.of_nat (length (PriorityQueue.items qh))
     ∧ (PriorityQueue.IsEmpty qh = true ↔ PriorityQueue.items qh = [])).
Proof.
  intros Ha H0 Hh.
  assert (bq_inv qa) as [Hsa _].
  { eapply bq_inv_run; [apply bq_inv_new | exact Ha]. }
  assert (pq_inv qh) as [Hsh _].
  { eapply pq_inv_run; [|exact Hh].
    eapply pq_inv_enqueue_all; [|exact H0].
    split; [done | vm_compute; discriminate]. }
  split.
  - split; [done|]. split; [done|]. split.
    + unfold BlockingQueue.IsEmpty, BlockingQueue.Count. rewrite Hsa, Z.eqb_eq.
      destruct (BlockingQueue.items qa); simpl; split; try done; lia.
    + rewrite Z.eqb_eq, Hsa. split; auto.
  - split; [done|]. split; [done|].
    unfold PriorityQueue.IsEmpty, PriorityQueue.Count. rewrite Hsh, Z.eqb_eq.
    destruct (PriorityQueue.items qh); simpl; split; try done; lia.
Qed.

Lemma size_is_length_witness :
  let qa := BlockingQueue.Mk [1; 2] 2 3 in
  let qh := PriorityQueue.Mk 2 [2; 4] numeric_ascending in
  BlockingQueue.size qa = Z.of_nat (length (BlockingQueue.items qa))
  ∧ PriorityQueue.size qh = Z.of_nat (length (PriorityQueue.items qh)).
Proof.
  intros qa qh.
  pose (array_ops :=
          [ArrayHistory.Enqueue 7; ArrayHistory.TryEnqueue 1;
           ArrayHistory.TryEnqueue 7; ArrayHistory.TryEnqueue 9;
           ArrayHistory.Remove 7; ArrayHistory.Enqueue 8; ArrayHistory.Dequeue;
           ArrayHistory.TryDequeue; ArrayHistory.Clear;
           ArrayHistory.UnmarshalJSON Digits.one_two;
           ArrayHistory.RemoveWhere (λ x, x =? 5)]).
  pose (heap_ops :=
          [HeapHistory.Enqueue 4; HeapHistory.Dequeue; HeapHistory.Remove 3;
           HeapHistory.UnmarshalJSON Digits.cut_off;
           HeapHistory.RemoveWhere (λ x, x =? 5)]).
  pose (q0 := PriorityQueue.Mk 3 [1; 3; 2] numeric_ascending).
  assert (Ha : ArrayHistory.run Z.eqb Digits.codec
                 (BlockingQueue.NewBlockingQueue 3) array_ops = Done qa)
    by (vm_compute; reflexivity).
  assert (H0 : PriorityQueue.NewPriorityQueue numeric_ascending [3; 1; 2] = Done q0)
    by (vm_compute; reflexivity).
  assert (Hh : HeapHistory.run Z.eqb Digits.codec q0 heap_ops = Done qh)
    by (vm_compute; reflexivity).
  destruct (size_is_length Z.eqb Digits.codec 3 numeric_ascending [3; 1; 2]
              array_ops heap_ops qa q0 qh Ha H0 Hh) as [(Ha' & _) (Hh' & _)].
  split; assumption.
Defined.

(** ** JSON *)

Section JSONFacts.
Context {E : Type} `{GoZero E}.

(** The loop of [UnmarshalJSON] appends: nothing is cleared first. *)
Lemma array_put_all_spec values : ∀ q : BlockingQueue.t E,
  bq_inv q →
  BlockingQueue.size q + Z.of_nat (length values) <= BlockingQueue.cap q →
  BlockingQueue.cap q <= Int64.max_int →
  BlockingQueue.put_all q values
  = Done (BlockingQueue.Mk (BlockingQueue.items q ++ values)
            (BlockingQueue.size q + Z.of_nat (length values))
            (BlockingQueue.cap q)).
Proof.
  induction values as [|v values IH]; intros q [Hsize Hlen] Hroom Hcap.
  - simpl. rewrite app_nil_r, Z.add_0_r. by destruct q.
  - rewrite length_cons in Hroom. cbn [BlockingQueue.put_all].
    unfold BlockingQueue.put.
    destruct (Z.eqb_spec (BlockingQueue.size q) (BlockingQueue.cap q)); [lia|].
    rewrite append_fits by lia. rewrite !Done_bind. cbn [fst].
    rewrite IH; simpl.
    + rewrite <- app_assoc. simpl. do 2 f_equal. int64.
    + split; simpl; rewrite length_app; simpl; [int64 | lia].
    + assert (Int64.add (BlockingQueue.size q) 1 = BlockingQueue.size q + 1)
        as -> by int64. lia.
    + done.
Qed.

Lemma linked_put_all_spec values : ∀ q : LinkedBlockingQueue.t E,
  Z.of_nat (length (LinkedBlockingQueue.items q)) + Z.of_nat (length values)
    <= LinkedBlockingQueue.cap q →
  LinkedBlockingQueue.cap q <= Int64.max_int →
  LinkedBlockingQueue.put_all q values
  = Done (LinkedBlockingQueue.Mk (LinkedBlockingQueue.items q ++ values)
            (LinkedBlockingQueue.cap q)).
Proof.
  induction values as [|v values IH]; intros q Hroom Hcap.
  - simpl. rewrite app_nil_r. by destruct q.
  - rewrite length_cons in Hroom. cbn [LinkedBlockingQueue.put_all].
    unfold LinkedBlockingQueue.put.
    rewrite Count_length by (unfold ll_inv; lia).
    destruct (Z.eqb_spec (Z.of_nat (length (LinkedBlockingQueue.items q)))
                (LinkedBlockingQueue.cap q)); [lia|].
    rewrite IH; simpl.
    + by rewrite <- app_assoc.
    + rewrite length_app. simpl. lia.
    + done.
Qed.

Lemma heap_put_all_spec values : ∀ q : PriorityBlockingQueue.t E,
  irreflexive (PriorityQueue.comparator (PriorityBlockingQueue.items q)) →
  pq_inv (PriorityBlockingQueue.items q) →
  PriorityQueue.size (PriorityBlockingQueue.items q) + Z.of_nat (length values)
    <= PriorityBlockingQueue.cap q →
  PriorityBlockingQueue.cap q <= Int64.max_int →
  ∃ q', PriorityBlockingQueue.put_all q values = Done q'
        ∧ PriorityQueue.items (PriorityBlockingQueue.items q')
          ≡ₚ PriorityQueue.items (PriorityBlockingQueue.items q) ++ values
        ∧ pq_inv (PriorityBlockingQueue.items q')
        ∧ PriorityBlockingQueue.cap q' = PriorityBlockingQueue.cap q.
Proof.
  induction values as [|v values IH]; intros q Hirr Hinv Hroom Hcap.
  - exists q. simpl. by rewrite app_nil_r.
  - rewrite length_cons in Hroom. cbn [PriorityBlockingQueue.put_all].
    unfold PriorityQueue.Count, PriorityBlockingQueue.put.
    destruct (Z.eqb_spec (PriorityBlockingQueue.cap q)
                (PriorityQueue.size (PriorityBlockingQueue.items q))); [lia|].
    pose proof Hinv as [Hsize Hlen].
    destruct (Enqueue_spec (PriorityBlockingQueue.items q) v Hirr Hinv)
      as (q1 & Hrun & Hinv1 & Hcmp1 & Hperm1 & _); [lia|].
    rewrite Hrun, !Done_bind. cbn [fst snd].
    destruct (IH (PriorityBlockingQueue.Mk q1 (PriorityBlockingQueue.cap q)))
      as (q' & Hrun' & Hperm' & Hinv' & Hcap'); simpl.
    + unfold irreflexive. by rewrite Hcmp1.
    + done.
    + destruct Hinv1 as [-> _]. rewrite (Permutation_length Hperm1), length_cons.
      lia.
    + done.
    + exists q'. split; [done|]. split; [|done].
      simpl in Hperm'. rewrite Hperm', Hperm1.
      by rewrite <- Permutation_middle.
Qed.
End JSONFacts.

(** C7. On input that does not decode, UnmarshalJSON of PriorityQueue
    returns nil where the other variants return the error; every variant
    leaves the queue as it was. *)
Theorem UnmarshalJSON_malformed {E} `{GoZero E} (c : Codec E)
    (data : list Byte.byte) (err : error)
    (q : BlockingQueue.t E) (lbq : LinkedBlockingQueue.t E)
    (lq : LinkedQueue.t E) (pq : PriorityQueue.t E)
    (pbq : PriorityBlockingQueue.t E) :
  Unmarshal c data = inl err →
  PriorityQueue.UnmarshalJSON c pq data = Done (pq, None)
  ∧ BlockingQueue.UnmarshalJSON c q data = Done (q, Some err)
  ∧ LinkedBlockingQueue.UnmarshalJSON c lbq data = Done (lbq, Some err)
  ∧ LinkedQueue.UnmarshalJSON c lq data = (lq, Some err)
  ∧ PriorityBlockingQueue.UnmarshalJSON c pbq data = Done (pbq, Some err).
Proof.
  intros Herr.
  unfold PriorityQueue.UnmarshalJSON, BlockingQueue.UnmarshalJSON,
    LinkedBlockingQueue.UnmarshalJSON, LinkedQueue.UnmarshalJSON,
    LinkedList.UnmarshalJSON, PriorityBlockingQueue.UnmarshalJSON.
  rewrite Herr. repeat split. by destruct lq.
Qed.

(** The cut-off array [[1,] given to a PriorityQueue holding 7: the call
    reports success. *)
Lemma UnmarshalJSON_malformed_witness :
  Unmarshal Digits.codec Digits.cut_off = inl (JSONError 1)
  ∧ PriorityQueue.UnmarshalJSON Digits.codec
      (PriorityQueue.Mk 1 [7] numeric_ascending) Digits.cut_off
    = Done (PriorityQueue.Mk 1 [7] numeric_ascending, None).
Proof.
  split; [reflexivity|].
  apply (UnmarshalJSON_malformed Digits.codec Digits.cut_off (JSONError 1)
           (BlockingQueue.Mk [] 0 0) (LinkedBlockingQueue.Mk [] 0)
           (LinkedQueue.Mk []) (PriorityQueue.Mk 1 [7] numeric_ascending)
           (PriorityBlockingQueue.Mk (PriorityQueue.Mk 0 [] numeric_ascending) 0)).
  reflexivity.
Defined.

(** C8. A successful UnmarshalJSON of BlockingQueue, LinkedBlockingQueue
    and LinkedQueue keeps the elements that were there and appends the
    decoded ones: a queue holding 9 that decodes [[1,2]] holds 9, 1, 2. *)
Theorem UnmarshalJSON_appends {E} `{GoZero E} (c : Codec E)
    (data : list Byte.byte) (values : list E)
    (q : BlockingQueue.t E) (lbq : LinkedBlockingQueue.t E)
    (lq : LinkedQueue.t E) :
  Unmarshal c data = inr values →
  bq_inv q →
  BlockingQueue.size q + Z.of_nat (length values) <= BlockingQueue.cap q →
  BlockingQueue.cap q <= Int64.max_int →
  Z.of_nat (length (LinkedBlockingQueue.items lbq)) + Z.of_nat (length values)
    <= LinkedBlockingQueue.cap lbq →
  LinkedBlockingQueue.cap lbq <= Int64.max_int →
  BlockingQueue.UnmarshalJSON c q data
  = Done (BlockingQueue.Mk (BlockingQueue.items q ++ values)
            (BlockingQueue.size q + Z.of_nat (length values))
            (BlockingQueue.cap q), None)
  ∧ LinkedBlockingQueue.UnmarshalJSON c lbq data
    = Done (LinkedBlockingQueue.Mk (LinkedBlockingQueue.items lbq ++ values)
              (LinkedBlockingQueue.cap lbq), None)
  ∧ LinkedQueue.UnmarshalJSON c lq data
    = (LinkedQueue.Mk (LinkedQueue.items lq ++ values), None).
Proof.
  intros Hdec Hinv Hroom Hcap Hlroom Hlcap.
  unfold BlockingQueue.UnmarshalJSON, LinkedBlockingQueue.UnmarshalJSON,
    LinkedQueue.UnmarshalJSON, LinkedList.UnmarshalJSON.
  rewrite Hdec, array_put_all_spec, linked_put_all_spec, Push_app by done.
  done.
Qed.

Lemma UnmarshalJSON_appends_witness :
  BlockingQueue.UnmarshalJSON Digits.codec (BlockingQueue.Mk [9] 1 5) Digits.one_two
  = Done (BlockingQueue.Mk [9; 1; 2] 3 5, None)
  ∧ LinkedBlockingQueue.UnmarshalJSON Digits.codec
      (LinkedBlockingQueue.Mk [9] 5) Digits.one_two
    = Done (LinkedBlockingQueue.Mk [9; 1; 2] 5, None)
  ∧ LinkedQueue.UnmarshalJSON Digits.codec (LinkedQueue.Mk [9]) Digits.one_two
    = (LinkedQueue.Mk [9; 1; 2], None).
Proof.
  apply (UnmarshalJSON_appends Digits.codec Digits.one_two [1; 2]
           (BlockingQueue.Mk [9] 1 5) (LinkedBlockingQueue.Mk [9] 5)
           (LinkedQueue.Mk [9])).
  - reflexivity.
  - split; [reflexivity | vm_compute; discriminate].
  - vm_compute. discriminate.
  - vm_compute. discriminate.
  - vm_compute. discriminate.
  - vm_compute. discriminate.
Defined.

(** C9, as stated, fails where JSON does not give back what it was
    given: a queue of [any] that holds the int 1 is written as [[1]],
    and [[1]] decoded into a fresh queue of [any] is the float64 1. *)
Lemma json_round_trip_changes_int :
  BlockingQueue.ToJSON AnyJSON.codec (BlockingQueue.Mk [AnyJSON.Int 1] 1 1)
  = inr AnyJSON.one
  ∧ BlockingQueue.UnmarshalJSON AnyJSON.codec
      (BlockingQueue.NewBlockingQueue 1) AnyJSON.one
    = Done (BlockingQueue.Mk [AnyJSON.Float64 1] 1 1, None)
  ∧ LinkedQueue.ToJSON AnyJSON.codec (LinkedQueue.Mk [AnyJSON.Int 1])
    = Done (inr AnyJSON.one)
  ∧ LinkedQueue.UnmarshalJSON AnyJSON.codec (LinkedQueue.NewLinkedQueue [])
      AnyJSON.one
    = (LinkedQueue.Mk [AnyJSON.Float64 1], None)
  ∧ ¬ [AnyJSON.Float64 1] ≡ₚ [AnyJSON.Int 1].
Proof.
  split; [reflexivity|]. split; [reflexivity|]. split; [reflexivity|].
  split; [reflexivity|]. intros Hperm.
  apply Permutation_singleton_r in Hperm. discriminate.
Qed.

(** C9, amended. When [json.Unmarshal] gives back the slice of elements
    that [json.Marshal] wrote, the JSON of a queue decoded into a fresh
    queue of the same type and capacity gives the same sequence for
    BlockingQueue, LinkedBlockingQueue and LinkedQueue (the queue
    itself), and the same elements up to order for PriorityQueue and
    PriorityBlockingQueue. *)
Theorem json_round_trip {E} `{GoZero E} `{GoNil E} (c : Codec E)
    (q : BlockingQueue.t E) (lbq : LinkedBlockingQueue.t E)
    (lq : LinkedQueue.t E) (pq : PriorityQueue.t E)
    (pbq : PriorityBlockingQueue.t E)
    (d1 d2 d3 d4 d5 : list Byte.byte) :
  decodes_back c (BlockingQueue.items q) →
  decodes_back c (LinkedBlockingQueue.items lbq) →
  decodes_back c (LinkedQueue.items lq) →
  decodes_back c (PriorityQueue.items pq) →
  decodes_back c (PriorityQueue.items (PriorityBlockingQueue.items pbq)) →
  array_bounded q → linked_bounded lbq →
  pq_inv pq → irreflexive (PriorityQueue.comparator pq) →
  heap_bounded pbq →
  irreflexive (PriorityQueue.comparator (PriorityBlockingQueue.items pbq)) →
  BlockingQueue.ToJSON c q = inr d1 →
  LinkedBlockingQueue.ToJSON c lbq = Done (inr d2) →
  LinkedQueue.ToJSON c lq = Done (inr d3) →
  PriorityQueue.ToJSON c pq = inr d4 →
  PriorityBlockingQueue.ToJSON c pbq = inr d5 →
  BlockingQueue.UnmarshalJSON c
    (BlockingQueue.NewBlockingQueue (BlockingQueue.cap q)) d1 = Done (q, None)
  ∧ LinkedBlockingQueue.UnmarshalJSON c
      (LinkedBlockingQueue.NewLinkedBlockingQueue (LinkedBlockingQueue.cap lbq)) d2
    = Done (lbq, None)
  ∧ LinkedQueue.UnmarshalJSON c (LinkedQueue.NewLinkedQueue []) d3 = (lq, None)
  ∧ (∃ pq', PriorityQueue.UnmarshalJSON c
              (PriorityQueue.Mk 0 [] (PriorityQueue.comparator pq)) d4
            = Done (pq', None)
            ∧ PriorityQueue.items pq' ≡ₚ PriorityQueue.items pq)
  ∧ (∃ pbq', PriorityBlockingQueue.UnmarshalJSON c
               (PriorityBlockingQueue.Mk
                  (PriorityQueue.Mk 0 []
                     (PriorityQueue.comparator (PriorityBlockingQueue.items pbq)))
                  (PriorityBlockingQueue.cap pbq)) d5
             = Done (pbq', None)
             ∧ PriorityQueue.items (PriorityBlockingQueue.items pbq')
               ≡ₚ PriorityQueue.items (PriorityBlockingQueue.items pbq)).
Proof.
  intros Hc1 Hc2 Hc3 Hc4 Hc5 [[Hsize Hlen] Hcap] [Hlroom Hlcap] Hpq Hirr
    [Hpbq Hpcap] Hpirr H1 H2 H3 H4 H5.
  apply Hc1 in H1. apply Hc4 in H4. apply Hc5 in H5.
  assert (Unmarshal c d2 = inr (LinkedBlockingQueue.items lbq)) as H2'.
  { unfold LinkedBlockingQueue.ToJSON, LinkedList.MarshalJSON,
      LinkedList.ToJSON in H2.
    rewrite ToArray_spec in H2.
    destruct (holds_nil _); [discriminate|]. simpl in H2.
    injection H2 as H2. by apply Hc2. }
  assert (Unmarshal c d3 = inr (LinkedQueue.items lq)) as H3'.
  { unfold LinkedQueue.ToJSON, LinkedList.MarshalJSON, LinkedList.ToJSON in H3.
    rewrite ToArray_spec in H3.
    destruct (holds_nil _); [discriminate|]. simpl in H3.
    injection H3 as H3. by apply Hc3. }
  split; [|split; [|split; [|split]]].
  - unfold BlockingQueue.UnmarshalJSON. rewrite H1.
    rewrite array_put_all_spec; simpl;
      [|split; [done | vm_compute; discriminate] | lia | lia].
    destruct q; simpl in *. by rewrite Hsize.
  - unfold LinkedBlockingQueue.UnmarshalJSON. rewrite H2'.
    rewrite linked_put_all_spec; simpl; [|lia | done]. by destruct lbq.
  - unfold LinkedQueue.UnmarshalJSON, LinkedList.UnmarshalJSON. rewrite H3'.
    simpl. rewrite Push_app. by destruct lq.
  - unfold PriorityQueue.UnmarshalJSON. rewrite H4.
    destruct (enqueue_all_spec (PriorityQueue.items pq)
                (PriorityQueue.Clear
                   (PriorityQueue.Mk 0 [] (PriorityQueue.comparator pq))))
      as (pq' & Hrun & _ & _ & Hperm & _); simpl.
    + exact Hirr.
    + apply pq_inv_Clear.
    + destruct Hpq. lia.
    + rewrite Hrun, Done_bind. by exists pq'.
  - unfold PriorityBlockingQueue.UnmarshalJSON. rewrite H5.
    destruct Hpbq as [Hs Hl].
    destruct (heap_put_all_spec (PriorityQueue.items (PriorityBlockingQueue.items pbq))
                (PriorityBlockingQueue.Clear
                   (PriorityBlockingQueue.Mk
                      (PriorityQueue.Mk 0 []
                         (PriorityQueue.comparator (PriorityBlockingQueue.items pbq)))
                      (PriorityBlockingQueue.cap pbq))))
      as (pbq' & Hrun & Hperm & _); simpl.
    + exact Hpirr.
    + apply pq_inv_Clear.
    + lia.
    + lia.
    + rewrite Hrun, Done_bind. by exists pbq'.
Qed.

Lemma json_round_trip_witness :
  BlockingQueue.UnmarshalJSON Digits.codec (BlockingQueue.NewBlockingQueue 5)
    [x5b; x33; x2c; x31; x2c; x32; x5d]
  = Done (BlockingQueue.Mk [3; 1; 2] 3 5, None)
  ∧ ∃ pq', PriorityQueue.UnmarshalJSON Digits.codec
             (PriorityQueue.Mk 0 [] numeric_ascending)
             [x5b; x31; x2c; x33; x2c; x32; x5d]
           = Done (pq', None)
           ∧ PriorityQueue.items pq' ≡ₚ [1; 3; 2].
Proof.
  pose (heap := PriorityQueue.Mk 3 [1; 3; 2] numeric_ascending).
  destruct (json_round_trip Digits.codec
              (BlockingQueue.Mk [3; 1; 2] 3 5) (LinkedBlockingQueue.Mk [3; 1; 2] 5)
              (LinkedQueue.Mk [3; 1; 2]) heap (PriorityBlockingQueue.Mk heap 5)
              [x5b; x33; x2c; x31; x2c; x32; x5d]
              [x5b; x33; x2c; x31; x2c; x32; x5d]
              [x5b; x33; x2c; x31; x2c; x32; x5d]
              [x5b; x31; x2c; x33; x2c; x32; x5d]
              [x5b; x31; x2c; x33; x2c; x32; x5d])
    as (Ha & _ & _ & Hb & _).
  - exact (digits_lossless [3; 1; 2]).
  - exact (digits_lossless [3; 1; 2]).
  - exact (digits_lossless [3; 1; 2]).
  - exact (digits_lossless [1; 3; 2]).
  - exact (digits_lossless [1; 3; 2]).
  - split; [split; [reflexivity | vm_compute; discriminate]
           | split; vm_compute; discriminate].
  - split; vm_compute; discriminate.
  - split; [reflexivity | vm_compute; discriminate].
  - intros a. unfold heap. simpl. unfold numeric_ascending.
    repeat case_match; lia.
  - split; [split; [reflexivity | vm_compute; discriminate]
           | split; vm_compute; discriminate].
  - intros a. unfold heap. simpl. unfold numeric_ascending.
    repeat case_match; lia.
  - reflexivity.
  - reflexivity.
  - reflexivity.
  - reflexivity.
  - reflexivity.
  - split; [exact Ha | exact Hb].
Defined.

(** * Further properties of the code *)

(** ** The queues: what the other methods do *)

Section QueueMore.
Context {E : Type} `{GoZero E} `{GoNil E}.

Lemma index_Done_lookup (s : list E) i x :
  index s i = Done x → 0 <= i ∧ s !! Z.to_nat i = Some x.
Proof.
  unfold index, in_bounds.
  destruct (0 <=? i) eqn:Hpos; [|discriminate]. simpl.
  destruct (i <? Z.of_nat (length s)); [|discriminate].
  destruct (s !! Z.to_nat i); intros [= ->]. split; [lia | done].
Qed.

Lemma swap_Permutation (s s' : list E) i j :
  PriorityQueue.swap s i j = Done s' → s' ≡ₚ s.
Proof.
  unfold PriorityQueue.swap. intros Hrun.
  apply bind_Done in Hrun as (b & [_ Hb]%index_Done_lookup & Hrun).
  apply bind_Done in Hrun as (a & [_ Ha]%index_Done_lookup & [= <-]).
  by apply Permutation_insert_swap.
Qed.

(** Whatever the comparator, a sift-up that returns has only moved
    elements around. *)
Lemma sift_up_Permutation fuel cmp : ∀ (s s' : list E) i,
  PriorityQueue.sift_up fuel cmp s i = Done s' → s' ≡ₚ s.
Proof.
  induction fuel as [|fuel IH]; intros s s' i Hrun; [discriminate|].
  cbn [PriorityQueue.sift_up] in Hrun.
  apply bind_Done in Hrun as (c & _ & Hrun). destruct c.
  - apply bind_Done in Hrun as (s1 & Hswap & Hrun).
    rewrite (IH _ _ _ Hrun). by eapply swap_Permutation.
  - by injection Hrun as <-.
Qed.

(** A call of [Enqueue] that returns has returned true, found room for
    one more element, and holds the old elements and the new one. *)
Lemma Enqueue_Done (q q' : PriorityQueue.t E) v b :
  pq_inv q → PriorityQueue.Enqueue q v = Done (q', b) →
  b = true
  ∧ Z.of_nat (length (PriorityQueue.items q)) < Int64.max_int
  ∧ PriorityQueue.items q' ≡ₚ v :: PriorityQueue.items q
  ∧ PriorityQueue.comparator q' = PriorityQueue.comparator q
  ∧ PriorityQueue.size q' = PriorityQueue.size q + 1.
Proof.
  intros [Hsize Hlen] Hrun. unfold PriorityQueue.Enqueue in Hrun.
  apply bind_Done in Hrun as (s1 & [-> Hroom]%append_Done & Hrun).
  apply bind_Done in Hrun as (s2 & Hperm%sift_up_Permutation & [= <- <-]).
  simpl. repeat split; try done.
  - by rewrite Hperm, <- Permutation_cons_append.
  - int64.
Qed.

Lemma array_TryDequeue_cons (q : BlockingQueue.t E) x rest :
  bq_inv q → BlockingQueue.items q = x :: rest →
  BlockingQueue.TryDequeue q
  = Done (BlockingQueue.Mk rest (BlockingQueue.size q - 1) (BlockingQueue.cap q),
          (x, true)).
Proof.
  intros [Hsize Hlen] Hitems.
  unfold BlockingQueue.TryDequeue, BlockingQueue.take_head.
  rewrite Hitems in *. rewrite length_cons in Hsize, Hlen.
  destruct (Z.eqb_spec (BlockingQueue.size q) 0); [lia|].
  rewrite index_head, Done_bind, slice_from_tail, Done_bind.
  do 3 f_equal. int64.
Qed.

Lemma array_TryDequeue_nil (q : BlockingQueue.t E) :
  bq_inv q → BlockingQueue.items q = [] →
  BlockingQueue.TryDequeue q = Done (q, (zero, false)).
Proof.
  intros [Hsize _] Hitems. unfold BlockingQueue.TryDequeue.
  rewrite Hitems in Hsize. simpl in Hsize. by rewrite Hsize.
Qed.

Lemma linked_TryDequeue_cons (q : LinkedBlockingQueue.t E) x rest :
  ll_inv (LinkedBlockingQueue.items q) →
  LinkedBlockingQueue.items q = x :: rest →
  LinkedBlockingQueue.TryDequeue q
  = if is_nil x then Panics
    else Done (LinkedBlockingQueue.Mk rest (LinkedBlockingQueue.cap q), (x, true)).
Proof.
  intros Hl Hitems. unfold LinkedBlockingQueue.TryDequeue.
  destruct (LinkedList.IsEmpty _) eqn:Hempty.
  - apply IsEmpty_nil in Hempty; [congruence | done].
  - unfold LinkedBlockingQueue.take_head. rewrite Hitems, Shift_cons.
    by destruct (is_nil x).
Qed.

Lemma linked_Peek_cons (q : LinkedBlockingQueue.t E) x rest :
  ll_inv (LinkedBlockingQueue.items q) →
  LinkedBlockingQueue.items q = x :: rest →
  LinkedBlockingQueue.Peek q = if is_nil x then Panics else Done (x, true).
Proof.
  intros Hl Hitems. unfold LinkedBlockingQueue.Peek.
  destruct (LinkedList.IsEmpty _) eqn:Hempty.
  - apply IsEmpty_nil in Hempty; [congruence | done].
  - by rewrite Hitems, First_cons.
Qed.

Lemma heap_TryDequeue_cons (q : PriorityBlockingQueue.t E) x rest :
  pq_inv (PriorityBlockingQueue.items q) →
  PriorityQueue.items (PriorityBlockingQueue.items q) = x :: rest →
  ∃ q', PriorityBlockingQueue.TryDequeue q = Done (q', (x, true))
        ∧ pq_inv (PriorityBlockingQueue.items q')
        ∧ PriorityQueue.items (PriorityBlockingQueue.items q') ≡ₚ rest
        ∧ PriorityQueue.size (PriorityBlockingQueue.items q')
          = PriorityQueue.size (PriorityBlockingQueue.items q) - 1
        ∧ PriorityBlockingQueue.cap q' = PriorityBlockingQueue.cap q
        ∧ PriorityQueue.comparator (PriorityBlockingQueue.items q')
          = PriorityQueue.comparator (PriorityBlockingQueue.items q).
Proof.
  intros Hpq Hitems.
  destruct (Dequeue_spec _ x rest Hpq Hitems)
    as (q1 & Hrun & Hinv1 & Hcmp1 & Hsize1 & Hperm & _).
  unfold PriorityBlockingQueue.TryDequeue, PriorityBlockingQueue.take_root.
  destruct Hpq as [Hs _]. rewrite Hitems, length_cons in Hs.
  unfold PriorityQueue.Count.
  destruct (Z.eqb_spec (PriorityQueue.size (PriorityBlockingQueue.items q)) 0);
    [lia|].
  rewrite Hrun, Done_bind. eexists. split; [reflexivity|]. simpl. done.
Qed.

Lemma heap_TryDequeue_nil (q : PriorityBlockingQueue.t E) :
  pq_inv (PriorityBlockingQueue.items q) →
  PriorityQueue.items (PriorityBlockingQueue.items q) = [] →
  PriorityBlockingQueue.TryDequeue q = Done (q, (zero, false)).
Proof.
  intros [Hs _] Hitems. unfold PriorityBlockingQueue.TryDequeue, PriorityQueue.Count.
  rewrite Hitems in Hs. simpl in Hs. by rewrite Hs.
Qed.
End QueueMore.

(** X1. TryEnqueue of PriorityBlockingQueue returns false with the
    queue as it was exactly when the size equals the capacity; otherwise
    it inserts the value, the size grows by one, and a heap stays a
    heap. *)
Theorem heap_TryEnqueue_full_iff {E} `{GoZero E}
    (q : PriorityBlockingQueue.t E) (v : E) :
  pq_inv (PriorityBlockingQueue.items q) →
  irreflexive (PriorityQueue.comparator (PriorityBlockingQueue.items q)) →
  (∀ q', PriorityBlockingQueue.TryEnqueue q v = Done (q', false)
         ↔ PriorityBlockingQueue.Count q = PriorityBlockingQueue.cap q ∧ q' = q)
  ∧ (PriorityBlockingQueue.Count q ≠ PriorityBlockingQueue.cap q →
     Z.of_nat (length (PriorityQueue.items (PriorityBlockingQueue.items q)))
       < Int64.max_int →
     ∃ q', PriorityBlockingQueue.TryEnqueue q v = Done (q', true)
           ∧ PriorityQueue.items (PriorityBlockingQueue.items q')
             ≡ₚ v :: PriorityQueue.items (PriorityBlockingQueue.items q)
           ∧ PriorityBlockingQueue.Count q' = PriorityBlockingQueue.Count q + 1
           ∧ PriorityBlockingQueue.cap q' = PriorityBlockingQueue.cap q
           ∧ (Ordering (PriorityQueue.comparator (PriorityBlockingQueue.items q)) →
              heap_ordered (PriorityQueue.comparator (PriorityBlockingQueue.items q))
                (PriorityQueue.items (PriorityBlockingQueue.items q)) →
              heap_ordered (PriorityQueue.comparator (PriorityBlockingQueue.items q))
                (PriorityQueue.items (PriorityBlockingQueue.items q')))).
Proof.
  intros Hinv Hirr. split.
  - intros q'. unfold PriorityBlockingQueue.TryEnqueue, PriorityBlockingQueue.Count.
    destruct (Z.eqb_spec (PriorityBlockingQueue.cap q)
                (PriorityQueue.Count (PriorityBlockingQueue.items q))) as [Heq|Hne].
    + split; [intros [=]; done | intros [_ ->]; done].
    + split; [|intros [? _]; congruence].
      unfold PriorityBlockingQueue.put. intros Hrun.
      apply bind_Done in Hrun as ([q1 b] & Henq & [= _ Hb]).
      apply (Enqueue_Done _ _ _ _ Hinv) in Henq as [-> _]. discriminate.
  - intros Hne Hroom.
    unfold PriorityBlockingQueue.TryEnqueue, PriorityBlockingQueue.Count in *.
    destruct (Z.eqb_spec (PriorityBlockingQueue.cap q)
                (PriorityQueue.Count (PriorityBlockingQueue.items q)));
      [congruence|].
    destruct (Enqueue_spec (PriorityBlockingQueue.items q) v Hirr Hinv Hroom)
      as (q1 & Hrun & [Hs1 _] & _ & Hperm & Hheap).
    unfold PriorityBlockingQueue.put. rewrite Hrun, Done_bind.
    eexists. split; [reflexivity|]. simpl.
    split; [done|]. split; [|split; [done|done]].
    unfold PriorityQueue.Count. destruct Hinv as [-> _].
    rewrite Hs1, (Permutation_length Hperm), length_cons. lia.
Qed.

Lemma heap_TryEnqueue_full_iff_witness :
  PriorityBlockingQueue.TryEnqueue
    (PriorityBlockingQueue.Mk (PriorityQueue.Mk 2 [4; 5] numeric_ascending) 2) 1
  = Done (PriorityBlockingQueue.Mk (PriorityQueue.Mk 2 [4; 5] numeric_ascending) 2,
          false).
Proof.
  eapply (heap_TryEnqueue_full_iff
            (PriorityBlockingQueue.Mk (PriorityQueue.Mk 2 [4; 5] numeric_ascending) 2) 1).
  - split; [reflexivity | vm_compute; discriminate].
  - intros a. simpl. unfold numeric_ascending. repeat case_match; lia.
  - split; reflexivity.
Defined.



Section HeapHistories.
Context {E : Type} `{GoZero E} (cmp : E → E → Z) `{!Ordering cmp}.

Lemma heap_state_Enqueue (q q' : PriorityQueue.t E) v b :
  heap_state cmp q → PriorityQueue.Enqueue q v = Done (q', b) →
  heap_state cmp q'.
Proof.
  intros (Hinv & Hcmp & Hheap) Hrun.
  destruct (Enqueue_Done q q' v b Hinv Hrun) as (-> & Hroom & _).
  destruct (Enqueue_spec q v) as (q1 & Hrun1 & Hinv1 & Hcmp1 & _ & Hheap1);
    [rewrite Hcmp; exact (cmp_irrefl cmp) | done | done |].
  rewrite Hrun1 in Hrun. injection Hrun as <-.
  split; [done|]. split; [congruence|].
  rewrite Hcmp in Hheap1. auto.
Qed.

Lemma heap_state_enqueue_all values : ∀ q q' : PriorityQueue.t E,
  heap_state cmp q → PriorityQueue.enqueue_all q values = Done q' →
  heap_state cmp q'.
Proof.
  induction values as [|v values IH]; intros q q' Hst Hrun; simpl in Hrun.
  - by injection Hrun as <-.
  - apply bind_Done in Hrun as ([q1 b] & Henq & Hrun).
    eapply IH; [|exact Hrun]. by eapply heap_state_Enqueue.
Qed.

Lemma heap_state_put_all values : ∀ q q' : PriorityBlockingQueue.t E,
  heap_state cmp (PriorityBlockingQueue.items q) →
  PriorityBlockingQueue.put_all q values = Done q' →
  heap_ordered cmp (PriorityQueue.items (PriorityBlockingQueue.items q')).
Proof.
  induction values as [|v values IH]; intros q q' Hst Hrun;
    cbn [PriorityBlockingQueue.put_all] in Hrun.
  - injection Hrun as <-. apply Hst.
  - destruct (_ =? _); [discriminate|].
    apply bind_Done in Hrun as ([q1 b] & Hput & Hrun).
    unfold PriorityBlockingQueue.put in Hput.
    apply bind_Done in Hput as ([p1 b1] & Henq & [= <- _]).
    eapply IH; [|exact Hrun]. simpl. by eapply heap_state_Enqueue.
Qed.

Lemma heap_state_Dequeue (q q' : PriorityQueue.t E) r :
  heap_state cmp q → PriorityQueue.Dequeue q = Done (q', r) →
  heap_state cmp q'.
Proof.
  intros (Hinv & Hcmp & Hheap) Hrun.
  destruct (PriorityQueue.items q) as [|x rest] eqn:Hitems.
  - pose proof Hinv as [Hsize _]. rewrite Hitems in Hsize. simpl in Hsize.
    rewrite (Dequeue_empty q Hsize) in Hrun. injection Hrun as <- _.
    split; [done|]. split; [done|]. by rewrite Hitems.
  - destruct (Dequeue_spec q x rest Hinv Hitems)
      as (q1 & Hrun1 & Hinv1 & Hcmp1 & _ & _ & Hheap1).
    rewrite Hrun1 in Hrun. injection Hrun as <- _.
    split; [done|]. split; [congruence|].
    rewrite Hcmp, Hitems in Hheap1. auto.
Qed.

Lemma heap_state_new : heap_state cmp (PriorityQueue.Mk 0 [] cmp).
Proof.
  split; [split; [done | vm_compute; discriminate]|]. split; [done|].
  intros p c x y _ Hx. done.
Qed.

Lemma heap_state_Clear (q : PriorityQueue.t E) :
  heap_state cmp q → heap_state cmp (PriorityQueue.Clear q).
Proof.
  intros (_ & Hcmp & _). split; [apply pq_inv_Clear|]. split; [done|].
  intros p c x y _ Hx. done.
Qed.

Lemma heap_state_call DeepEqual c (q q' : PriorityQueue.t E) o :
  keeps_heap o = true → heap_state cmp q →
  HeapHistory.call DeepEqual c q o = Done q' → heap_state cmp q'.
Proof.
  intros Hkeep Hst Hrun. destruct o; simpl in Hrun; try discriminate.
  - apply bind_Done in Hrun as ([q1 b] & Hrun & [= <-]).
    by eapply heap_state_Enqueue.
  - apply bind_Done in Hrun as ([q1 b] & Hrun & [= <-]).
    by eapply heap_state_Dequeue.
  - injection Hrun as <-. by apply heap_state_Clear.
  - apply bind_Done in Hrun as ([q1 e] & Hrun & [= <-]).
    unfold PriorityQueue.UnmarshalJSON in Hrun.
    destruct (Unmarshal c data); [by injection Hrun as <-|].
    apply bind_Done in Hrun as (q2 & Hrun & [= <- _]).
    eapply heap_state_enqueue_all; [|exact Hrun]. by apply heap_state_Clear.
Qed.

Lemma heap_state_run DeepEqual c ops : ∀ q q' : PriorityQueue.t E,
  forallb keeps_heap ops = true → heap_state cmp q →
  HeapHistory.run DeepEqual c q ops = Done q' → heap_state cmp q'.
Proof.
  induction ops as [|o ops IH]; intros q q' Hkeep Hst Hrun; simpl in Hrun.
  - by injection Hrun as <-.
  - simpl in Hkeep. apply andb_prop in Hkeep as [Ho Hops].
    apply bind_Done in Hrun as (q1 & Hcall & Hrun).
    eapply IH; [done| |exact Hrun]. by eapply heap_state_call.
Qed.
End HeapHistories.

(** X3. After construction and any sequence of Enqueue, Dequeue, Clear
    and UnmarshalJSON calls (no Remove, no RemoveWhere) on a
    PriorityQueue whose comparator is an ordering, Peek and Dequeue on a
    non-empty queue return a minimal element of the queue. *)
Theorem Peek_minimal_without_removal {E} `{GoZero E} (cmp : E → E → Z)
    (DeepEqual : E → E → bool) (c : Codec E) (values : list E)
    (ops : list (HeapHistory.op E)) (q0 q : PriorityQueue.t E) :
  Ordering cmp →
  PriorityQueue.NewPriorityQueue cmp values = Done q0 →
  forallb keeps_heap ops = true →
  HeapHistory.run DeepEqual c q0 ops = Done q →
  PriorityQueue.items q ≠ [] →
  ∃ x q', PriorityQueue.Peek q = Done (x, true)
          ∧ PriorityQueue.Dequeue q = Done (q', (x, true))
          ∧ minimal_in cmp x (PriorityQueue.items q).
Proof.
  intros Hord Hnew Hkeep Hrun Hne.
  assert (heap_state cmp q) as (Hinv & Hcmp & Hheap).
  { eapply heap_state_run; [done|done| |exact Hrun].
    eapply heap_state_enqueue_all; [done| |exact Hnew]. by apply heap_state_new. }
  destruct (Peek_minimal q) as (x & Hpeek & Hmin);
    [by rewrite Hcmp | done | by rewrite Hcmp | done |].
  destruct (PriorityQueue.items q) as [|y rest] eqn:Hitems; [done|].
  destruct (Dequeue_spec q y rest Hinv Hitems) as (q' & Hdeq & _).
  assert (x = y) as ->.
  { unfold PriorityQueue.Peek in Hpeek. rewrite Hitems, index_head in Hpeek.
    destruct (_ =? _); [discriminate|]. by injection Hpeek as ->. }
  exists y, q'. rewrite Hcmp in Hmin. done.
Qed.

Lemma Peek_minimal_without_removal_witness :
  ∃ x q', PriorityQueue.Peek (PriorityQueue.Mk 3 [2; 3; 4] numeric_ascending)
          = Done (x, true)
          ∧ PriorityQueue.Dequeue (PriorityQueue.Mk 3 [2; 3; 4] numeric_ascending)
            = Done (q', (x, true))
          ∧ minimal_in numeric_ascending x [2; 3; 4].
Proof.
  apply (Peek_minimal_without_removal numeric_ascending Z.eqb Digits.codec
           [3; 1; 2]
           [HeapHistory.Enqueue 4; HeapHistory.Dequeue;
            HeapHistory.UnmarshalJSON Digits.cut_off]
           (PriorityQueue.Mk 3 [1; 3; 2] numeric_ascending)
           (PriorityQueue.Mk 3 [2; 3; 4] numeric_ascending)).
  - exact numeric_ascending_ordering.
  - vm_compute. reflexivity.
  - reflexivity.
  - vm_compute. reflexivity.
  - discriminate.
Defined.

Section CapacityFacts.
Context {E : Type} `{GoZero E}.

Lemma within_put cap0 (q q' : BlockingQueue.t E) v b :
  within cap0 q → BlockingQueue.size q ≠ BlockingQueue.cap q →
  BlockingQueue.put q v = Done (q', b) → within cap0 q'.
Proof.
  intros (Hinv & Hle & Hcap) Hne Hrun.
  split; [by eapply bq_inv_put|].
  destruct Hinv as [Hsize Hlen]. unfold BlockingQueue.put in Hrun.
  apply bind_Done in Hrun as (s & [-> Hroom]%append_Done & [= <- _]).
  simpl. split; [int64 | done].
Qed.

Lemma within_take_head cap0 (q q' : BlockingQueue.t E) r :
  within cap0 q → BlockingQueue.take_head q = Done (q', r) → within cap0 q'.
Proof.
  intros (Hinv & Hle & Hcap) Hrun.
  split; [by eapply bq_inv_take_head|].
  destruct Hinv as [Hsize Hlen]. unfold BlockingQueue.take_head in Hrun.
  apply bind_Done in Hrun as (x & Hx & Hrun).
  apply bind_Done in Hrun as (rest & _ & [= <- _]).
  destruct (BlockingQueue.items q); [discriminate|].
  rewrite length_cons in Hsize, Hlen. simpl. split; [int64 | done].
Qed.

Lemma within_keep cap0 (q : BlockingQueue.t E) (callback : E → bool) :
  within cap0 q →
  within cap0
    (BlockingQueue.Mk (keep_unless callback (BlockingQueue.items q) [])
       (Int64.of_len (keep_unless callback (BlockingQueue.items q) []))
       (BlockingQueue.cap q)).
Proof.
  intros (Hinv & Hle & Hcap). split; [by apply bq_inv_keep|].
  destruct Hinv as [Hsize Hlen]. simpl. split; [|done].
  pose proof (length_keep_unless callback (BlockingQueue.items q)).
  rewrite of_len_fits; lia.
Qed.

Lemma within_put_all cap0 values : ∀ q q' : BlockingQueue.t E,
  within cap0 q → BlockingQueue.put_all q values = Done q' → within cap0 q'.
Proof.
  induction values as [|v values IH]; intros q q' Hin Hrun; simpl in Hrun.
  - by injection Hrun as <-.
  - destruct (Z.eqb_spec (BlockingQueue.size q) (BlockingQueue.cap q));
      [discriminate|].
    apply bind_Done in Hrun as ([q1 b] & Hput & Hrun).
    eapply IH; [|exact Hrun]. by eapply within_put.
Qed.

Lemma within_call cap0 DeepEqual c (q q' : BlockingQueue.t E) o :
  0 <= cap0 → within cap0 q →
  ArrayHistory.call DeepEqual c q o = Done q' → within cap0 q'.
Proof.
  intros Hcap0 Hin Hrun. destruct o; simpl in Hrun.
  - apply bind_Done in Hrun as ([q1 b] & Hrun & [= <-]).
    unfold BlockingQueue.TryEnqueue in Hrun.
    destruct (Z.eqb_spec (BlockingQueue.cap q) (BlockingQueue.size q));
      [by injection Hrun as <- | eapply within_put; eauto].
  - apply bind_Done in Hrun as ([q1 b] & Hrun & [= <-]).
    unfold BlockingQueue.TryDequeue in Hrun.
    destruct (_ =? _); [by injection Hrun as <- | by eapply within_take_head].
  - apply bind_Done in Hrun as ([q1 b] & Hrun & [= <-]).
    unfold BlockingQueue.Enqueue in Hrun.
    destruct (Z.eqb_spec (BlockingQueue.cap q) (BlockingQueue.size q));
      [discriminate | eapply within_put; eauto].
  - apply bind_Done in Hrun as ([q1 b] & Hrun & [= <-]).
    unfold BlockingQueue.Dequeue in Hrun.
    destruct (_ =? _); [discriminate | by eapply within_take_head].
  - injection Hrun as <-. by apply within_keep.
  - injection Hrun as <-. by apply within_keep.
  - injection Hrun as <-. destruct Hin as (_ & _ & Hcap).
    split; [split; [done | vm_compute; discriminate]|]. simpl. split; [lia | done].
  - apply bind_Done in Hrun as ([q1 e] & Hrun & [= <-]).
    unfold BlockingQueue.UnmarshalJSON in Hrun.
    destruct (Unmarshal c data); [by injection Hrun as <-|].
    apply bind_Done in Hrun as (q2 & Hrun & [= <- _]).
    by eapply within_put_all.
Qed.

Lemma within_run cap0 DeepEqual c ops : ∀ q q' : BlockingQueue.t E,
  0 <= cap0 → within cap0 q →
  ArrayHistory.run DeepEqual c q ops = Done q' → within cap0 q'.
Proof.
  induction ops as [|o ops IH]; intros q q' Hcap0 Hin Hrun; simpl in Hrun.
  - by injection Hrun as <-.
  - apply bind_Done in Hrun as (q1 & Ho & Hrun).
    eapply IH; [done| |exact Hrun]. by eapply within_call.
Qed.
End CapacityFacts.

(** X4. A BlockingQueue made with a capacity that is not negative never
    holds more than its capacity: after every sequence of calls that
    returns, 0 <= Count() <= capacity, and the capacity is the one given
    to the constructor. *)
Theorem size_within_capacity {E} `{GoZero E} (DeepEqual : E → E → bool)
    (c : Codec E) (cap : Z) (ops : list (ArrayHistory.op E))
    (q : BlockingQueue.t E) :
  0 <= cap →
  ArrayHistory.run DeepEqual c (BlockingQueue.NewBlockingQueue cap) ops = Done q →
  0 <= BlockingQueue.Count q <= cap
  ∧ Z.of_nat (length (BlockingQueue.ToArray q)) <= cap
  ∧ BlockingQueue.cap q = cap.
Proof.
  intros Hcap Hrun.
  assert (within cap q) as ([Hsize _] & Hle & Hc).
  { eapply within_run; [done| |exact Hrun].
    split; [apply bq_inv_new|]. simpl. split; [lia | done]. }
  unfold BlockingQueue.Count, BlockingQueue.ToArray. lia.
Qed.

Lemma size_within_capacity_witness :
  0 <= BlockingQueue.Count (BlockingQueue.Mk [1; 9] 2 2) <= 2
  ∧ Z.of_nat (length (BlockingQueue.ToArray (BlockingQueue.Mk [1; 9] 2 2))) <= 2
  ∧ BlockingQueue.cap (BlockingQueue.Mk [1; 9] 2 2) = 2.
Proof.
  apply (size_within_capacity Z.eqb Digits.codec 2
           [ArrayHistory.TryEnqueue 7; ArrayHistory.Enqueue 1;
            ArrayHistory.TryEnqueue 8; ArrayHistory.Remove 7;
            ArrayHistory.TryEnqueue 9; ArrayHistory.TryEnqueue 3]).
  - lia.
  - vm_compute. reflexivity.
Defined.

(** X5. A successful UnmarshalJSON of PriorityQueue and of
    PriorityBlockingQueue discards whatever the queue held and leaves
    the decoded elements, arranged as a heap. *)
Theorem heap_UnmarshalJSON_replaces {E} `{GoZero E} (c : Codec E)
    (data : list Byte.byte) (values : list E)
    (pq : PriorityQueue.t E) (pbq : PriorityBlockingQueue.t E) :
  Unmarshal c data = inr values →
  irreflexive (PriorityQueue.comparator pq) →
  irreflexive (PriorityQueue.comparator (PriorityBlockingQueue.items pbq)) →
  Z.of_nat (length values) <= Int64.max_int →
  Z.of_nat (length values) <= PriorityBlockingQueue.cap pbq <= Int64.max_int →
  (∃ pq', PriorityQueue.UnmarshalJSON c pq data = Done (pq', None)
          ∧ PriorityQueue.items pq' ≡ₚ values
          ∧ PriorityQueue.Count pq' = Z.of_nat (length values)
          ∧ (Ordering (PriorityQueue.comparator pq) →
             heap_ordered (PriorityQueue.comparator pq) (PriorityQueue.items pq')))
  ∧ (∃ pbq', PriorityBlockingQueue.UnmarshalJSON c pbq data = Done (pbq', None)
             ∧ PriorityQueue.items (PriorityBlockingQueue.items pbq') ≡ₚ values
             ∧ PriorityBlockingQueue.Count pbq' = Z.of_nat (length values)
             ∧ PriorityBlockingQueue.cap pbq' = PriorityBlockingQueue.cap pbq
             ∧ (Ordering (PriorityQueue.comparator (PriorityBlockingQueue.items pbq)) →
                heap_ordered
                  (PriorityQueue.comparator (PriorityBlockingQueue.items pbq))
                  (PriorityQueue.items (PriorityBlockingQueue.items pbq')))).
Proof.
  intros Hdec Hirr Hpirr Hlen Hcap. split.
  - unfold PriorityQueue.UnmarshalJSON. rewrite Hdec.
    destruct (enqueue_all_spec values (PriorityQueue.Clear pq))
      as (pq' & Hrun & [Hs _] & _ & Hperm & Hheap); simpl.
    + exact Hirr.
    + apply pq_inv_Clear.
    + lia.
    + rewrite Hrun, Done_bind. exists pq'. split; [done|].
      simpl in Hperm, Hheap. split; [done|]. split.
      * unfold PriorityQueue.Count. by rewrite Hs, (Permutation_length Hperm).
      * intros Hord. apply Hheap; [done|]. intros p k x y _ Hx. done.
  - unfold PriorityBlockingQueue.UnmarshalJSON. rewrite Hdec.
    destruct (heap_put_all_spec values (PriorityBlockingQueue.Clear pbq))
      as (pbq' & Hrun & Hperm & [Hs _] & Hcap'); simpl.
    + exact Hpirr.
    + apply pq_inv_Clear.
    + lia.
    + lia.
    + rewrite Hrun, Done_bind. exists pbq'. split; [done|].
      simpl in Hperm. split; [done|]. split; [|split; [done|]].
      * unfold PriorityBlockingQueue.Count, PriorityQueue.Count.
        by rewrite Hs, (Permutation_length Hperm).
      * intros Hord.
        apply (heap_state_put_all
                 (PriorityQueue.comparator (PriorityBlockingQueue.items pbq))
                 values (PriorityBlockingQueue.Clear pbq) pbq'); [|done].
        split; [apply pq_inv_Clear|]. split; [done|].
        intros p k x y _ Hx. done.
Qed.

Lemma heap_UnmarshalJSON_replaces_witness :
  ∃ pq', PriorityQueue.UnmarshalJSON Digits.codec
           (PriorityQueue.Mk 1 [9] numeric_ascending) Digits.one_two
         = Done (pq', None)
         ∧ PriorityQueue.items pq' ≡ₚ [1; 2].
Proof.
  destruct (heap_UnmarshalJSON_replaces Digits.codec Digits.one_two [1; 2]
              (PriorityQueue.Mk 1 [9] numeric_ascending)
              (PriorityBlockingQueue.Mk (PriorityQueue.Mk 1 [9] numeric_ascending) 5))
    as [(pq' & Hrun & Hperm & _) _].
  - reflexivity.
  - intros a. simpl. unfold numeric_ascending. repeat case_match; lia.
  - intros a. simpl. unfold numeric_ascending. repeat case_match; lia.
  - vm_compute. discriminate.
  - split; vm_compute; discriminate.
  - by exists pq'.
Defined.

(** ** Nothing lost, nothing twice *)

Section TransferFacts.
Context {E : Type} `{GoZero E} `{GoNil E}.
Import Transfer.

Lemma array_step (q q' : BlockingQueue.t E) (l l' : log E) o :
  bq_inv q → accepted l = delivered l ++ BlockingQueue.items q →
  step q l o = Done (q', l') →
  bq_inv q' ∧ accepted l' = delivered l' ++ BlockingQueue.items q'.
Proof.
  intros Hinv Hlog Hrun.
  assert (Hput : ∀ v r, BlockingQueue.put q v = Done r →
            bq_inv r.1
            ∧ accepted (note_put l v r.2)
              = delivered (note_put l v r.2) ++ BlockingQueue.items r.1).
  { intros v [q1 b] Hput. split; [by eapply bq_inv_put|].
    unfold BlockingQueue.put in Hput.
    apply bind_Done in Hput as (s & [-> _]%append_Done & [= <- <-]).
    simpl. by rewrite Hlog, app_assoc. }
  assert (Htake : ∀ r, BlockingQueue.take_head q = Done r →
            bq_inv r.1
            ∧ accepted (note_take l r.2)
              = delivered (note_take l r.2) ++ BlockingQueue.items r.1).
  { intros [q1 [x b]] Htake. split; [by eapply bq_inv_take_head|].
    unfold BlockingQueue.take_head in Htake.
    apply bind_Done in Htake as (y & Hy & Htake).
    apply bind_Done in Htake as (rest & Hrest & [= <- <- <-]).
    destruct (BlockingQueue.items q) as [|z s] eqn:Hitems; [discriminate|].
    rewrite index_head in Hy. injection Hy as <-.
    rewrite slice_from_tail in Hrest. injection Hrest as <-.
    simpl. by rewrite Hlog, <- app_assoc. }
  destruct o; simpl in Hrun;
    apply bind_Done in Hrun as (r & Hcall & [= <- <-]).
  - unfold BlockingQueue.TryEnqueue in Hcall.
    destruct (_ =? _); [by injection Hcall as <- | by apply Hput].
  - unfold BlockingQueue.Enqueue in Hcall.
    destruct (_ =? _); [discriminate | by apply Hput].
  - unfold BlockingQueue.TryDequeue in Hcall.
    destruct (_ =? _); [by injection Hcall as <- | by apply Htake].
  - unfold BlockingQueue.Dequeue in Hcall.
    destruct (_ =? _); [discriminate | by apply Htake].
Qed.

Lemma linked_step (q q' : LinkedBlockingQueue.t E) (l l' : log E) o :
  accepted l = delivered l ++ LinkedBlockingQueue.items q →
  step q l o = Done (q', l') →
  accepted l' = delivered l' ++ LinkedBlockingQueue.items q'.
Proof.
  intros Hlog Hrun.
  assert (Hput : ∀ v,
            accepted (note_put l v true)
            = delivered (note_put l v true)
              ++ LinkedBlockingQueue.items (LinkedBlockingQueue.put q v)).
  { intros v. simpl. by rewrite Hlog, app_assoc. }
  assert (Htake : ∀ r, LinkedBlockingQueue.take_head q = Done r →
            LinkedList.IsEmpty (LinkedBlockingQueue.items q) = false →
            accepted (note_take l r.2)
            = delivered (note_take l r.2) ++ LinkedBlockingQueue.items r.1).
  { intros r Htake Hne. unfold LinkedBlockingQueue.take_head in Htake.
    destruct (LinkedBlockingQueue.items q) as [|x s] eqn:Hitems; [done|].
    rewrite Shift_cons in Htake. destruct (is_nil x); [discriminate|].
    simpl in Htake. injection Htake as <-.
    simpl. by rewrite Hlog, <- app_assoc. }
  destruct o; simpl in Hrun.
  - injection Hrun as <- <-. unfold LinkedBlockingQueue.TryEnqueue.
    destruct (_ =? _); [done | apply Hput].
  - apply bind_Done in Hrun as (r & Hcall & [= <- <-]).
    unfold LinkedBlockingQueue.Enqueue in Hcall.
    destruct (_ =? _); [discriminate|]. injection Hcall as <-. apply Hput.
  - apply bind_Done in Hrun as (r & Hcall & [= <- <-]).
    unfold LinkedBlockingQueue.TryDequeue in Hcall.
    destruct (LinkedList.IsEmpty _) eqn:Hempty;
      [by injection Hcall as <- | by apply Htake].
  - apply bind_Done in Hrun as (r & Hcall & [= <- <-]).
    unfold LinkedBlockingQueue.Dequeue in Hcall.
    destruct (LinkedList.IsEmpty _) eqn:Hempty; [discriminate|].
    by apply Htake.
Qed.

Lemma heap_step (q q' : PriorityBlockingQueue.t E) (l l' : log E) o :
  pq_inv (PriorityBlockingQueue.items q) →
  accepted l ≡ₚ delivered l ++ contents q →
  step q l o = Done (q', l') →
  pq_inv (PriorityBlockingQueue.items q')
  ∧ accepted l' ≡ₚ delivered l' ++ contents q'.
Proof.
  intros Hinv Hlog Hrun.
  change (contents q) with (PriorityQueue.items (PriorityBlockingQueue.items q))
    in Hlog.
  assert (Hput : ∀ v r, PriorityBlockingQueue.put q v = Done r →
            pq_inv (PriorityBlockingQueue.items r.1)
            ∧ accepted (note_put l v r.2)
              ≡ₚ delivered (note_put l v r.2) ++ contents r.1).
  { intros v [q1 b] Hput. unfold PriorityBlockingQueue.put in Hput.
    apply bind_Done in Hput as ([p1 b1] & Henq & [= <- <-]).
    split; [by eapply pq_inv_Enqueue|].
    destruct (Enqueue_Done _ _ _ _ Hinv Henq) as (-> & _ & Hperm & _).
    simpl in *. rewrite Hperm, Hlog.
    etrans; [symmetry; apply Permutation_cons_append | apply Permutation_middle]. }
  assert (Htake : ∀ r, PriorityBlockingQueue.take_root q = Done r →
            pq_inv (PriorityBlockingQueue.items r.1)
            ∧ accepted (note_take l r.2)
              ≡ₚ delivered (note_take l r.2) ++ contents r.1).
  { intros [q1 [x b]] Htake. unfold PriorityBlockingQueue.take_root in Htake.
    apply bind_Done in Htake as ([p1 [y b1]] & Hdeq & [= <- <- <-]).
    split; [by eapply pq_inv_Dequeue|].
    destruct (PriorityQueue.items (PriorityBlockingQueue.items q))
      as [|z rest] eqn:Hitems.
    - destruct Hinv as [Hs _]. rewrite Hitems in Hs. simpl in Hs.
      rewrite (Dequeue_empty _ Hs) in Hdeq. injection Hdeq as <- <- <-.
      unfold note_take. simpl. by rewrite Hitems.
    - destruct (Dequeue_spec _ z rest Hinv Hitems)
        as (p2 & Hrun2 & _ & _ & _ & Hperm & _).
      rewrite Hrun2 in Hdeq. injection Hdeq as <- <- <-.
      unfold note_take. simpl. rewrite Hlog, Hperm. by rewrite <- app_assoc. }
  destruct o; simpl in Hrun;
    apply bind_Done in Hrun as (r & Hcall & [= <- <-]).
  - unfold PriorityBlockingQueue.TryEnqueue in Hcall.
    destruct (_ =? _); [by injection Hcall as <- | by apply Hput].
  - unfold PriorityBlockingQueue.Enqueue in Hcall.
    destruct (_ =? _); [discriminate | by apply Hput].
  - unfold PriorityBlockingQueue.TryDequeue in Hcall.
    destruct (_ =? _); [by injection Hcall as <- | by apply Htake].
  - unfold PriorityBlockingQueue.Dequeue in Hcall.
    destruct (PriorityQueue.IsEmpty _); [discriminate | by apply Htake].
Qed.
End TransferFacts.

(** X6. On BlockingQueue and LinkedBlockingQueue, for every interleaving
    of TryEnqueue, Enqueue, TryDequeue and Dequeue calls that returns:
    the values handed out so far, followed by the values still in the
    queue, are the values accepted so far, in the order of acceptance.
    (A removal from a LinkedBlockingQueue whose head is the nil of an
    interface element type panics: such a run does not return.) *)
Theorem fifo_nothing_lost {E} `{GoZero E} `{GoNil E} (cap lcap : Z)
    (ops lops : list (Transfer.op E))
    (q : BlockingQueue.t E) (lq : LinkedBlockingQueue.t E)
    (l ll : Transfer.log E) :
  Transfer.play (BlockingQueue.NewBlockingQueue cap) (Transfer.Log [] []) ops
  = Done (q, l) →
  Transfer.play (LinkedBlockingQueue.NewLinkedBlockingQueue lcap)
    (Transfer.Log [] []) lops = Done (lq, ll) →
  Transfer.accepted l = Transfer.delivered l ++ BlockingQueue.ToArray q
  ∧ Transfer.accepted ll
    = Transfer.delivered ll ++ LinkedBlockingQueue.items lq.
Proof.
  intros Hrun Hlrun. split.
  - assert (∀ ops (q0 : BlockingQueue.t E) l0,
              bq_inv q0 →
              Transfer.accepted l0 = Transfer.delivered l0 ++ BlockingQueue.items q0 →
              Transfer.play q0 l0 ops = Done (q, l) →
              Transfer.accepted l = Transfer.delivered l ++ BlockingQueue.items q)
      as Hgen.
    { clear. induction ops as [|o ops IH]; intros q0 l0 Hinv Hlog Hrun;
        simpl in Hrun.
      - by injection Hrun as <- <-.
      - apply bind_Done in Hrun as ([q1 l1] & Hstep & Hrun).
        destruct (array_step _ _ _ _ _ Hinv Hlog Hstep). eauto. }
    apply (Hgen ops (BlockingQueue.NewBlockingQueue cap) (Transfer.Log [] []));
      [apply bq_inv_new | reflexivity | exact Hrun].
  - assert (∀ lops (q0 : LinkedBlockingQueue.t E) l0,
              Transfer.accepted l0
              = Transfer.delivered l0 ++ LinkedBlockingQueue.items q0 →
              Transfer.play q0 l0 lops = Done (lq, ll) →
              Transfer.accepted ll
              = Transfer.delivered ll ++ LinkedBlockingQueue.items lq)
      as Hgen.
    { clear. induction lops as [|o ops IH]; intros q0 l0 Hlog Hrun;
        simpl in Hrun.
      - by injection Hrun as <- <-.
      - apply bind_Done in Hrun as ([q1 l1] & Hstep & Hrun).
        pose proof (linked_step _ _ _ _ _ Hlog Hstep). eauto. }
    apply (Hgen lops (LinkedBlockingQueue.NewLinkedBlockingQueue lcap)
             (Transfer.Log [] [])); [reflexivity | exact Hlrun].
Qed.

Lemma fifo_nothing_lost_witness :
  Transfer.accepted (Transfer.Log [1; 2; 4] [1])
  = Transfer.delivered (Transfer.Log [1; 2; 4] [1])
    ++ BlockingQueue.ToArray (BlockingQueue.Mk [2; 4] 2 2).
Proof.
  eapply (fifo_nothing_lost 2 2
            [Transfer.Put 1; Transfer.TryPut 2; Transfer.TryPut 3;
             Transfer.Take; Transfer.Put 4]
            [Transfer.TryTake]).
  - vm_compute. reflexivity.
  - vm_compute. reflexivity.
Defined.

(** X7. On PriorityBlockingQueue, for every interleaving of TryEnqueue,
    Enqueue, TryDequeue and Dequeue calls that returns: the values
    handed out and the values still in the queue are together the
    values accepted, each as often as it was accepted. *)
Theorem heap_nothing_lost {E} `{GoZero E} (cmp : E → E → Z) (cap : Z)
    (ops : list (Transfer.op E)) (q : PriorityBlockingQueue.t E)
    (l : Transfer.log E) :
  Transfer.play
    (PriorityBlockingQueue.Mk (PriorityQueue.Mk 0 [] cmp) cap)
    (Transfer.Log [] []) ops = Done (q, l) →
  Transfer.accepted l
  ≡ₚ Transfer.delivered l ++ PriorityBlockingQueue.ToArray q.
Proof.
  intros Hrun.
  assert (∀ ops (q0 : PriorityBlockingQueue.t E) l0,
            pq_inv (PriorityBlockingQueue.items q0) →
            Transfer.accepted l0 ≡ₚ Transfer.delivered l0 ++ Transfer.contents q0 →
            Transfer.play q0 l0 ops = Done (q, l) →
            Transfer.accepted l ≡ₚ Transfer.delivered l ++ Transfer.contents q)
    as Hgen.
  { clear. induction ops as [|o ops IH]; intros q0 l0 Hinv Hlog Hrun;
      simpl in Hrun.
    - by injection Hrun as <- <-.
    - apply bind_Done in Hrun as ([q1 l1] & Hstep & Hrun).
      destruct (heap_step _ _ _ _ _ Hinv Hlog Hstep). eauto. }
  apply (Hgen ops (PriorityBlockingQueue.Mk (PriorityQueue.Mk 0 [] cmp) cap)
           (Transfer.Log [] [])); [|reflexivity|exact Hrun].
  split; [done | vm_compute; discriminate].
Qed.

Lemma heap_nothing_lost_witness :
  ∃ q l, Transfer.play
           (PriorityBlockingQueue.Mk (PriorityQueue.Mk 0 [] numeric_ascending) 2)
           (Transfer.Log [] [])
           [Transfer.Put 5; Transfer.TryPut 2; Transfer.TryPut 3;
            Transfer.Take; Transfer.Put 4] = Done (q, l)
         ∧ Transfer.accepted l
           ≡ₚ Transfer.delivered l ++ PriorityBlockingQueue.ToArray q.
Proof.
  eexists _, _. split; [vm_compute; reflexivity|].
  eapply (heap_nothing_lost numeric_ascending 2
            [Transfer.Put 5; Transfer.TryPut 2; Transfer.TryPut 3;
             Transfer.Take; Transfer.Put 4]).
  vm_compute. reflexivity.
Defined.

(** ** LinkedList: the other methods *)

Section LinkedListMore.
Context {E : Type} `{GoZero E} `{GoNil E}.
Implicit Types (l : LinkedList.t E).

Lemma reverse_loop_rev (front l : list E) :
  LinkedList.reverse_loop front l = rev l ++ front.
Proof.
  revert front. induction l as [|e l IH]; intros front; simpl; [done|].
  by rewrite IH, <- app_assoc.
Qed.

Lemma Unshift_rev l values : LinkedList.Unshift l values = rev values ++ l.
Proof.
  revert l. induction values as [|v values IH]; intros l; simpl; [done|].
  by rewrite IH, <- app_assoc.
Qed.

Lemma Pop_snoc l x :
  LinkedList.Pop (l ++ [x]) = if is_nil x then Panics else Done (l, (x, true)).
Proof.
  unfold LinkedList.Pop. rewrite rev_app_distr. simpl.
  unfold type_assert. destruct (is_nil x); simpl; [done|].
  by rewrite rev_involutive.
Qed.

Lemma Last_snoc l x :
  LinkedList.Last (l ++ [x]) = if is_nil x then Panics else Done (x, true).
Proof.
  unfold LinkedList.Last. rewrite rev_app_distr. simpl.
  unfold type_assert. by destruct (is_nil x).
Qed.

Lemma where_loop_filter l (callback : E → bool) : ∀ linked,
  LinkedList.where_loop l callback linked
  = if holds_nil l then Panics
    else Done (linked ++ filter (λ x, callback x = true) l).
Proof.
  induction l as [|e l IH]; intros linked; simpl.
  - by rewrite app_nil_r.
  - unfold type_assert. destruct (is_nil e); simpl; [done|].
    destruct (callback e) eqn:He; simpl.
    + rewrite IH, ?Push_app, filter_cons, decide_True by done.
      destruct (holds_nil l); [done|]. by rewrite <- app_assoc.
    + rewrite IH, filter_cons, decide_False by congruence. done.
Qed.

Lemma FirstWhere_filter l (callback : E → bool) :
  holds_nil l = false →
  LinkedList.FirstWhere l callback
  = LinkedList.First (filter (λ x, callback x = true) l).
Proof.
  induction l as [|e l IH]; simpl; [done|].
  intros [He Hl]%orb_false_iff.
  unfold type_assert. rewrite He. simpl.
  rewrite filter_cons. destruct (callback e) eqn:Hc.
  - rewrite decide_True by done. simpl. unfold type_assert. by rewrite He.
  - rewrite decide_False by congruence. by apply IH.
Qed.

(** The walk panics at a nil element that it reaches. *)
Lemma FirstWhere_meets_nil l (callback : E → bool) : ∀ (k : nat) x,
  l !! k = Some x → is_nil x = true →
  (∀ j y, (j < k)%nat → l !! j = Some y → callback y = false) →
  LinkedList.FirstWhere l callback = Panics.
Proof.
  induction l as [|e l IH]; intros k x Hk Hx Hbefore; [done|].
  simpl. unfold type_assert.
  destruct k as [|k]; simpl in Hk.
  - injection Hk as ->. by rewrite Hx.
  - destruct (is_nil e); simpl; [done|].
    rewrite (Hbefore 0%nat e) by (done || lia).
    apply (IH k x); [done | done |].
    intros j y Hj Hy. apply (Hbefore (S j)); [lia | done].
Qed.

Lemma filter_rev (P : E → Prop) `{∀ x, Decision (P x)} (s : list E) :
  filter P (rev s) = rev (filter P s).
Proof.
  induction s as [|a s IH]; simpl; [done|].
  rewrite filter_app, IH, !filter_cons, filter_nil.
  destruct (decide (P a)); simpl; [done | by rewrite app_nil_r].
Qed.
End LinkedListMore.

(** X8. Reverse turns the list front to back, and doing it twice gives
    the list back. *)
Theorem Reverse_reverses {E} `{GoZero E} `{GoNil E} (l : LinkedList.t E) :
  LinkedList.Reverse l = rev l
  ∧ LinkedList.ToArray (LinkedList.Reverse l)
    = (items ← LinkedList.ToArray l; Done (rev items))
  ∧ LinkedList.Reverse (LinkedList.Reverse l) = l.
Proof.
  assert (Hrev : ∀ s : LinkedList.t E, LinkedList.Reverse s = rev s).
  { intros s. unfold LinkedList.Reverse. by rewrite reverse_loop_rev, app_nil_r. }
  split; [done|]. split.
  - rewrite Hrev, !ToArray_spec, holds_nil_rev. by destruct (holds_nil l).
  - rewrite !Hrev. apply rev_involutive.
Qed.

(** X9. Unshift puts each value in front of the ones before it, so the
    values end up at the front in reverse order and the last value given
    is the one First and Shift return. Both read it through a type
    assertion: they panic when it is the nil of an interface element
    type. *)
Theorem Unshift_order {E} `{GoZero E} `{GoNil E} (l : LinkedList.t E)
    (values : list E) (v : E) :
  LinkedList.Unshift l values = rev values ++ l
  ∧ LinkedList.First (LinkedList.Unshift l (values ++ [v]))
    = (if is_nil v then Panics else Done (v, true))
  ∧ LinkedList.Shift (LinkedList.Unshift l (values ++ [v]))
    = (if is_nil v then Panics
       else Done (LinkedList.Unshift l values, (v, true))).
Proof.
  rewrite !Unshift_rev, rev_app_distr. split; [done|]. split.
  - apply First_cons.
  - apply (Shift_cons v).
Qed.

(** X10. Push appends the values in the order given. Pop takes from the
    back: after a Push it returns the last value pushed and leaves the
    list as it was before, Last returns that value without removing it,
    and a Pop that returns a value has removed exactly the back of the
    list. Both read the value through a type assertion and panic when it
    is the nil of an interface element type. On an empty list, and only
    there, Pop returns the zero value and false. *)
Theorem Pop_and_Push {E} `{GoZero E} `{GoNil E} (l : LinkedList.t E)
    (values : list E) (x : E) :
  LinkedList.Push l values = l ++ values
  ∧ LinkedList.Pop (LinkedList.Push l [x])
    = (if is_nil x then Panics else Done (l, (x, true)))
  ∧ LinkedList.Last (LinkedList.Push l [x])
    = (if is_nil x then Panics else Done (x, true))
  ∧ (∀ l' r, LinkedList.Pop l = Done (l', (r, true))
             ↔ l = l' ++ [r] ∧ is_nil r = false)
  ∧ (∀ l' r, LinkedList.Pop l = Done (l', (r, false))
             ↔ l = [] ∧ l' = [] ∧ r = zero).
Proof.
  rewrite !Push_app, Pop_snoc, Last_snoc.
  split; [done|]. split; [done|]. split; [done|].
  destruct l as [|back before _] using rev_ind.
  - split; intros l' r; split.
    + discriminate.
    + intros [Hl _]. by destruct l'.
    + by intros [= <- <-].
    + by intros (_ & -> & ->).
  - split; intros l' r; rewrite Pop_snoc.
    + destruct (is_nil back) eqn:Hback; split.
      * discriminate.
      * intros [[-> ->]%app_inj_tail Hr]. congruence.
      * by intros [= <- <-].
      * by intros [[-> ->]%app_inj_tail _].
    + split.
      * destruct (is_nil back); discriminate.
      * intros (Hl & _). by destruct before.
Qed.

Lemma Pop_and_Push_witness :
  LinkedList.Pop [4; 5; 6] = Done ([4; 5], (6, true)).
Proof.
  apply (Pop_and_Push [4; 5; 6] [] 0). split; reflexivity.
Defined.

(** X11. Where keeps the elements the callback accepts, in their order,
    and panics when the list holds the nil of an interface element type.
    On a list without one, FirstWhere returns the first of the accepted
    elements and LastWhere the last, or the zero value and false when
    there is none; FirstWhere panics when it reaches a nil before an
    element the callback accepts. *)
Theorem Where_selects {E} `{GoZero E} `{GoNil E} (l : LinkedList.t E)
    (callback : E → bool) :
  LinkedList.Where l callback
  = (if holds_nil l then Panics
     else Done (filter (λ x, callback x = true) l))
  ∧ (holds_nil l = false →
     LinkedList.FirstWhere l callback
     = LinkedList.First (filter (λ x, callback x = true) l)
     ∧ LinkedList.LastWhere l callback
       = LinkedList.Last (filter (λ x, callback x = true) l)
     ∧ ((∀ x, x ∈ l → callback x = false) →
        LinkedList.FirstWhere l callback = Done (zero, false)
        ∧ LinkedList.LastWhere l callback = Done (zero, false)))
  ∧ (∀ (k : nat) x, l !! k = Some x → is_nil x = true →
       (∀ j y, (j < k)%nat → l !! j = Some y → callback y = false) →
       LinkedList.FirstWhere l callback = Panics).
Proof.
  split; [|split].
  - unfold LinkedList.Where. by rewrite where_loop_filter.
  - intros Hl.
    assert (LinkedList.LastWhere l callback
            = LinkedList.Last (filter (λ x, callback x = true) l)) as Hlast.
    { unfold LinkedList.LastWhere, LinkedList.Last.
      rewrite FirstWhere_filter by (by rewrite holds_nil_rev).
      by rewrite filter_rev. }
    split; [by apply FirstWhere_filter|]. split; [done|]. intros Hnone.
    assert (filter (λ x, callback x = true) l = []) as Hnil.
    { clear Hl Hlast. induction l as [|e l IH]; [done|].
      rewrite filter_cons_False.
      - apply IH. intros x Hx. apply Hnone. by right.
      - rewrite (Hnone e) by left. done. }
    rewrite Hlast, FirstWhere_filter, Hnil by done. done.
  - apply FirstWhere_meets_nil.
Qed.

Lemma Where_selects_witness :
  LinkedList.FirstWhere [1; 2] (λ x, x =? 5) = Done (0, false)
  ∧ LinkedList.LastWhere [1; 2] (λ x, x =? 5) = Done (0, false).
Proof.
  destruct (Where_selects [1; 2] (λ x, x =? 5)) as (_ & Hfirst & _).
  destruct (Hfirst eq_refl) as (_ & _ & Hnone).
  apply Hnone.
  intros x Hx. apply list_elem_of_In in Hx. simpl in Hx.
  destruct Hx as [<-|[<-|[]]]; reflexivity.
Defined.

Section IndexedLoops.
Context {E : Type} `{GoZero E} `{GoNil E}.
Implicit Types (l : LinkedList.t E).

Lemma next_index (n : nat) :
  Z.of_nat n < Int64.max_int → Int64.add (Z.of_nat n) 1 = Z.of_nat (S n).
Proof. intros. int64. Qed.

(** The counter of a walk that started at 0 is the position. *)
Lemma get_loop_lookup l : ∀ (n k : nat) x,
  Z.of_nat (n + length l) <= Int64.max_int →
  l !! k = Some x →
  LinkedList.get_loop l (Z.of_nat n) (Z.of_nat (n + k)) = type_assert x.
Proof.
  induction l as [|e l IH]; intros n k x Hfit Hk; [done|].
  rewrite length_cons in Hfit. cbn [LinkedList.get_loop].
  destruct k as [|k]; simpl in Hk.
  - injection Hk as ->. rewrite Nat.add_0_r, Z.eqb_refl. done.
  - destruct (Z.eqb_spec (Z.of_nat n) (Z.of_nat (n + S k))); [lia|].
    rewrite next_index by (unfold Int64.max_int in *; lia).
    replace (n + S k)%nat with (S n + k)%nat by lia.
    apply IH; [lia | done].
Qed.

Lemma set_loop_out l : ∀ (n : nat) index v,
  Z.of_nat (n + length l) <= Int64.max_int →
  index < Z.of_nat n ∨ Z.of_nat (n + length l) <= index →
  LinkedList.set_loop l (Z.of_nat n) index v = l.
Proof.
  induction l as [|e l IH]; intros n index v Hfit Hout; [done|].
  rewrite length_cons in Hfit, Hout. cbn [LinkedList.set_loop].
  destruct (Z.eqb_spec (Z.of_nat n) index); [lia|].
  rewrite next_index by (unfold Int64.max_int in *; lia).
  f_equal. apply IH; lia.
Qed.

Lemma set_loop_insert l : ∀ (n k : nat) v,
  Z.of_nat (n + length l) <= Int64.max_int →
  LinkedList.set_loop l (Z.of_nat n) (Z.of_nat (n + k)) v = <[k := v]> l.
Proof.
  induction l as [|e l IH]; intros n k v Hfit; [done|].
  rewrite length_cons in Hfit. cbn [LinkedList.set_loop].
  rewrite next_index by (unfold Int64.max_int in *; lia).
  destruct k as [|k]; simpl.
  - rewrite Nat.add_0_r, Z.eqb_refl. f_equal.
    apply set_loop_out; lia.
  - destruct (Z.eqb_spec (Z.of_nat n) (Z.of_nat (n + S k))); [lia|].
    f_equal. replace (n + S k)%nat with (S n + k)%nat by lia.
    apply IH. lia.
Qed.

Lemma remove_at_loop_delete l : ∀ (n k : nat),
  Z.of_nat (n + length l) <= Int64.max_int →
  LinkedList.remove_at_loop l (Z.of_nat n) (Z.of_nat (n + k)) = delete k l.
Proof.
  induction l as [|e l IH]; intros n k Hfit; [done|].
  rewrite length_cons in Hfit. cbn [LinkedList.remove_at_loop].
  destruct k as [|k]; simpl.
  - by rewrite Nat.add_0_r, Z.eqb_refl.
  - destruct (Z.eqb_spec (Z.of_nat n) (Z.of_nat (n + S k))); [lia|].
    rewrite next_index by (unfold Int64.max_int in *; lia).
    f_equal. replace (n + S k)%nat with (S n + k)%nat by lia.
    apply IH. lia.
Qed.

Lemma remove_at_loop_out l : ∀ (n : nat) index,
  Z.of_nat (n + length l) <= Int64.max_int →
  index < Z.of_nat n ∨ Z.of_nat (n + length l) <= index →
  LinkedList.remove_at_loop l (Z.of_nat n) index = l.
Proof.
  induction l as [|e l IH]; intros n index Hfit Hout; [done|].
  rewrite length_cons in Hfit, Hout. cbn [LinkedList.remove_at_loop].
  destruct (Z.eqb_spec (Z.of_nat n) index); [lia|].
  rewrite next_index by (unfold Int64.max_int in *; lia).
  f_equal. apply IH; lia.
Qed.

(** The two searching walks stop at the first element that is nil or
    that the callback accepts. *)
Lemma search_stops l (callback : E → bool) : ∀ (n k : nat) x,
  Z.of_nat (n + length l) <= Int64.max_int →
  l !! k = Some x →
  (∀ j y, (j < k)%nat → l !! j = Some y →
     is_nil y = false ∧ callback y = false) →
  (is_nil x = true →
   LinkedList.index_of_loop l (Z.of_nat n) callback = Panics
   ∧ LinkedList.ContainsWhere l callback = Panics)
  ∧ (is_nil x = false → callback x = true →
     LinkedList.index_of_loop l (Z.of_nat n) callback = Done (Z.of_nat (n + k))
     ∧ LinkedList.ContainsWhere l callback = Done true).
Proof.
  induction l as [|e l IH]; intros n k x Hfit Hk Hbefore; [done|].
  rewrite length_cons in Hfit. simpl. unfold type_assert.
  destruct k as [|k]; simpl in Hk.
  - injection Hk as ->. rewrite Nat.add_0_r. split.
    + by intros ->.
    + intros Hx Hc. rewrite Hx. simpl. by rewrite Hc.
  - destruct (Hbefore 0%nat e) as [He Hc]; [lia | done|].
    rewrite He. simpl. rewrite Hc.
    rewrite next_index by (unfold Int64.max_int in *; lia).
    replace (n + S k)%nat with (S n + k)%nat by lia.
    apply IH; [lia | done |].
    intros j y Hj Hy. apply (Hbefore (S j)); [lia | done].
Qed.

Lemma search_finds_none l (callback : E → bool) : ∀ (n : nat),
  Z.of_nat (n + length l) <= Int64.max_int →
  (LinkedList.index_of_loop l (Z.of_nat n) callback = Done (-1)
   ↔ holds_nil l = false ∧ ∀ x, x ∈ l → callback x = false)
  ∧ (LinkedList.ContainsWhere l callback = Done false
     ↔ holds_nil l = false ∧ ∀ x, x ∈ l → callback x = false).
Proof.
  induction l as [|e l IH]; intros n Hfit.
  - simpl. split; (split; [|done]); intros _; (split; [done|]);
      intros x Hx; by apply elem_of_nil in Hx.
  - rewrite length_cons in Hfit. simpl. unfold type_assert.
    destruct (is_nil e); simpl.
    { split; (split; [done | by intros [? _]]). }
    rewrite next_index by (unfold Int64.max_int in *; lia).
    destruct (IH (S n)) as [Hidx Hcon]; [lia|].
    assert (Hcons : callback e = false →
              (holds_nil l = false ∧ (∀ x, x ∈ l → callback x = false))
              ↔ (holds_nil l = false ∧ ∀ x, x ∈ e :: l → callback x = false)).
    { intros He. split; intros [Hl Hall]; (split; [done|]); intros x Hx.
      - apply elem_of_cons in Hx as [->|Hx]; auto.
      - apply Hall. by right. }
    destruct (callback e) eqn:He.
    + split; (split; [intros [=]; lia || done|]); intros [_ Hall];
        specialize (Hall e ltac:(left)); congruence.
    + rewrite Hidx, Hcon. split; by apply Hcons.
Qed.
End IndexedLoops.

(** X12. Get returns the element at the index, through a type assertion;
    it panics when the index is outside the list and when the element
    there is the nil of an interface element type. Set replaces the
    element at an index inside the list, so that Get finds the new value
    there and what it found before elsewhere, and changes nothing for an
    index outside. *)
Theorem Get_and_Set {E} `{GoZero E} `{GoNil E} (l : LinkedList.t E)
    (index : Z) (v : E) :
  ll_inv l →
  (∀ x, 0 <= index → l !! Z.to_nat index = Some x →
     LinkedList.Get l index = if is_nil x then Panics else Done x)
  ∧ (index < 0 ∨ Z.of_nat (length l) <= index →
     LinkedList.Get l index = Panics)
  ∧ (0 <= index < Z.of_nat (length l) →
     LinkedList.Set_ l index v = <[Z.to_nat index := v]> l
     ∧ LinkedList.Get (LinkedList.Set_ l index v) index
       = (if is_nil v then Panics else Done v)
     ∧ ∀ j, j ≠ index →
         LinkedList.Get (LinkedList.Set_ l index v) j = LinkedList.Get l j)
  ∧ (index < 0 ∨ Z.of_nat (length l) <= index →
     LinkedList.Set_ l index v = l).
Proof.
  intros Hl. unfold ll_inv in Hl.
  assert (Hget : ∀ (s : LinkedList.t E) i,
            Z.of_nat (length s) <= Int64.max_int →
            (i < 0 ∨ Z.of_nat (length s) <= i → LinkedList.Get s i = Panics)
            ∧ (∀ x, 0 <= i → s !! Z.to_nat i = Some x →
                 LinkedList.Get s i = if is_nil x then Panics else Done x)).
  { intros s i Hs. unfold LinkedList.Get. rewrite (of_len_fits s Hs). split.
    - intros Hout.
      destruct (Z.ltb_spec i 0); [done|].
      destruct (Z.geb_spec i (Z.of_nat (length s))); [done | lia].
    - intros x Hi Hx. pose proof (lookup_lt_Some _ _ _ Hx).
      destruct (Z.ltb_spec i 0); [lia|].
      destruct (Z.geb_spec i (Z.of_nat (length s))); [lia|]. simpl.
      pose proof (get_loop_lookup s 0 (Z.to_nat i) x) as Hloop.
      simpl in Hloop. rewrite Z2Nat.id in Hloop by done.
      change (Z.of_nat 0) with 0 in Hloop.
      rewrite Hloop; [done | lia | done]. }
  assert (Hset : 0 <= index →
            LinkedList.Set_ l index v = <[Z.to_nat index := v]> l).
  { intros Hi. pose proof (set_loop_insert l 0 (Z.to_nat index) v) as Hloop.
    simpl in Hloop. rewrite Z2Nat.id in Hloop by done. apply Hloop. lia. }
  split; [|split; [|split]].
  - intros x Hpos Hx. by apply Hget.
  - by apply Hget.
  - intros Hin. rewrite Hset by lia. split; [done|]. split.
    + apply Hget; [by rewrite length_insert | lia |].
      apply list_lookup_insert_eq. lia.
    + intros j Hj.
      assert (Hl' : Z.of_nat (length (<[Z.to_nat index := v]> l)) <= Int64.max_int)
        by (by rewrite length_insert).
      destruct (Z.lt_ge_cases j 0) as [Hneg|Hpos].
      { rewrite (proj1 (Hget _ j Hl')), (proj1 (Hget l j Hl)); [done | lia | lia]. }
      destruct (l !! Z.to_nat j) as [y|] eqn:Hy.
      * rewrite (proj2 (Hget l j Hl) y Hpos Hy).
        apply Hget; [done | done |].
        rewrite list_lookup_insert_ne by lia. done.
      * apply lookup_ge_None in Hy.
        rewrite (proj1 (Hget _ j Hl')), (proj1 (Hget l j Hl));
          [done | lia | rewrite length_insert; lia].
  - intros Hout. unfold LinkedList.Set_.
    apply (set_loop_out l 0 index v); simpl; lia.
Qed.

Lemma Get_and_Set_witness :
  LinkedList.Get (LinkedList.Set_ [4; 5; 6] 1 9) 1 = Done 9
  ∧ LinkedList.Get [4; 5; 6] 3 = Panics
  ∧ LinkedList.Get [AnyJSON.Int 4; AnyJSON.Nil] 1 = Panics.
Proof.
  assert (Hl : ll_inv [4; 5; 6]) by (vm_compute; discriminate).
  assert (Hl' : ll_inv [AnyJSON.Int 4; AnyJSON.Nil]) by (vm_compute; discriminate).
  split; [|split].
  - destruct (Get_and_Set [4; 5; 6] 1 9 Hl) as (_ & _ & Hin & _).
    apply Hin. simpl. lia.
  - destruct (Get_and_Set [4; 5; 6] 3 9 Hl) as (_ & Hout & _).
    apply Hout. right. simpl. lia.
  - destruct (Get_and_Set [AnyJSON.Int 4; AnyJSON.Nil] 1 AnyJSON.Nil Hl')
      as (Hfound & _).
    apply (Hfound AnyJSON.Nil); [lia | reflexivity].
Defined.

(** X13. RemoveAt takes out the element at the index and keeps the
    others in order; for an index outside the list it changes nothing
    (it does not panic). *)
Theorem RemoveAt_deletes {E} `{GoZero E} (l : LinkedList.t E) (index : Z) :
  ll_inv l →
  (0 <= index < Z.of_nat (length l) →
   LinkedList.RemoveAt l index = delete (Z.to_nat index) l
   ∧ LinkedList.Count (LinkedList.RemoveAt l index) = LinkedList.Count l - 1)
  ∧ (index < 0 ∨ Z.of_nat (length l) <= index →
     LinkedList.RemoveAt l index = l).
Proof.
  intros Hl. unfold ll_inv in Hl. split.
  - intros Hin.
    assert (LinkedList.RemoveAt l index = delete (Z.to_nat index) l) as ->.
    { pose proof (remove_at_loop_delete l 0 (Z.to_nat index)) as Hloop.
      simpl in Hloop. rewrite Z2Nat.id in Hloop by lia. apply Hloop. lia. }
    split; [done|]. unfold LinkedList.Count.
    assert (Hlen : length (delete (Z.to_nat index) l) = (length l - 1)%nat).
    { apply length_delete, lookup_lt_is_Some_2. lia. }
    rewrite !of_len_fits; rewrite ?Hlen; lia.
  - intros Hout. apply (remove_at_loop_out l 0 index); simpl; lia.
Qed.

Lemma RemoveAt_deletes_witness :
  LinkedList.RemoveAt [4; 5; 6] 1 = [4; 6]
  ∧ LinkedList.RemoveAt [4; 5; 6] 3 = [4; 5; 6].
Proof.
  assert (Hl : ll_inv [4; 5; 6]) by (vm_compute; discriminate).
  split.
  - destruct (RemoveAt_deletes [4; 5; 6] 1 Hl) as [Hin _].
    destruct Hin as [Hdel _]; [simpl; lia|]. exact Hdel.
  - destruct (RemoveAt_deletes [4; 5; 6] 3 Hl) as [_ Hout].
    apply Hout. right. simpl. lia.
Defined.

(** X14. IndexOfWhere and ContainsWhere walk from the front and give each
    element to the callback through a type assertion. They stop at the
    first element that is the nil of an interface element type, with a
    panic, or that the callback accepts, with its position and with
    true. IndexOfWhere returns -1, and ContainsWhere false, exactly when
    the list holds no nil and the callback accepts none of its
    elements. *)
Theorem IndexOfWhere_first {E} `{GoZero E} `{GoNil E} (l : LinkedList.t E)
    (callback : E → bool) :
  ll_inv l →
  (LinkedList.IndexOfWhere l callback = Done (-1)
   ↔ holds_nil l = false ∧ ∀ x, x ∈ l → callback x = false)
  ∧ (LinkedList.ContainsWhere l callback = Done false
     ↔ holds_nil l = false ∧ ∀ x, x ∈ l → callback x = false)
  ∧ (∀ (k : nat) x, l !! k = Some x →
       (∀ j y, (j < k)%nat → l !! j = Some y →
          is_nil y = false ∧ callback y = false) →
       (is_nil x = true →
        LinkedList.IndexOfWhere l callback = Panics
        ∧ LinkedList.ContainsWhere l callback = Panics)
       ∧ (is_nil x = false → callback x = true →
          LinkedList.IndexOfWhere l callback = Done (Z.of_nat k)
          ∧ LinkedList.ContainsWhere l callback = Done true)).
Proof.
  intros Hl. unfold ll_inv in Hl. unfold LinkedList.IndexOfWhere.
  destruct (search_finds_none l callback 0) as [Hidx Hcon]; [simpl; lia|].
  split; [done|]. split; [done|].
  intros k x Hk Hbefore.
  apply (search_stops l callback 0 k x); [simpl; lia | done | done].
Qed.

Lemma IndexOfWhere_first_witness :
  LinkedList.IndexOf Z.eqb [4; 5; 6; 5] 5 = Done 1
  ∧ LinkedList.IndexOf Z.eqb [4; 5; 6; 5] 7 = Done (-1).
Proof.
  assert (Hl : ll_inv [4; 5; 6; 5]) by (vm_compute; discriminate).
  split.
  - destruct (IndexOfWhere_first [4; 5; 6; 5] (λ item, item =? 5) Hl)
      as (_ & _ & Hfirst).
    destruct (Hfirst 1%nat 5 eq_refl) as [_ Hfound].
    + intros j y Hj Hy. destruct j; [|lia]. injection Hy as <-. done.
    + by destruct Hfound.
  - destruct (IndexOfWhere_first [4; 5; 6; 5] (λ item, item =? 7) Hl)
      as (Hnone & _).
    apply Hnone. split; [reflexivity|].
    intros x Hx. apply list_elem_of_In in Hx. simpl in Hx.
    destruct Hx as [<-|[<-|[<-|[<-|[]]]]]; reflexivity.
Defined.

Section ListTransforms.
Context {E : Type} `{GoZero E} `{GoNil E}.
Implicit Types (l : LinkedList.t E).

Lemma holds_nil_cons (x : E) (s : list E) :
  holds_nil (x :: s) = is_nil x || holds_nil s.
Proof. reflexivity. Qed.

Lemma holds_nil_Permutation (s1 s2 : list E) :
  s1 ≡ₚ s2 → holds_nil s1 = holds_nil s2.
Proof.
  induction 1 as [|x s1 s2 _ IH|x y s|s1 s2 s3 _ IH1 _ IH2];
    rewrite ?holds_nil_cons.
  - done.
  - by rewrite IH.
  - by destruct (is_nil x), (is_nil y).
  - congruence.
Qed.

Lemma sub_loop_take l : ∀ (n : nat) from to acc,
  Z.of_nat (n + length l) <= Int64.max_int →
  LinkedList.sub_loop l (Z.of_nat n) from to acc
  = if holds_nil (take (Z.to_nat to - Nat.max (Z.to_nat from) n)
                    (drop (Z.to_nat from - n) l))
    then Panics
    else Done (acc ++ take (Z.to_nat to - Nat.max (Z.to_nat from) n)
                        (drop (Z.to_nat from - n) l)).
Proof.
  induction l as [|e l IH]; intros n from to acc Hfit.
  - by rewrite drop_nil, take_nil, app_nil_r.
  - rewrite length_cons in Hfit. cbn [LinkedList.sub_loop].
    rewrite next_index by (unfold Int64.max_int in *; lia).
    destruct (Z.ltb_spec (Z.of_nat n) from) as [Hbefore|Hfrom].
    + replace (Z.to_nat from - n)%nat with (S (Z.to_nat from - S n)) by lia.
      rewrite skipn_cons.
      replace (Nat.max (Z.to_nat from) n) with (Nat.max (Z.to_nat from) (S n))
        by lia.
      apply IH. lia.
    + destruct (Z.geb_spec (Z.of_nat n) from); [|lia].
      replace (Z.to_nat from - n)%nat with 0%nat by lia. rewrite drop_0.
      destruct (Z.ltb_spec (Z.of_nat n) to) as [Hto|Hpast]; simpl andb; cbv iota.
      * replace (Z.to_nat to - Nat.max (Z.to_nat from) n)%nat
          with (S (Z.to_nat to - Nat.max (Z.to_nat from) (S n))) by lia.
        rewrite firstn_cons, holds_nil_cons.
        unfold type_assert. destruct (is_nil e); [done|].
        rewrite Done_bind, IH, Push_app by lia.
        replace (Z.to_nat from - S n)%nat with 0%nat by lia. rewrite drop_0.
        simpl orb. destruct (holds_nil _); [done|].
        by rewrite <- app_assoc.
      * replace (Z.to_nat to - Nat.max (Z.to_nat from) n)%nat with 0%nat by lia.
        by rewrite take_0, app_nil_r.
Qed.

(** Sort: one insertion. *)
Lemma sort_insert_cons (cmp : E → E → Z) v node (rest : list E) :
  is_nil v = false → is_nil node = false →
  LinkedList.sort_insert cmp v (node :: rest)
  = if cmp v node <? 0 then Done (v :: node :: rest)
    else placed ← LinkedList.sort_insert cmp v rest; Done (node :: placed).
Proof.
  intros Hv Hnode. cbn [LinkedList.sort_insert].
  by rewrite (type_assert_ok v Hv), (type_assert_ok node Hnode), !Done_bind.
Qed.

Lemma sort_insert_spec (cmp : E → E → Z) v (s : list E) :
  is_nil v = false → holds_nil s = false →
  ∃ placed, LinkedList.sort_insert cmp v s = Done placed
    ∧ placed ≡ₚ v :: s
    ∧ ((∀ x, x ∈ s → ¬ cmp v x < 0) → placed = s ++ [v]).
Proof.
  intros Hv. induction s as [|node s IH]; intros Hs.
  - exists [v]. done.
  - rewrite holds_nil_cons in Hs. apply orb_false_iff in Hs as [Hnode Hs].
    rewrite sort_insert_cons by done.
    destruct (Z.ltb_spec (cmp v node) 0) as [Hlt|Hge].
    + eexists. split; [done|]. split; [done|].
      intros Hall. destruct (Hall node); [by left | done].
    + destruct (IH Hs) as (placed & -> & Hperm & Hback). rewrite Done_bind.
      eexists. split; [done|]. split.
      * rewrite Hperm. apply Permutation_swap.
      * intros Hall. simpl. f_equal. apply Hback.
        intros x Hx. apply Hall. by right.
Qed.

Lemma sort_insert_Sorted (cmp : E → E → Z) `{!Ordering cmp} v (s : list E) :
  is_nil v = false → holds_nil s = false →
  Sorted (not_after cmp) s →
  ∀ placed, LinkedList.sort_insert cmp v s = Done placed →
    Sorted (not_after cmp) placed
    ∧ ∀ a, not_after cmp a v → HdRel (not_after cmp) a s →
           HdRel (not_after cmp) a placed.
Proof.
  intros Hv Hs Hsorted. induction Hsorted as [|node s Hsorted IH Hhd];
    intros placed Hrun.
  - injection Hrun as <-. split; [by repeat constructor|].
    intros a Ha _. by constructor.
  - rewrite holds_nil_cons in Hs. apply orb_false_iff in Hs as [Hnode Hs].
    rewrite sort_insert_cons in Hrun by done.
    destruct (Z.ltb_spec (cmp v node) 0) as [Hlt|Hge].
    + injection Hrun as <-. split.
      * constructor; [by constructor|]. constructor.
        intros Hback. apply (cmp_irrefl cmp v).
        by apply (cmp_trans cmp v node v).
      * intros a Ha _. by constructor.
    + apply bind_Done in Hrun as (placed' & Hrun & [= <-]).
      destruct (IH Hs placed' Hrun) as [Hsorted' Hhd'].
      split.
      * constructor; [done|]. apply Hhd'; [|done]. unfold not_after. lia.
      * intros a _ Ha. apply HdRel_inv in Ha. by constructor.
Qed.

Lemma not_after_transitive (cmp : E → E → Z) `{!Ordering cmp} (a b c : E) :
  not_after cmp a b → not_after cmp b c → not_after cmp a c.
Proof. unfold not_after. intros Hab Hbc. by apply (cmp_neg_trans cmp c b a). Qed.

Lemma sort_loop_spec (cmp : E → E → Z) `{!Ordering cmp} l : ∀ acc,
  holds_nil l = false → holds_nil acc = false →
  Sorted (not_after cmp) acc →
  ∃ s, LinkedList.sort_loop l cmp acc = Done s
    ∧ s ≡ₚ acc ++ l
    ∧ Sorted (not_after cmp) s
    ∧ (StronglySorted (not_after cmp) (acc ++ l) → s = acc ++ l).
Proof.
  induction l as [|e l IH]; intros acc Hl Hacc Hsorted.
  - exists acc. simpl. by rewrite app_nil_r.
  - rewrite holds_nil_cons in Hl. apply orb_false_iff in Hl as [He Hl].
    destruct (sort_insert_spec cmp e acc He Hacc) as (placed & Hrun & Hperm & Hback).
    destruct (sort_insert_Sorted cmp e acc He Hacc Hsorted placed Hrun)
      as [Hplaced _].
    cbn [LinkedList.sort_loop]. rewrite Hrun, Done_bind.
    destruct (IH placed Hl) as (s & -> & Hs & Hss & Hsame); [|done|].
    { rewrite (holds_nil_Permutation _ _ Hperm), holds_nil_cons, He. done. }
    exists s. split; [done|]. split; [|split; [done|]].
    + rewrite Hs, Hperm. apply Permutation_middle.
    + intros Hstrong.
      assert (placed = acc ++ [e]) as ->.
      { apply Hback. clear -Hstrong.
        induction acc as [|a acc IHacc]; intros x Hx.
        - by apply elem_of_nil in Hx.
        - simpl in Hstrong. apply StronglySorted_inv in Hstrong as [Hstrong Ha].
          apply elem_of_cons in Hx as [->|Hx]; [|by apply IHacc].
          rewrite Forall_forall in Ha. apply Ha.
          apply elem_of_app. right. by left. }
      rewrite <- app_assoc in Hsame. simpl in Hsame.
      by apply Hsame.
Qed.

Lemma sort_loop_panics (cmp : E → E → Z) l : ∀ acc,
  acc ≠ [] → holds_nil acc = false → holds_nil l = true →
  LinkedList.sort_loop l cmp acc = Panics.
Proof.
  induction l as [|e l IH]; intros acc Hne Hacc Hl; [done|].
  cbn [LinkedList.sort_loop]. rewrite holds_nil_cons in Hl.
  destruct (is_nil e) eqn:He.
  - destruct acc as [|node rest]; [done|]. cbn [LinkedList.sort_insert].
    by rewrite (type_assert_nil e He).
  - destruct (sort_insert_spec cmp e acc He Hacc) as (placed & -> & Hperm & _).
    rewrite Done_bind. apply IH.
    + intros ->. by apply Permutation_nil_cons in Hperm.
    + by rewrite (holds_nil_Permutation _ _ Hperm), holds_nil_cons, He.
    + done.
Qed.

Lemma min_loop_spec (cmp : E → E → Z) `{!Ordering cmp} (rest : list E) : ∀ m,
  minimal_in cmp (LinkedList.min_loop m rest cmp) (m :: rest).
Proof.
  unfold minimal_in, not_after.
  induction rest as [|xi rest IH]; intros m; simpl.
  - split; [by left|]. intros y Hy. apply list_elem_of_singleton in Hy as ->.
    apply (cmp_irrefl cmp).
  - destruct (IH (if cmp xi m <? 0 then xi else m)) as [Hin Hmin].
    set (r := LinkedList.min_loop _ rest cmp) in *.
    destruct (Z.ltb_spec (cmp xi m) 0) as [Hlt|Hge].
    + split.
      * apply elem_of_cons in Hin as [->|Hin]; [right; by left | by do 2 right].
      * intros y Hy. apply elem_of_cons in Hy as [->|Hy]; [|by apply Hmin].
        intros Hback. apply (Hmin xi); [by left|].
        by apply (cmp_trans cmp xi m r).
    + split.
      * apply elem_of_cons in Hin as [->|Hin]; [by left | by do 2 right].
      * intros y Hy. apply elem_of_cons in Hy as [->|Hy]; [apply Hmin; by left|].
        apply elem_of_cons in Hy as [->|Hy]; [|apply Hmin; by right].
        apply (cmp_neg_trans cmp xi m r); [lia|]. apply Hmin. by left.
Qed.

Lemma max_loop_spec (cmp : E → E → Z) `{!Ordering cmp} (rest : list E) :
  (∀ a b, cmp a b > 0 ↔ cmp b a < 0) →
  ∀ m, LinkedList.max_loop m rest cmp ∈ m :: rest
       ∧ ∀ y, y ∈ m :: rest → not_after cmp y (LinkedList.max_loop m rest cmp).
Proof.
  unfold not_after. intros Hflip.
  induction rest as [|xi rest IH]; intros m; simpl.
  - split; [by left|]. intros y Hy. apply list_elem_of_singleton in Hy as ->.
    apply (cmp_irrefl cmp).
  - destruct (IH (if cmp xi m >? 0 then xi else m)) as [Hin Hmax].
    set (r := LinkedList.max_loop _ rest cmp) in *.
    destruct (Z.gtb_spec (cmp xi m) 0) as [Hgt|Hle].
    + split.
      * apply elem_of_cons in Hin as [->|Hin]; [right; by left | by do 2 right].
      * intros y Hy. apply elem_of_cons in Hy as [->|Hy]; [|by apply Hmax].
        intros Hback. apply (Hmax xi); [by left|].
        apply (cmp_trans cmp r m xi); [done|]. apply Hflip. lia.
    + split.
      * apply elem_of_cons in Hin as [->|Hin]; [by left | by do 2 right].
      * intros y Hy. apply elem_of_cons in Hy as [->|Hy]; [apply Hmax; by left|].
        apply elem_of_cons in Hy as [->|Hy]; [|apply Hmax; by right].
        apply (cmp_neg_trans cmp r m xi); [apply Hmax; by left|].
        intros Hback. apply Hflip in Hback. lia.
Qed.

Lemma compact_loop_cons (callback : E → E → bool) prev e (next : list E) :
  is_nil prev = false → is_nil e = false →
  LinkedList.compact_loop prev (e :: next) callback
  = if callback e prev then LinkedList.compact_loop prev next callback
    else rest ← LinkedList.compact_loop e next callback; Done (e :: rest).
Proof.
  intros Hprev He. cbn [LinkedList.compact_loop].
  by rewrite (type_assert_ok e He), (type_assert_ok prev Hprev), !Done_bind.
Qed.

Lemma compact_loop_spec (callback : E → E → bool) l : ∀ prev,
  is_nil prev = false → holds_nil l = false →
  ∃ kept, LinkedList.compact_loop prev l callback = Done kept
    ∧ sublist kept l
    ∧ Sorted (λ a b, callback b a = false) (prev :: kept)
    ∧ (Sorted (λ a b, callback b a = false) (prev :: l) → kept = l).
Proof.
  induction l as [|e l IH]; intros prev Hprev Hl.
  - exists []. split; [done|]. split; [constructor|].
    split; [by repeat constructor | done].
  - rewrite holds_nil_cons in Hl. apply orb_false_iff in Hl as [He Hl].
    rewrite compact_loop_cons by done.
    destruct (callback e prev) eqn:Hc.
    + destruct (IH prev Hprev Hl) as (kept & -> & Hsub & Hsorted & _).
      exists kept. split; [done|]. split; [by constructor|]. split; [done|].
      intros Hs. apply Sorted_inv in Hs as [_ Hhd]. apply HdRel_inv in Hhd.
      congruence.
    + destruct (IH e He Hl) as (kept & -> & Hsub & Hsorted & Hsame).
      rewrite Done_bind. exists (e :: kept).
      split; [done|]. split; [by constructor|]. split.
      * constructor; [done | by constructor].
      * intros Hs. apply Sorted_inv in Hs as [Hs _]. f_equal. by apply Hsame.
Qed.

Lemma compact_loop_panics (callback : E → E → bool) l : ∀ prev,
  l ≠ [] → holds_nil (prev :: l) = true →
  LinkedList.compact_loop prev l callback = Panics.
Proof.
  induction l as [|e l IH]; intros prev Hne Hnil; [done|].
  cbn [LinkedList.compact_loop]. unfold type_assert.
  rewrite !holds_nil_cons in Hnil.
  destruct (is_nil e) eqn:He; [done|]. rewrite Done_bind.
  destruct (is_nil prev) eqn:Hprev; [done|]. rewrite Done_bind.
  simpl in Hnil.
  assert (l ≠ []) by (intros ->; discriminate).
  destruct (callback e prev).
  - apply IH; [done|]. by rewrite holds_nil_cons, Hprev.
  - rewrite IH; [done | done |]. by rewrite holds_nil_cons, He.
Qed.

Lemma concat_singletons (s : list E) : concat (map (λ x, [x]) s) = s.
Proof. induction s as [|a s IH]; simpl; [done | by rewrite IH]. Qed.

Lemma chunk_loop_spec (size : Z) l : 1 <= size → ∀ chunks chunk,
  holds_nil l = false →
  Z.of_nat (length chunk + length l) <= Int64.max_int →
  Z.of_nat (length chunk) <= size →
  Forall (λ c, Z.of_nat (length c) = size) chunks →
  ∃ init last,
    LinkedList.chunk_loop l size chunks chunk = Done (init ++ [last])
    ∧ Forall (λ c, Z.of_nat (length c) = size) init
    ∧ Z.of_nat (length last) <= size
    ∧ (chunk ≠ [] ∨ l ≠ [] → last ≠ [])
    ∧ concat (init ++ [last]) = concat chunks ++ chunk ++ l.
Proof.
  intros Hsize. induction l as [|e l IH];
    intros chunks chunk Hl Hfit Hlen Hfull.
  - exists chunks, chunk. simpl. split; [done|]. split; [done|]. split; [done|].
    split; [by intros [?|?]|].
    by rewrite concat_app, app_nil_r; simpl; rewrite app_nil_r.
  - rewrite holds_nil_cons in Hl. apply orb_false_iff in Hl as [He Hl].
    rewrite length_cons in Hfit. cbn [LinkedList.chunk_loop].
    rewrite of_len_fits by lia.
    destruct (Z.ltb_spec (Z.of_nat (length chunk)) size) as [Hroom|Hfilled].
    + rewrite (type_assert_ok e He), Done_bind, Push_app.
      destruct (IH chunks (chunk ++ [e]))
        as (init & last & -> & Hinit & Hlast & Hne & Hcat);
        [done | rewrite length_app; simpl; lia
         | rewrite length_app; simpl; lia | done|].
      exists init, last. split; [done|]. split; [done|]. split; [done|].
      split; [intros _; apply Hne; left; by destruct chunk|].
      by rewrite Hcat, <- app_assoc.
    + destruct (IH (chunks ++ [chunk]) [e])
        as (init & last & -> & Hinit & Hlast & Hne & Hcat);
        [done | simpl; lia | simpl; lia | |].
      { apply Forall_app. split; [done|]. constructor; [lia | done]. }
      exists init, last. split; [done|]. split; [done|]. split; [done|].
      split; [intros _; apply Hne; by left|].
      rewrite Hcat, concat_app. simpl. by rewrite app_nil_r, <- app_assoc.
Qed.

(** With no room in any chunk nothing is asserted. *)
Lemma chunk_loop_no_room (size : Z) l : size <= 0 → ∀ chunks chunk,
  Z.of_nat (length chunk) <= Int64.max_int →
  LinkedList.chunk_loop l size chunks chunk
  = Done (chunks ++ [chunk] ++ map (λ x, [x]) l).
Proof.
  intros Hsize. induction l as [|e l IH]; intros chunks chunk Hfit; simpl; [done|].
  rewrite of_len_fits by done.
  destruct (Z.ltb_spec (Z.of_nat (length chunk)) size); [lia|].
  rewrite IH by (vm_compute; discriminate). by rewrite <- app_assoc.
Qed.
End ListTransforms.

(** X15. Sub returns the elements at the positions from [from] up to,
    not including, [to], in their order: a negative [from] counts as 0,
    a [to] past the end as the end, and the result is empty when [to] is
    not above [from]. The elements it copies go through a type
    assertion: it panics when one of them is the nil of an interface
    element type. *)
Theorem Sub_range {E} `{GoZero E} `{GoNil E} (l : LinkedList.t E)
    (from to : Z) :
  ll_inv l →
  LinkedList.Sub l from to
  = (if holds_nil (take (Z.to_nat to - Z.to_nat from) (drop (Z.to_nat from) l))
     then Panics
     else Done (take (Z.to_nat to - Z.to_nat from) (drop (Z.to_nat from) l)))
  ∧ (to <= from → LinkedList.Sub l from to = Done [])
  ∧ (from <= 0 → Z.of_nat (length l) <= to →
     LinkedList.Sub l from to = if holds_nil l then Panics else Done l).
Proof.
  intros Hl. unfold ll_inv in Hl.
  assert (Hsub : LinkedList.Sub l from to
            = if holds_nil (take (Z.to_nat to - Z.to_nat from)
                              (drop (Z.to_nat from) l))
              then Panics
              else Done (take (Z.to_nat to - Z.to_nat from)
                           (drop (Z.to_nat from) l))).
  { unfold LinkedList.Sub, LinkedList.NewLinkedList.
    rewrite (sub_loop_take l 0 from to) by (simpl; lia). simpl.
    by rewrite Nat.max_0_r, Nat.sub_0_r. }
  rewrite Hsub. split; [done|]. split.
  - intros Hto. replace (Z.to_nat to - Z.to_nat from)%nat with 0%nat by lia.
    by rewrite take_0.
  - intros Hfrom Hpast. replace (Z.to_nat from) with 0%nat by lia.
    rewrite drop_0, take_ge by lia. done.
Qed.

Lemma Sub_range_witness :
  LinkedList.Sub [4; 5; 6; 7] 1 3 = Done [5; 6]
  ∧ LinkedList.Sub [4; 5; 6; 7] (-2) 9 = Done [4; 5; 6; 7].
Proof.
  assert (Hl : ll_inv [4; 5; 6; 7]) by (vm_compute; discriminate).
  split.
  - destruct (Sub_range [4; 5; 6; 7] 1 3 Hl) as [Hsub _]. exact Hsub.
  - destruct (Sub_range [4; 5; 6; 7] (-2) 9 Hl) as (_ & _ & Hall).
    apply Hall; simpl; lia.
Defined.

(** X16. With a comparator of an ordering, Sort of a list that holds no
    nil of an interface element type leaves the same elements in
    ascending order: no element sorts before one that precedes it. A
    list already in that order is left exactly as it is, so sorting
    twice gives what sorting once gives. A list of at most one element
    is returned as it is; on a longer list that holds a nil of an
    interface element type Sort panics, the comparator getting its
    arguments through a type assertion. *)
Theorem Sort_sorts {E} `{GoZero E} `{GoNil E} (cmp : E → E → Z)
    (l : LinkedList.t E) :
  Ordering cmp →
  (holds_nil l = false →
   ∃ s, LinkedList.Sort l cmp = Done s
     ∧ s ≡ₚ l
     ∧ StronglySorted (not_after cmp) s
     ∧ (StronglySorted (not_after cmp) l → s = l)
     ∧ LinkedList.Sort s cmp = Done s)
  ∧ ((length l ≤ 1)%nat → LinkedList.Sort l cmp = Done l)
  ∧ (holds_nil l = true → (2 ≤ length l)%nat →
     LinkedList.Sort l cmp = Panics).
Proof.
  intros Hord. unfold LinkedList.Sort.
  assert (Hspec : ∀ s0 : list E, holds_nil s0 = false →
            ∃ s, LinkedList.sort_loop s0 cmp [] = Done s
              ∧ s ≡ₚ s0
              ∧ StronglySorted (not_after cmp) s
              ∧ (StronglySorted (not_after cmp) s0 → s = s0)).
  { intros s0 Hs0.
    destruct (sort_loop_spec cmp s0 [] Hs0 eq_refl)
      as (s & Hrun & Hperm & Hsorted & Hsame); [constructor|].
    exists s. split; [done|]. split; [done|]. split; [|done].
    apply Sorted_StronglySorted; [|done].
    intros a b c. apply (not_after_transitive cmp). }
  split; [|split].
  - intros Hl. destruct (Hspec l Hl) as (s & Hrun & Hperm & Hstrong & Hsame).
    exists s. split; [done|]. split; [done|]. split; [done|]. split; [done|].
    destruct (Hspec s) as (s' & -> & _ & _ & Hsame').
    { by rewrite (holds_nil_Permutation _ _ Hperm). }
    by rewrite Hsame'.
  - intros Hlen. destruct l as [|x [|y rest]]; [done | done | simpl in Hlen; lia].
  - intros Hl Hlen. destruct l as [|x [|y rest]]; [simpl in Hlen; lia..|].
    change (LinkedList.sort_loop (x :: y :: rest) cmp [])
      with (LinkedList.sort_loop (y :: rest) cmp [x]).
    destruct (is_nil x) eqn:Hx.
    + cbn [LinkedList.sort_loop LinkedList.sort_insert]. unfold type_assert.
      rewrite Hx. by destruct (is_nil y).
    + apply sort_loop_panics; [done | by rewrite holds_nil_cons, Hx|].
      rewrite holds_nil_cons, Hx in Hl. done.
Qed.

Lemma Sort_sorts_witness :
  ∃ s, LinkedList.Sort [3; 1; 2] numeric_ascending = Done s
    ∧ s ≡ₚ [3; 1; 2]
    ∧ StronglySorted (not_after numeric_ascending) s.
Proof.
  destruct (Sort_sorts numeric_ascending [3; 1; 2] numeric_ascending_ordering)
    as (Hsorts & _).
  destruct (Hsorts eq_refl) as (s & Hrun & Hperm & Hsorted & _).
  exists s. split; [exact Hrun|]. split; [exact Hperm | exact Hsorted].
Defined.

(** X17. Min and Max panic on an empty list, and on a list that holds
    the nil of an interface element type (they copy the list with
    ToArray). On any other list, with a comparator of an ordering, Min
    returns an element of the list that none sorts before, and Max (the
    comparator being positive one way exactly when it is negative the
    other way) an element that sorts before none. *)
Theorem Min_and_Max {E} `{GoZero E} `{GoNil E} (cmp : E → E → Z)
    (l : LinkedList.t E) :
  Ordering cmp →
  (∀ a b, cmp a b > 0 ↔ cmp b a < 0) →
  (LinkedList.Min l cmp = Panics ↔ l = [] ∨ holds_nil l = true)
  ∧ (LinkedList.Max l cmp = Panics ↔ l = [] ∨ holds_nil l = true)
  ∧ (l ≠ [] → holds_nil l = false →
     ∃ lo hi,
       LinkedList.Min l cmp = Done lo ∧ LinkedList.Max l cmp = Done hi
       ∧ minimal_in cmp lo l
       ∧ hi ∈ l ∧ ∀ y, y ∈ l → not_after cmp y hi).
Proof.
  intros Hord Hflip. unfold LinkedList.Min, LinkedList.Max.
  rewrite ToArray_spec. destruct (holds_nil l) eqn:Hl; simpl.
  - split; [split; [by right | done]|]. split; [split; [by right | done]|].
    by intros _ [=].
  - destruct l as [|x0 rest].
    + split; [split; [by left | done]|]. split; [split; [by left | done]|].
      by intros [].
    + split; [split; [done | by intros [[=]|[=]]]|].
      split; [split; [done | by intros [[=]|[=]]]|]. intros _ _.
      exists (LinkedList.min_loop x0 rest cmp), (LinkedList.max_loop x0 rest cmp).
      split; [done|]. split; [done|]. split; [by apply min_loop_spec|].
      by apply max_loop_spec.
Qed.

Lemma Min_and_Max_witness :
  LinkedList.Min ([] : LinkedList.t Z) numeric_ascending = Panics
  ∧ ∃ lo hi,
      LinkedList.Min [3; 1; 2] numeric_ascending = Done lo
      ∧ LinkedList.Max [3; 1; 2] numeric_ascending = Done hi
      ∧ minimal_in numeric_ascending lo [3; 1; 2]
      ∧ hi ∈ [3; 1; 2] ∧ ∀ y, y ∈ [3; 1; 2] → not_after numeric_ascending y hi.
Proof.
  assert (Hflip : ∀ a b, numeric_ascending a b > 0 ↔ numeric_ascending b a < 0).
  { intros a b. unfold numeric_ascending.
    destruct (Z.ltb_spec a b), (Z.gtb_spec a b), (Z.ltb_spec b a),
      (Z.gtb_spec b a); lia. }
  split.
  - destruct (Min_and_Max numeric_ascending [] numeric_ascending_ordering Hflip)
      as (Hmin & _). apply Hmin. by left.
  - destruct (Min_and_Max numeric_ascending [3; 1; 2]
                numeric_ascending_ordering Hflip) as (_ & _ & Hsome).
    by apply Hsome.
Defined.

(** X18. Compact returns a list of fewer than two elements as it is. On
    a longer list the callback (deep equality when none is given) gets
    each element and the one now before it through type assertions: the
    call panics when the list holds the nil of an interface element
    type. Otherwise it only removes elements: what stays is in the
    original order, starts with the original front, and has no element
    for which the callback holds against the one now before it; a list
    that has no such neighbours is unchanged. *)
Theorem Compact_neighbours {E} `{GoZero E} `{GoNil E}
    (DeepEqual : E → E → bool) (l : LinkedList.t E)
    (callback : option (E → E → bool)) :
  ((length l < 2)%nat → LinkedList.Compact DeepEqual l callback = Done l)
  ∧ ((2 ≤ length l)%nat → holds_nil l = true →
     LinkedList.Compact DeepEqual l callback = Panics)
  ∧ (holds_nil l = false →
     ∃ compacted,
       LinkedList.Compact DeepEqual l callback = Done compacted
       ∧ sublist compacted l
       ∧ head compacted = head l
       ∧ Sorted (λ a b, default DeepEqual callback b a = false) compacted
       ∧ (Sorted (λ a b, default DeepEqual callback b a = false) l →
          compacted = l)).
Proof.
  unfold LinkedList.Compact.
  replace (match callback with Some g => g | None => DeepEqual end)
    with (default DeepEqual callback) by (by destruct callback).
  destruct l as [|front [|second rest]].
  - split; [done|]. split; [simpl; lia|]. intros _. exists [].
    split; [done|]. split; [constructor|]. split; [done|].
    split; [constructor | done].
  - split; [done|]. split; [simpl; lia|]. intros _. exists [front].
    split; [done|]. split; [done|]. split; [done|].
    split; [by repeat constructor | done].
  - split; [simpl; lia|]. split.
    + intros _ Hnil. by rewrite compact_loop_panics.
    + intros Hnil. rewrite holds_nil_cons in Hnil.
      apply orb_false_iff in Hnil as [Hfront Hrest].
      destruct (compact_loop_spec (default DeepEqual callback)
                  (second :: rest) front Hfront Hrest)
        as (kept & -> & Hsub & Hsorted & Hsame).
      rewrite Done_bind. exists (front :: kept).
      split; [done|]. split; [by constructor|]. split; [done|].
      split; [done|]. intros Hl. f_equal. by apply Hsame.
Qed.

(** X19. Chunk splits the list into consecutive parts. For a size of at
    least 1 and a list that holds no nil of an interface element type,
    the parts put together again give the list, every part but the last
    has exactly that many elements, and the last has at most that many
    and is empty only for an empty list; a front element that is such a
    nil makes the call panic. For a size below 1 nothing is asserted and
    the result is an empty part followed by one part for each
    element. *)
Theorem Chunk_parts {E} `{GoZero E} `{GoNil E} (l : LinkedList.t E)
    (size : Z) :
  ll_inv l →
  (1 <= size → holds_nil l = false →
   ∃ init last,
     LinkedList.Chunk l size = Done (init ++ [last])
     ∧ concat (init ++ [last]) = l
     ∧ Forall (λ c, Z.of_nat (length c) = size) init
     ∧ Z.of_nat (length last) <= size
     ∧ (l ≠ [] → last ≠ []))
  ∧ (1 <= size → ∀ x rest, l = x :: rest → is_nil x = true →
     LinkedList.Chunk l size = Panics)
  ∧ (size <= 0 →
     LinkedList.Chunk l size = Done ([] :: map (λ x, [x]) l)
     ∧ concat ([] :: map (λ x, [x]) l) = l).
Proof.
  intros Hl. unfold ll_inv in Hl. unfold LinkedList.Chunk.
  split; [|split].
  - intros Hsize Hnil.
    destruct (chunk_loop_spec size l Hsize [] [] Hnil)
      as (init & last & Hrun & Hinit & Hlast & Hne & Hcat);
      [simpl; lia | simpl; lia | constructor|].
    exists init, last. split; [done|]. split; [done|]. split; [done|].
    split; [done|]. intros Hnonempty. apply Hne. by right.
  - intros Hsize x rest -> Hx. cbn [LinkedList.chunk_loop].
    change (Int64.of_len (@nil E)) with 0.
    destruct (Z.ltb_spec 0 size); [|lia].
    by rewrite (type_assert_nil x Hx).
  - intros Hsize. rewrite chunk_loop_no_room by (simpl; lia || done).
    split; [done|]. simpl. apply concat_singletons.
Qed.

Lemma Chunk_parts_witness :
  (∃ init last, LinkedList.Chunk [1; 2; 3; 4; 5] 2 = Done (init ++ [last])
                ∧ concat (init ++ [last]) = [1; 2; 3; 4; 5])
  ∧ LinkedList.Chunk [1; 2; 3] 0 = Done [[]; [1]; [2]; [3]].
Proof.
  assert (Hl5 : ll_inv [1; 2; 3; 4; 5]) by (vm_compute; discriminate).
  assert (Hl3 : ll_inv [1; 2; 3]) by (vm_compute; discriminate).
  split.
  - destruct (Chunk_parts [1; 2; 3; 4; 5] 2 Hl5) as [Hparts _].
    destruct Hparts as (init & last & Hrun & Hcat & _); [lia | reflexivity|].
    by exists init, last.
  - destruct (Chunk_parts [1; 2; 3] 0 Hl3) as (_ & _ & Hnone).
    apply Hnone. lia.
Defined.

Section EachFacts.
Context {E : Type} `{GoZero E} `{GoNil E}.

Lemma each_loop_visits (go : Z → E → bool) (l : LinkedList.t E) :
  ∀ (n0 n : nat) (seen : list (Z * E)),
  Z.of_nat (n0 + length l) <= Int64.max_int →
  (∀ k x, (k < n)%nat → l !! k = Some x →
     is_nil x = false ∧ go (Z.of_nat (n0 + k)) x = true) →
  (∀ x, l !! n = Some x → is_nil x = true →
     LinkedList.each_loop l (Z.of_nat n0)
       (λ i e seen, (seen ++ [(i, e)], go i e)) seen = Panics)
  ∧ (∀ x, l !! n = Some x → is_nil x = false →
       go (Z.of_nat (n0 + n)) x = false →
     LinkedList.each_loop l (Z.of_nat n0)
       (λ i e seen, (seen ++ [(i, e)], go i e)) seen
     = Done (seen ++ take (S n) (imap (λ k x, (Z.of_nat (n0 + k), x)) l)))
  ∧ (l !! n = None →
     LinkedList.each_loop l (Z.of_nat n0)
       (λ i e seen, (seen ++ [(i, e)], go i e)) seen
     = Done (seen ++ imap (λ k x, (Z.of_nat (n0 + k), x)) l)).
Proof.
  induction l as [|e l IH]; intros n0 n seen Hfit Hgo.
  - simpl. split; [done|]. split; [done|]. by rewrite app_nil_r.
  - rewrite length_cons in Hfit. cbn [LinkedList.each_loop].
    rewrite imap_cons, firstn_cons, Nat.add_0_r. unfold type_assert.
    destruct n as [|n].
    + simpl lookup. split; [|split; [|done]].
      * intros x [= ->] Hx. by rewrite Hx.
      * intros x [= ->] Hx Hstop. rewrite Nat.add_0_r in Hstop.
        rewrite Hx, Done_bind, Hstop, take_0. done.
    + destruct (Hgo 0%nat e (Nat.lt_0_succ n) eq_refl) as [He Hon].
      rewrite Nat.add_0_r in Hon. rewrite He, Done_bind, Hon.
      rewrite next_index by (unfold Int64.max_int in *; lia).
      destruct (IH (S n0) n (seen ++ [(Z.of_nat n0, e)]))
        as (Hpanic & Hstop & Hall); [lia| |].
      { intros k x Hk Hx. replace (S n0 + k)%nat with (n0 + S k)%nat by lia.
        apply Hgo; [lia | done]. }
      assert (Hshift : imap ((λ k x, (Z.of_nat (n0 + k), x)) ∘ S) l
                       = imap (λ k x, (Z.of_nat (S n0 + k), x)) l).
      { apply imap_ext. intros k x _. simpl. do 2 f_equal. lia. }
      rewrite Hshift. simpl lookup. split; [|split].
      * done.
      * intros x Hx Hnil Hoff.
        rewrite Hstop with (x := x); [by rewrite <- app_assoc | done | done |].
        by replace (S n0 + n)%nat with (n0 + S n)%nat by lia.
      * intros Hnone. rewrite Hall by done. by rewrite <- app_assoc.
Qed.
End EachFacts.

(** X26. Each calls the callback on the elements from the front, each
    with its position, up to and including the first one for which the
    callback returns false, and on all of them when there is none. The
    callback gets the element through a type assertion: the walk panics
    at an element that is the nil of an interface element type. *)
Theorem Each_visits {E} `{GoZero E} `{GoNil E} (l : LinkedList.t E)
    (go : Z → E → bool) (n : nat) :
  ll_inv l →
  (∀ k x, (k < n)%nat → l !! k = Some x →
     is_nil x = false ∧ go (Z.of_nat k) x = true) →
  (∀ x, l !! n = Some x → is_nil x = true →
     LinkedList.Each l (λ i e seen, (seen ++ [(i, e)], go i e)) [] = Panics)
  ∧ (∀ x, l !! n = Some x → is_nil x = false → go (Z.of_nat n) x = false →
     LinkedList.Each l (λ i e seen, (seen ++ [(i, e)], go i e)) []
     = Done (take (S n) (imap (λ k x, (Z.of_nat k, x)) l)))
  ∧ (l !! n = None →
     LinkedList.Each l (λ i e seen, (seen ++ [(i, e)], go i e)) []
     = Done (imap (λ k x, (Z.of_nat k, x)) l)).
Proof.
  intros Hl Hgo. unfold ll_inv in Hl. unfold LinkedList.Each.
  apply (each_loop_visits go l 0 n []); simpl; [lia | done].
Qed.

Lemma Each_visits_witness :
  LinkedList.Each [7; 8; 9] (λ i e seen, (seen ++ [(i, e)], i <? 1)) []
  = Done [(0, 7); (1, 8)].
Proof.
  assert (Hl : ll_inv [7; 8; 9]) by (vm_compute; discriminate).
  destruct (Each_visits [7; 8; 9] (λ i _, i <? 1) 1 Hl) as (_ & Hstop & _).
  - intros k x Hk _. destruct k; [done | lia].
  - apply (Hstop 8); reflexivity.
Defined.
